(** * Event ordering and capture enrichment of the recording app (src/main.js)

    A shallow embedding of the event-slot registry, the window-bounds cache,
    the scroll aggregator, the coordinate translation, the supervision of
    the recording processes, the keyboard listener, the choice of the
    application window and the extraction of frames from the video, followed
    by the properties proved about them.

    Conventions of the embedding.
    - The program runs on a single-threaded event loop.  An [async] function
      is cut at each [await] into the pieces that run without interruption;
      what a piece needs later is kept in a record (its continuation) and the
      value the awaited promise delivers is an argument of the next piece.
    - [Date.now()] and the results of the operating-system queries are
      arguments of the pieces that read them.
    - Identifiers, counters and millisecond clocks are [Z]; the other
      JavaScript numbers stored in events are exact rationals [Qc].
    - [eventSlots] (a JavaScript [Map]) is a [gmap Z slot]; the open part of
      an event object (the keys spread from [basicData] and [completeData])
      is a [gmap string value], and object spread is the union of maps. *)

From stdpp Require Import gmap strings list fin_maps numbers pretty sorting.
From Stdlib Require Import ZArith QArith Qcanon Qround Lqa.

Open Scope Z_scope.

(** ** JavaScript values stored in event objects *)

#[warnings="-register-all"]
Inductive value : Type :=
  | VNull
  | VBool (b : bool)
  | VNum (q : Qc)
  | VStr (s : string)
  | VArr (l : list value)
  | VObj (o : list (string * value)).

Definition VInt (z : Z) : value := VNum (Qc_of_Z z).

(** ** EventSlotRegistry: createEventSlot, completeEvent,
       finalizeCompletedEvents, clearEventSlots *)

Module Registry.

(** [screenshots] of a completed event:
    [{ displays: screenshots.screenPaths, appWindow: screenshots.appWindowPath }] *)
Record shots : Type := mkShots {
  displays : list string;
  appWindow : option string
}.

(** What [captureScreenshot] resolves to when it is not [null]. *)
Record capture : Type := mkCapture {
  screenPaths : list string;
  appWindowPath : option string
}.

(** An event object without its [_pending] mark.  The keys written by
    [createEventSlot] itself are fields of the record; [fields] holds the
    keys spread from [basicData] and [completeData] (the callers pass
    object literals whose keys are none of [id], [type], [timestamp],
    [absoluteTimestamp], [_pending], [screenshots]). *)
Record event : Type := mkEvent {
  id : Z;
  type : string;
  timestamp : Qc;
  absoluteTimestamp : Z;
  fields : gmap string value;
  screenshots : option shots
}.

(** A value of the [eventSlots] map. *)
Record slot : Type := mkSlot {
  slot_event : event;
  _pending : bool
}.

(** The module-level variables the registry works on; [events] is
    [sessionData.events]. *)
Record registry : Type := mkRegistry {
  eventCounter : Z;
  eventSlots : gmap Z slot;
  maxCompletedEventId : Z;
  events : list event
}.

(** State at the start of a session ([startRecording]): the counter is 0,
    [clearEventSlots] has run and [sessionData.events] is a fresh array. *)
Definition initial : registry :=
  {| eventCounter := 0; eventSlots := ∅; maxCompletedEventId := -1; events := [] |}.

(** The object [createEventSlot] returns, without its [complete] closure,
    which is [completeEvent eventId]. *)
Record handle : Type := mkHandle {
  h_eventId : Z;
  h_timestamp : Qc;
  h_absoluteTimestamp : Z
}.

(** [createEventSlot(eventType, basicData)]; [now_video] is the value of
    [getVideoTimestamp()] and [now_abs] that of [Date.now()]. *)
Definition createEventSlot (eventType : string) (basicData : gmap string value)
    (now_video : Qc) (now_abs : Z) (st : registry) : handle * registry :=
  let eventId := eventCounter st in
  let eventSlot :=
    {| slot_event :=
         {| id := eventId; type := eventType; timestamp := now_video;
            absoluteTimestamp := now_abs; fields := basicData;
            screenshots := None |};
       _pending := true |} in
  ({| h_eventId := eventId; h_timestamp := now_video;
      h_absoluteTimestamp := now_abs |},
   {| eventCounter := eventId + 1;
      eventSlots := <[eventId := eventSlot]> (eventSlots st);
      maxCompletedEventId := maxCompletedEventId st;
      events := events st |}).

(** The loop of [finalizeCompletedEvents].  Each round deletes a key of
    [eventSlots], so [fuel] above the size of the map is never used up
    (lemma [finalize_loop_fuel] below). *)
Fixpoint finalize_loop (fuel : nat) (nextEventId : Z) (st : registry) : registry :=
  match fuel with
  | O => st
  | S fuel' =>
      match eventSlots st !! nextEventId with
      | None => st
      | Some ev =>
          if _pending ev then st
          else
            finalize_loop fuel' (nextEventId + 1)
              {| eventCounter := eventCounter st;
                 eventSlots := delete nextEventId (eventSlots st);
                 maxCompletedEventId := nextEventId;
                 events := events st ++ [slot_event ev] |}
      end
  end.

Definition finalizeCompletedEvents (st : registry) : registry :=
  finalize_loop (S (size (eventSlots st))) (maxCompletedEventId st + 1) st.

(** [completeEvent] up to its first [await]: the slot is read from the map
    now and kept by the suspended call.  [None] is the branch that logs
    "Event slot not found!" and returns. *)
Record completion : Type := mkCompletion {
  c_eventId : Z;
  c_eventSlot : slot;
  c_completeData : gmap string value
}.

Definition completeEvent_begin (eventId : Z) (completeData : gmap string value)
    (st : registry) : option completion :=
  match eventSlots st !! eventId with
  | None => None
  | Some eventSlot =>
      Some {| c_eventId := eventId; c_eventSlot := eventSlot;
              c_completeData := completeData |}
  end.

(** [{ ...eventSlot, ...completeData, _pending: false }] and then the
    [screenshots] key when the capture returned something. *)
Definition completed_slot (c : completion) (screenshots_result : option capture) : slot :=
  let e := slot_event (c_eventSlot c) in
  {| slot_event :=
       {| id := id e; type := type e; timestamp := timestamp e;
          absoluteTimestamp := absoluteTimestamp e;
          fields := c_completeData c ∪ fields e;
          screenshots :=
            match screenshots_result with
            | Some s => Some {| displays := screenPaths s; appWindow := appWindowPath s |}
            | None => screenshots e
            end |};
     _pending := false |}.

(** [eventSlots.set(eventId, completeEvent)] *)
Definition written (c : completion) (screenshots_result : option capture)
    (st : registry) : gmap Z slot :=
  <[c_eventId c := completed_slot c screenshots_result]> (eventSlots st).

(** [completeEvent] after the 800 ms delay and the capture: the slot is
    written back under [eventId] and the flush runs. *)
Definition completeEvent_resume (c : completion) (screenshots_result : option capture)
    (st : registry) : registry :=
  finalizeCompletedEvents
    {| eventCounter := eventCounter st;
       eventSlots := written c screenshots_result st;
       maxCompletedEventId := maxCompletedEventId st;
       events := events st |}.

Definition clearEventSlots (st : registry) : registry :=
  {| eventCounter := eventCounter st; eventSlots := ∅;
     maxCompletedEventId := -1; events := events st |}.




(** *** A session as the event loop sees it

    Besides the registry, the completions that are suspended at an [await].
    A [Complete] is the call of [completeEvent]; a [Resume n] lets the
    [n]-th suspended completion run to its end. *)
Record session : Type := mkSession {
  reg : registry;
  inflight : list completion
}.

Definition start : session := {| reg := initial; inflight := [] |}.

Inductive call : Type :=
  | CreateSlot (eventType : string) (basicData : gmap string value)
               (now_video : Qc) (now_abs : Z)
  | Complete (eventId : Z) (completeData : gmap string value)
  | Resume (n : nat) (screenshots_result : option capture).

Definition step (s : session) (c : call) : session :=
  match c with
  | CreateSlot ty d tv ta =>
      {| reg := (createEventSlot ty d tv ta (reg s)).2; inflight := inflight s |}
  | Complete eventId d =>
      match completeEvent_begin eventId d (reg s) with
      | None => s
      | Some k => {| reg := reg s; inflight := inflight s ++ [k] |}
      end
  | Resume n shots =>
      match inflight s !! n with
      | None => s
      | Some k =>
          {| reg := completeEvent_resume k shots (reg s);
             inflight := delete n (inflight s) |}
      end
  end.

Definition run (cs : list call) (s : session) : session := foldl step s cs.

(** The ids whose completion ran to its end during [cs]. *)
Fixpoint completed (cs : list call) (s : session) : list Z :=
  match cs with
  | [] => []
  | c :: cs' =>
      match c with
      | Resume n _ =>
          match inflight s !! n with
          | Some k => [c_eventId k]
          | None => []
          end
      | _ => []
      end ++ completed cs' (step s c)
  end.

(** The event that reaches the log for a slot created with [basicData] and
    completed once with [completeData] and the capture [screenshots_result]:
    the completed object without its [_pending] key. *)
Definition logged (eventId : Z) (eventType : string) (basicData : gmap string value)
    (now_video : Qc) (now_abs : Z) (completeData : gmap string value)
    (screenshots_result : option capture) : event :=
  {| id := eventId; type := eventType; timestamp := now_video;
     absoluteTimestamp := now_abs; fields := completeData ∪ basicData;
     screenshots :=
       match screenshots_result with
       | Some s => Some {| displays := screenPaths s; appWindow := appWindowPath s |}
       | None => None
       end |}.

(** The ids of the log. *)
Definition log_ids (st : registry) : list Z := id <$> events st.

(** What holds between two calls.  [C] is the set of ids completed so far. *)
Record inv (C : gset Z) (s : session) : Prop := mkInv {
  inv_counter : -1 ≤ maxCompletedEventId (reg s) < eventCounter (reg s);
  inv_key : ∀ k sl, eventSlots (reg s) !! k = Some sl →
              id (slot_event sl) = k ∧ 0 ≤ k < eventCounter (reg s);
  inv_log : log_ids (reg s) = seqZ 0 (maxCompletedEventId (reg s) + 1);
  inv_next : ∀ sl, eventSlots (reg s) !! (maxCompletedEventId (reg s) + 1) = Some sl →
               _pending sl = true;
  inv_inflight : ∀ k, k ∈ inflight s →
               id (slot_event (c_eventSlot k)) = c_eventId k ∧
               0 ≤ c_eventId k < eventCounter (reg s);
  inv_pending : ∀ k sl, eventSlots (reg s) !! k = Some sl → _pending sl = true →
               maxCompletedEventId (reg s) < k;
  inv_done : ∀ k, k ∈ C ↔
               (0 ≤ k ≤ maxCompletedEventId (reg s) ∨
                ∃ sl, eventSlots (reg s) !! k = Some sl ∧ _pending sl = false)
}.

End Registry.

(** ** Window bounds and the coordinate translation *)

(** The object [getApplicationWindowBoundsRaw] resolves to. *)
Module Bounds.
Record t : Type := mk {
  x : Z;
  y : Z;
  width : Z;
  height : Z;
  windowName : string;
  method : string
}.
End Bounds.

(** A window source of [desktopCapturer], as far as the cache reads it. *)
Module Window.
Record t : Type := mk {
  id : string;
  name : string
}.
End Window.

Module Coordinates.

(** The [applicationWindow] part of the result. *)
Record applicationWindow_t : Type := mkApplicationWindow {
  aw_x : Z;
  aw_y : Z;
  aw_width : Z;
  aw_height : Z;
  aw_name : string;
  aw_method : string
}.

Record appRelative : Type := mkAppRelative {
  x : Z;
  y : Z;
  isInsideApp : bool;
  applicationWindow : applicationWindow_t
}.

(** [getApplicationRelativeCoordinates(desktopX, desktopY, appBounds)];
    [None] is [null]. *)
Definition getApplicationRelativeCoordinates (desktopX desktopY : Z)
    (appBounds : option Bounds.t) : option appRelative :=
  match appBounds with
  | None => None
  | Some appBounds =>
      let relativeX := desktopX - Bounds.x appBounds in
      let relativeY := desktopY - Bounds.y appBounds in
      let isInsideApp :=
        (0 <=? relativeX) && (0 <=? relativeY)
        && (relativeX <=? Bounds.width appBounds)
        && (relativeY <=? Bounds.height appBounds) in
      Some {| x := relativeX; y := relativeY; isInsideApp := isInsideApp;
              applicationWindow :=
                {| aw_x := Bounds.x appBounds; aw_y := Bounds.y appBounds;
                   aw_width := Bounds.width appBounds;
                   aw_height := Bounds.height appBounds;
                   aw_name := Bounds.windowName appBounds;
                   aw_method := Bounds.method appBounds |} |}
  end.

(** The result as it is stored under the key [appRelative] of an event. *)
Definition to_value (r : appRelative) : value :=
  VObj [("x", VInt (x r)); ("y", VInt (y r)); ("isInsideApp", VBool (isInsideApp r));
        ("applicationWindow",
         VObj [("x", VInt (aw_x (applicationWindow r)));
               ("y", VInt (aw_y (applicationWindow r)));
               ("width", VInt (aw_width (applicationWindow r)));
               ("height", VInt (aw_height (applicationWindow r)));
               ("name", VStr (aw_name (applicationWindow r)));
               ("method", VStr (aw_method (applicationWindow r)))])].

(** [additionalData] of the click and scroll handlers: the key
    [appRelative] is set only when
    [appRelative && appBounds && appBounds.method !== 'fallback']. *)
Definition additionalData (appRelative : option appRelative)
    (appBounds : option Bounds.t) : gmap string value :=
  match appRelative, appBounds with
  | Some r, Some b =>
      if decide (Bounds.method b = "fallback") then ∅
      else {[ "appRelative" := to_value r ]}
  | _, _ => ∅
  end.

End Coordinates.

(** ** BoundsCache: updateCachedAppBounds and getCachedAppBounds *)

Module BoundsCache.

Definition BOUNDS_CACHE_DURATION : Z := 2000.

(** The four module-level variables of the cache. *)
Record cache : Type := mkCache {
  cachedAppBounds : option Bounds.t;
  cachedAppWindow : option Window.t;
  lastBoundsUpdate : Z;
  boundsUpdateInProgress : bool
}.

Definition empty : cache :=
  {| cachedAppBounds := None; cachedAppWindow := None;
     lastBoundsUpdate := 0; boundsUpdateInProgress := false |}.

Definition finish (c : cache) : cache :=
  {| cachedAppBounds := cachedAppBounds c; cachedAppWindow := cachedAppWindow c;
     lastBoundsUpdate := lastBoundsUpdate c; boundsUpdateInProgress := false |}.

(** How an awaited promise settles; [Rejected] lands in the [catch]. *)
Inductive settled (A : Type) : Type :=
  | Resolved (a : A)
  | Rejected.
Arguments Resolved {A} a.
Arguments Rejected {A}.

(** Where a call of [updateCachedAppBounds] stands after one of its pieces
    has run. *)
Inductive progress : Type :=
  | Returned (result : option Bounds.t)
  | AwaitWindow (now : Z)
  | AwaitBounds (now : Z) (appWindow : Window.t).

(** [cachedAppBounds && (now - lastBoundsUpdate) < BOUNDS_CACHE_DURATION] *)
Definition fresh (now : Z) (c : cache) : bool :=
  match cachedAppBounds c with
  | Some _ => bool_decide (now - lastBoundsUpdate c < BOUNDS_CACHE_DURATION)
  | None => false
  end.

(** From the call to [await getActiveApplicationWindow()]. *)
Definition updateCachedAppBounds_begin (now : Z) (c : cache) : progress * cache :=
  if boundsUpdateInProgress c then (Returned (cachedAppBounds c), c)
  else if fresh now c then (Returned (cachedAppBounds c), c)
  else (AwaitWindow now,
        {| cachedAppBounds := cachedAppBounds c; cachedAppWindow := cachedAppWindow c;
           lastBoundsUpdate := lastBoundsUpdate c; boundsUpdateInProgress := true |}).

(** [cachedAppWindow && cachedAppWindow.id === appWindow.id &&
     (now - lastBoundsUpdate) < BOUNDS_CACHE_DURATION] *)
Definition same_window (now : Z) (appWindow : Window.t) (c : cache) : bool :=
  match cachedAppWindow c with
  | Some w => bool_decide (Window.id w = Window.id appWindow)
              && bool_decide (now - lastBoundsUpdate c < BOUNDS_CACHE_DURATION)
  | None => false
  end.

(** From the answer of [getActiveApplicationWindow] to
    [await getApplicationWindowBoundsRaw(appWindow)]. *)
Definition updateCachedAppBounds_window (now : Z) (r : settled (option Window.t))
    (c : cache) : progress * cache :=
  match r with
  | Rejected => (Returned (cachedAppBounds c), finish c)
  | Resolved None => (Returned None, finish c)
  | Resolved (Some appWindow) =>
      if same_window now appWindow c then (Returned (cachedAppBounds c), finish c)
      else (AwaitBounds now appWindow, c)
  end.

(** From the answer of [getApplicationWindowBoundsRaw] to the end. *)
Definition updateCachedAppBounds_bounds (now : Z) (appWindow : Window.t)
    (r : settled (option Bounds.t)) (c : cache) : option Bounds.t * cache :=
  match r with
  | Rejected => (cachedAppBounds c, finish c)
  | Resolved None => (None, finish c)
  | Resolved (Some bounds) =>
      (Some bounds,
       {| cachedAppBounds := Some bounds; cachedAppWindow := Some appWindow;
          lastBoundsUpdate := now; boundsUpdateInProgress := false |})
  end.

(** [getCachedAppBounds]: its own reading [now] of the clock, then the
    reading [now'] made by [updateCachedAppBounds]. *)
Definition getCachedAppBounds_begin (now now' : Z) (c : cache) : progress * cache :=
  if fresh now c then (Returned (cachedAppBounds c), c)
  else updateCachedAppBounds_begin now' c.

(** *** The cache on the event loop

    [tasks] are the calls of [updateCachedAppBounds] suspended at an
    [await]; [answers] records what each caller received, oldest first;
    [windowQueries] and [boundsQueries] count the calls made so far to
    [getActiveApplicationWindow] and [getApplicationWindowBoundsRaw]. *)
Record task : Type := mkTask {
  t_caller : nat;
  t_now : Z;
  t_window : option Window.t
}.

Record system : Type := mkSystem {
  cache_of : cache;
  tasks : list task;
  answers : list (nat * option Bounds.t);
  windowQueries : nat;
  boundsQueries : nat
}.

Definition idle (c : cache) : system :=
  {| cache_of := c; tasks := []; answers := []; windowQueries := 0; boundsQueries := 0 |}.

Inductive event : Type :=
  | GetBounds (caller : nat) (now now' : Z)
  | Update (caller : nat) (now : Z)
  | WindowSettled (n : nat) (r : settled (option Window.t))
  | BoundsSettled (n : nat) (r : settled (option Bounds.t)).

(** What the event loop does with the outcome of a piece. *)
Definition proceed (caller : nat) (others : list task) (s : system)
    (p : progress * cache) : system :=
  match p.1 with
  | Returned r =>
      {| cache_of := p.2; tasks := others; answers := answers s ++ [(caller, r)];
         windowQueries := windowQueries s; boundsQueries := boundsQueries s |}
  | AwaitWindow now =>
      {| cache_of := p.2;
         tasks := others ++ [{| t_caller := caller; t_now := now; t_window := None |}];
         answers := answers s;
         windowQueries := S (windowQueries s); boundsQueries := boundsQueries s |}
  | AwaitBounds now w =>
      {| cache_of := p.2;
         tasks := others ++ [{| t_caller := caller; t_now := now; t_window := Some w |}];
         answers := answers s;
         windowQueries := windowQueries s; boundsQueries := S (boundsQueries s) |}
  end.

Definition step (s : system) (e : event) : system :=
  match e with
  | GetBounds caller now now' =>
      proceed caller (tasks s) s (getCachedAppBounds_begin now now' (cache_of s))
  | Update caller now =>
      proceed caller (tasks s) s (updateCachedAppBounds_begin now (cache_of s))
  | WindowSettled n r =>
      match tasks s !! n with
      | Some {| t_caller := caller; t_now := now; t_window := None |} =>
          proceed caller (delete n (tasks s)) s
            (updateCachedAppBounds_window now r (cache_of s))
      | _ => s
      end
  | BoundsSettled n r =>
      match tasks s !! n with
      | Some {| t_caller := caller; t_now := now; t_window := Some w |} =>
          let out := updateCachedAppBounds_bounds now w r (cache_of s) in
          proceed caller (delete n (tasks s)) s (Returned out.1, out.2)
      | _ => s
      end
  end.

Definition run (es : list event) (s : system) : system := foldl step s es.

(** The flag is up exactly while one call is suspended. *)
Definition single_flight (s : system) : Prop :=
  (boundsUpdateInProgress (cache_of s) = true ∧ length (tasks s) = 1%nat)
  ∨ (boundsUpdateInProgress (cache_of s) = false ∧ tasks s = []).

(** Callers that ask for the bounds one after the other, before anything
    they wait for has settled. *)
Definition concurrent_calls (calls : list (nat * Z * Z)) : list event :=
  (λ c, GetBounds c.1.1 c.1.2 c.2) <$> calls.

(** The state after a call that was answered at once with [r]. *)
Definition answered (s : system) (caller : nat) (r : option Bounds.t) : system :=
  {| cache_of := cache_of s; tasks := tasks s; answers := answers s ++ [(caller, r)];
     windowQueries := windowQueries s; boundsQueries := boundsQueries s |}.

(** Concrete data for the examples. *)
Definition demo_window : Window.t := {| Window.id := "window:101:0"; Window.name := "Editor" |}.
Definition other_window : Window.t := {| Window.id := "window:202:0"; Window.name := "Browser" |}.
Definition demo_bounds : Bounds.t :=
  {| Bounds.x := 100; Bounds.y := 50; Bounds.width := 800; Bounds.height := 600;
     Bounds.windowName := "Editor"; Bounds.method := "applescript" |}.
Definition stale_cache : cache :=
  {| cachedAppBounds := Some demo_bounds; cachedAppWindow := Some demo_window;
     lastBoundsUpdate := 0; boundsUpdateInProgress := false |}.

End BoundsCache.

(** ** ScrollAggregator: the wheel listener and captureScrollSequence *)

Module ScrollAggregator.

(** A wheel event of the input hook; [rotation] is the whole number of
    wheel steps the hook reports, [x] and [y] the pointer position. *)
Record wheel : Type := mkWheel {
  rotation : Z;
  x : Z;
  y : Z
}.

(** An element of [scrollAccumulator.events]. *)
Record sample : Type := mkSample {
  s_rotation : Z;
  s_x : Z;
  s_y : Z;
  s_timestamp : Z
}.

Record accumulator : Type := mkAccumulator {
  totalVertical : Z;
  totalHorizontal : Z;
  lastX : Z;
  lastY : Z;
  startTime : Z;
  events : list sample
}.

(** [overlayWindow.getBounds()] *)
Record rectangle : Type := mkRectangle {
  r_x : Z;
  r_y : Z;
  r_width : Z;
  r_height : Z
}.

(** What the listener reads and writes.  [overlayWindow] is [None] when
    there is no overlay window or it is destroyed.  [scrollDebounceTimer]
    is the time at which the pending timer fires, [None] when no timer is
    pending (clearing a timer that has fired does nothing). *)
Record listeners : Type := mkListeners {
  isRecording : bool;
  overlayWindow : option rectangle;
  scrollAccumulator : accumulator;
  scrollDebounceTimer : option Z
}.

Definition isOnOverlay (e : wheel) (overlayBounds : rectangle) : bool :=
  (r_x overlayBounds <=? x e)
  && (x e <=? r_x overlayBounds + r_width overlayBounds)
  && (r_y overlayBounds <=? y e)
  && (y e <=? r_y overlayBounds + r_height overlayBounds).

Definition skipped (e : wheel) (st : listeners) : bool :=
  negb (isRecording st)
  || match overlayWindow st with
     | Some overlayBounds => isOnOverlay e overlayBounds
     | None => false
     end.

(** [uIOhook.on('wheel', ...)].  The listener reads the clock twice:
    [now_start] is the reading kept as [startTime], made only when the
    accumulator is empty; [now] is the reading kept as the time stamp of
    the sample. *)
Definition on_wheel (now_start now : Z) (e : wheel) (st : listeners) : listeners :=
  if skipped e st then st
  else
    let acc := scrollAccumulator st in
    let opened :=
      match events acc with
      | [] => {| totalVertical := 0; totalHorizontal := 0; lastX := lastX acc;
                 lastY := lastY acc; startTime := now_start; events := events acc |}
      | _ :: _ => acc
      end in
    {| isRecording := isRecording st;
       overlayWindow := overlayWindow st;
       scrollAccumulator :=
         {| totalVertical := totalVertical opened + rotation e;
            totalHorizontal := totalHorizontal opened;
            lastX := x e; lastY := y e; startTime := startTime opened;
            events := events opened
                      ++ [{| s_rotation := rotation e; s_x := x e; s_y := y e;
                             s_timestamp := now |}] |};
       scrollDebounceTimer := Some (now + 300) |}.

(** [Math.round]: the nearest integer, halves upwards. *)
Definition Math_round (q : Qc) : Z := Qfloor (this q + (1 # 2))%Q.

(** [Math.round(amount * 10) / 10] *)
Definition round_to_1_decimal (amount : Qc) : Qc :=
  (Qc_of_Z (Math_round (amount * Qc_of_Z 10)) / Qc_of_Z 10)%Qc.

(** What [captureScrollSequence] has computed when it waits for the
    bounds. *)
Record measured : Type := mkMeasured {
  direction : string;
  amount : Z;
  duration : Z;
  screenInfo : value
}.

Inductive progress : Type :=
  | Finished
  | AwaitBounds (m : measured).

Definition with_events (evs : list sample) (st : listeners) : listeners :=
  {| isRecording := isRecording st; overlayWindow := overlayWindow st;
     scrollAccumulator :=
       {| totalVertical := totalVertical (scrollAccumulator st);
          totalHorizontal := totalHorizontal (scrollAccumulator st);
          lastX := lastX (scrollAccumulator st); lastY := lastY (scrollAccumulator st);
          startTime := startTime (scrollAccumulator st); events := evs |};
     scrollDebounceTimer := scrollDebounceTimer st |}.

(** [captureScrollSequence] up to [await getApplicationWindowBounds()];
    [screen_info] is the answer of [getCurrentScreenInfo].  [Finished] is
    a return without any slot. *)
Definition captureScrollSequence_begin (now : Z) (screen_info : value)
    (st : listeners) : progress * listeners :=
  let acc := scrollAccumulator st in
  match events acc with
  | [] => (Finished, st)
  | _ :: _ =>
      let totalRotation := totalVertical acc in
      let direction := if 0 <? totalRotation then "up" else "down" in
      let amount := Z.abs totalRotation in
      let duration := now - startTime acc in
      if bool_decide (Qc_of_Z amount < Q2Qc (1 # 2))%Qc
      then (Finished, with_events [] st)
      else (AwaitBounds {| direction := direction; amount := amount;
                           duration := duration; screenInfo := screen_info |}, st)
  end.

(** The callback of the debounce timer. *)
Definition on_timeout (now : Z) (screen_info : value) (st : listeners)
    : progress * listeners :=
  captureScrollSequence_begin now screen_info
    {| isRecording := isRecording st; overlayWindow := overlayWindow st;
       scrollAccumulator := scrollAccumulator st; scrollDebounceTimer := None |}.

(** The [basicData] of the scroll slot, read from the accumulator as it is
    when the bounds have arrived. *)
Definition scroll_basicData (m : measured) (acc : accumulator) : gmap string value :=
  {[ "x" := VInt (lastX acc);
     "y" := VInt (lastY acc);
     "direction" := VStr (direction m);
     "totalAmount" := VNum (round_to_1_decimal (Qc_of_Z (amount m)));
     "duration" := VInt (duration m);
     "individualScrolls" := VInt (Z.of_nat (length (events acc)));
     "screenInfo" := screenInfo m ]}.

(** From the answer of the bounds cache to [await eventSlot.complete(...)]:
    the slot is created and [completeEvent] is called on it. *)
Definition captureScrollSequence_slot (m : measured) (appBounds : option Bounds.t)
    (now_video : Qc) (now_abs : Z) (st : listeners) (reg : Registry.registry)
    : Registry.registry * option Registry.completion :=
  let acc := scrollAccumulator st in
  let appRelative :=
    Coordinates.getApplicationRelativeCoordinates (lastX acc) (lastY acc) appBounds in
  let created :=
    Registry.createEventSlot "scroll_sequence" (scroll_basicData m acc)
      now_video now_abs reg in
  (created.2,
   Registry.completeEvent_begin (Registry.h_eventId created.1)
     (Coordinates.additionalData appRelative appBounds) created.2).

(** After the completion: the accumulator is reset. *)
Definition captureScrollSequence_end (st : listeners) : listeners :=
  {| isRecording := isRecording st; overlayWindow := overlayWindow st;
     scrollAccumulator :=
       {| totalVertical := 0; totalHorizontal := 0;
          lastX := lastX (scrollAccumulator st); lastY := lastY (scrollAccumulator st);
          startTime := startTime (scrollAccumulator st); events := [] |};
     scrollDebounceTimer := scrollDebounceTimer st |}.

(** *** A burst: wheel events with the clock reading of each

    The two readings the listener makes for one event are the same
    millisecond. *)

Definition burst (samples : list (Z * wheel)) (st : listeners) : listeners :=
  foldl (λ st s, on_wheel s.1 s.1 s.2 st) st samples.

(** Each event comes less than 300 ms after the one before. *)
Fixpoint within_debounce (samples : list (Z * wheel)) : Prop :=
  match samples with
  | s1 :: (s2 :: _) as rest => s1.1 ≤ s2.1 < s1.1 + 300 ∧ within_debounce rest
  | _ => True
  end.

Definition total_rotation (samples : list (Z * wheel)) : Z :=
  foldr (λ s acc, rotation s.2 + acc) 0 samples.

(** The clock reading of the last event of the burst. *)
Definition last_time (samples : list (Z * wheel)) : Z :=
  foldl (λ _ s, s.1) 0 samples.

(** A listener at rest during a recording. *)
Definition at_rest : listeners :=
  {| isRecording := true; overlayWindow := None;
     scrollAccumulator :=
       {| totalVertical := 0; totalHorizontal := 0; lastX := 0; lastY := 0;
          startTime := 0; events := [] |};
     scrollDebounceTimer := None |}.

End ScrollAggregator.

(** ** ProcessSupervisor: stopNativeScreenRecording, stopDirectFFmpegRecording *)

Module Supervisor.

Inductive signal : Type := SIGINT | SIGTERM | SIGKILL.

(** The two stop functions differ in the first timeout and in how they ask
    the process to end. *)
Inductive recorder : Type := Native | FFmpeg.

Definition graceful_timeout (k : recorder) : Z :=
  match k with Native => 5000 | FFmpeg => 10000 end.

Definition final_timeout : Z := 3000.

(** How the recorded program reacts: whether it ends when it reads [q] on
    its standard input, and whether it ends on a signal it can handle.
    SIGKILL cannot be handled. *)
Record behaviour : Type := mkBehaviour {
  quits_on_q : bool;
  ends_on : signal → bool
}.

Definition ends (b : behaviour) (sig : signal) : bool :=
  match sig with
  | SIGKILL => true
  | _ => ends_on b sig
  end.

(** The [ChildProcess] object of Node.js as far as the stop functions use
    it.  [killed] is the property of that name: Node sets it when
    [kill()] has delivered a signal to the process, whatever the process
    does with the signal; it does not say that the process has ended.
    [kill()] on a process that has ended delivers nothing. *)
Record child : Type := mkChild {
  program : behaviour;
  stdin_writable : bool;
  killed : bool;
  exited : bool;
  received : list signal
}.

Definition spawn (b : behaviour) (stdin_ok : bool) : child :=
  {| program := b; stdin_writable := stdin_ok; killed := false; exited := false;
     received := [] |}.

Definition kill (sig : signal) (p : child) : child :=
  if exited p then p
  else {| program := program p; stdin_writable := stdin_writable p; killed := true;
          exited := ends (program p) sig; received := received p ++ [sig] |}.

(** [stdin.write('q\n'); stdin.end()] when it does not throw. *)
Definition write_q (p : child) : child :=
  if exited p then p
  else {| program := program p; stdin_writable := stdin_writable p; killed := killed p;
          exited := quits_on_q (program p); received := received p |}.

(** The state of one promise of [stopPromises]: which of the two stop
    functions made it, the process, the two timers (the time at which each
    fires, [None] when it is not pending), whether the ['exit'] listener
    has run, whether that listener is waiting for
    [handleRecordingExitAndExtract], and whether the promise is
    resolved. *)
Record stopping : Type := mkStopping {
  kind : recorder;
  proc : child;
  forceKillTimeout : option Z;
  finalTimeout : option Z;
  exitSeen : bool;
  extracting : bool;
  resolved : bool
}.

(** The ['exit'] listener.  It runs once, when the process has ended:
    [clearTimeout(forceKillTimeout)]; then the FFmpeg stop calls
    [resolve()], while the native stop first awaits
    [handleRecordingExitAndExtract] and resolves when that has settled
    ([extraction_settled]). *)
Definition notice_exit (st : stopping) : stopping :=
  if exited (proc st) && negb (exitSeen st) then
    {| kind := kind st; proc := proc st; forceKillTimeout := None;
       finalTimeout := finalTimeout st; exitSeen := true;
       extracting := match kind st with Native => true | FFmpeg => extracting st end;
       resolved := match kind st with Native => resolved st | FFmpeg => true end |}
  else st.

(** [handleRecordingExitAndExtract] has settled (it catches what it
    throws): the ['exit'] listener of the native stop goes on to
    [resolve()]. *)
Definition extraction_settled (st : stopping) : stopping :=
  if extracting st then
    {| kind := kind st; proc := proc st; forceKillTimeout := forceKillTimeout st;
       finalTimeout := finalTimeout st; exitSeen := exitSeen st;
       extracting := false; resolved := true |}
  else st.

(** The ['error'] listener: [clearTimeout(forceKillTimeout)] and
    [resolve()], whether or not the process has ended. *)
Definition on_error (st : stopping) : stopping :=
  {| kind := kind st; proc := proc st; forceKillTimeout := None;
     finalTimeout := finalTimeout st; exitSeen := exitSeen st;
     extracting := extracting st; resolved := true |}.

(** The body of the promise, at clock reading [now]. *)
Definition stop_begin (k : recorder) (now : Z) (p : child) : stopping :=
  let asked :=
    match k with
    | Native => kill SIGINT p
    | FFmpeg => if stdin_writable p then write_q p else kill SIGINT p
    end in
  notice_exit
    {| kind := k; proc := asked; forceKillTimeout := Some (now + graceful_timeout k);
       finalTimeout := None; exitSeen := false; extracting := false;
       resolved := false |}.

(** The callback of [forceKillTimeout], run at its time [at_time]. *)
Definition fire_forceKill (at_time : Z) (st : stopping) : stopping :=
  {| kind := kind st; proc := kill SIGTERM (proc st); forceKillTimeout := None;
     finalTimeout := Some (at_time + final_timeout); exitSeen := exitSeen st;
     extracting := extracting st; resolved := resolved st |}.

(** The callback of the inner timer:
    [if (!process.killed) process.kill('SIGKILL')]. *)
Definition fire_final (st : stopping) : stopping :=
  {| kind := kind st;
     proc := if killed (proc st) then proc st else kill SIGKILL (proc st);
     forceKillTimeout := forceKillTimeout st; finalTimeout := None;
     exitSeen := exitSeen st; extracting := extracting st;
     resolved := resolved st |}.

(** The event loop up to clock reading [t]: the timers that are due run,
    the first before the second. *)
Definition advance (t : Z) (st : stopping) : stopping :=
  let st1 :=
    match forceKillTimeout st with
    | Some d => if d <=? t then notice_exit (fire_forceKill d st) else st
    | None => st
    end in
  match finalTimeout st1 with
  | Some d => if d <=? t then notice_exit (fire_final st1) else st1
  | None => st1
  end.

(** What can happen to a stop that has begun: the clock reaches [t], the
    frame extraction of the native stop settles, the process emits
    ['error']. *)
Inductive happening : Type :=
  | Clock (t : Z)
  | ExtractionSettled
  | ProcessError.

Definition happen (st : stopping) (h : happening) : stopping :=
  match h with
  | Clock t => advance t st
  | ExtractionSettled => extraction_settled st
  | ProcessError => on_error st
  end.

Definition history (hs : list happening) (st : stopping) : stopping :=
  foldl happen st hs.

(** A process that ends on no request it can refuse. *)
Definition stubborn : behaviour := {| quits_on_q := false; ends_on := λ _, false |}.

(** A process that ignores the graceful request and ends on SIGTERM. *)
Definition heeds_sigterm : behaviour :=
  {| quits_on_q := false;
     ends_on := λ sig, match sig with SIGTERM => true | _ => false end |}.

End Supervisor.

(** ** Concrete sessions used as examples *)

Module Scenario.
Import Registry.

(** [basicData] of the mousedown listener; [screenInfo] is left out. *)
Definition click_basicData (x y : Z) (button : Z) : gmap string value :=
  {[ "x" := VInt x; "y" := VInt y;
     "button" := VStr (if button =? 1 then "left" else "right") ]}.

(** [basicData] of the keydown listener for a plain key. *)
Definition key_basicData (keycode : Z) (key : string) : gmap string value :=
  {[ "keycode" := VInt keycode; "key" := VStr key ]}.

Definition window_bounds : Bounds.t :=
  {| Bounds.x := 0; Bounds.y := 0; Bounds.width := 800; Bounds.height := 600;
     Bounds.windowName := "Editor"; Bounds.method := "applescript" |}.

(** [additionalData] of a click at [(x, y)] while [window_bounds] is cached. *)
Definition click_additionalData (x y : Z) : gmap string value :=
  Coordinates.additionalData
    (Coordinates.getApplicationRelativeCoordinates x y (Some window_bounds))
    (Some window_bounds).

(** One key press whose [completeEvent] is called twice; the first of the
    two suspended calls has resumed. *)
Definition double_completion : list call :=
  [CreateSlot "type" (key_basicData 30 "A") (Qc_of_Z 1) 1000;
   Complete 0 ∅; Complete 0 ∅; Resume 0 None].


(** One key press and its completion from call to end, in a session that
    holds one suspended completion already: the completion of the key is
    the second of the suspended ones. *)
Definition key_beside_a_suspended_completion : list call :=
  [CreateSlot "type" (key_basicData 30 "A") (Qc_of_Z 1) 1000;
   Complete 0 ∅; Resume 1 None].

(** Twenty wheel events of one step each, 100 ms apart. *)
Definition twenty_wheel_events : list (Z * ScrollAggregator.wheel) :=
  (λ i, (1000 + 100 * i,
         {| ScrollAggregator.rotation := 1; ScrollAggregator.x := 400;
            ScrollAggregator.y := 300 |})) <$> seqZ 0 20.

Definition one_step (t : Z) : Z * ScrollAggregator.wheel :=
  (t, {| ScrollAggregator.rotation := 1; ScrollAggregator.x := 400;
         ScrollAggregator.y := 300 |}).

(** Two bursts of one-step wheel events: three events, then, 400 ms after the
    first burst has ended, two more. *)
Definition first_burst : list (Z * ScrollAggregator.wheel) :=
  [one_step 0; one_step 100; one_step 200].

Definition second_burst : list (Z * ScrollAggregator.wheel) :=
  [one_step 600; one_step 700].

(** One key press, its [completeEvent] called and still suspended. *)
Definition one_suspended_key : list call :=
  [CreateSlot "type" (key_basicData 30 "A") (Qc_of_Z 1) 1000; Complete 0 ∅].


End Scenario.

(** ** What a session was asked to create *)

Module Sessions.
Import Registry.

(** The arguments of the calls of [createEventSlot] in [cs], in order. *)
Definition creations (cs : list call) : list (string * gmap string value * Qc * Z) :=
  omap (λ c, match c with
             | CreateSlot ty d tv ta => Some (ty, d, tv, ta)
             | _ => None
             end) cs.

(** [e] carries what the call number [id e] of [L] gave: its type, its two
    time stamps and all the keys of its [basicData]. *)
Definition created_as (L : list (string * gmap string value * Qc * Z)) (e : event) : Prop :=
  0 ≤ id e ∧
  ∃ d, L !! Z.to_nat (id e) = Some (type e, d, timestamp e, absoluteTimestamp e)
       ∧ dom d ⊆ dom (fields e).

(** What holds between two calls, for the creations [L] made so far. *)
Record tracked (L : list (string * gmap string value * Qc * Z)) (s : session) : Prop :=
  mkTracked {
    tr_counter : eventCounter (reg s) = Z.of_nat (length L);
    tr_slots : ∀ k sl, eventSlots (reg s) !! k = Some sl → created_as L (slot_event sl);
    tr_inflight : ∀ c, c ∈ inflight s → created_as L (slot_event (c_eventSlot c));
    tr_log : ∀ e, e ∈ events (reg s) → created_as L e;
    tr_kept : ∀ k, 0 ≤ k < eventCounter (reg s) →
                k ≤ maxCompletedEventId (reg s) ∨ is_Some (eventSlots (reg s) !! k)
  }.


(** A suspended completion of the session before, for the slot 0 of that
    session. *)
Definition stale_completion : completion :=
  {| c_eventId := 0;
     c_eventSlot :=
       {| slot_event :=
            {| id := 0; type := "click"; timestamp := Qc_of_Z 7; absoluteTimestamp := 7000;
               fields := {[ "x" := VInt 1 ]}; screenshots := None |};
          _pending := true |};
     c_completeData := ∅ |}.

(** A session that starts while the completions [stale], called in an
    earlier session, are still suspended: [startRecording] sets the counter
    to 0, clears the map and makes a fresh [sessionData], and it cancels no
    [completeEvent]. *)
Definition start_with (stale : list completion) : session :=
  {| reg := initial; inflight := stale |}.

(** None of the first [m] suspended completions resumes in [cs].  A
    completion that is called is put behind the ones already suspended, and
    one that resumes leaves the list: from [start_with stale] the first
    [length stale] are the stale ones for as long as none of them has
    resumed. *)
Definition leaves_suspended (m : nat) (cs : list call) : Prop :=
  Forall (λ c, match c with Resume n _ => (m ≤ n)%nat | _ => True end) cs.

(** The call [c] as a session makes it that does not hold the first [m]
    suspended completions. *)
Definition without_stale (m : nat) (c : call) : call :=
  match c with Resume n shots => Resume (n - m) shots | _ => c end.

End Sessions.

(** ** The history of the bounds cache *)

Module CacheHistory.
Import BoundsCache.

(** Bounds and window are cached together. *)
Definition consistent (c : cache) : Prop :=
  is_Some (cachedAppBounds c) ↔ is_Some (cachedAppWindow c).

(** The cache entry: bounds, window and time stamp. *)
Definition entry (c : cache) : option Bounds.t * option Window.t * Z :=
  (cachedAppBounds c, cachedAppWindow c, lastBoundsUpdate c).

Definition is_call (e : event) : bool :=
  match e with
  | GetBounds _ _ _ | Update _ _ => true
  | _ => false
  end.

(** The number of calls of [getCachedAppBounds] and [updateCachedAppBounds]
    among [es]. *)
Definition calls_in (es : list event) : nat :=
  length (filter (λ e, is_call e = true) es).

(** The suspended calls that wait for [getActiveApplicationWindow]. *)
Definition awaiting_window (s : system) : nat :=
  length (filter (λ t, t_window t = None) (tasks s)).

(** What holds between two events. *)
Record settled_inv (s : system) : Prop := mkSettledInv {
  si_flight : single_flight s;
  si_consistent : consistent (cache_of s);
  si_stale : ∀ t, t ∈ tasks s → fresh (t_now t) (cache_of s) = false;
  si_queries : (boundsQueries s + awaiting_window s ≤ windowQueries s)%nat
}.

End CacheHistory.

(** ** The history of the scroll accumulator *)

Module ScrollHistory.
Import ScrollAggregator.

Definition sum_rotation (evs : list sample) : Z :=
  foldr (λ s a, s_rotation s + a) 0 evs.

Definition final_sample (evs : list sample) : option sample :=
  foldl (λ _ s, Some s) None evs.

(** The part of [stopEventListeners] that deals with the scroll state. *)
Definition stopEventListeners (st : listeners) : listeners :=
  {| isRecording := isRecording st; overlayWindow := overlayWindow st;
     scrollAccumulator :=
       {| totalVertical := 0; totalHorizontal := 0;
          lastX := lastX (scrollAccumulator st); lastY := lastY (scrollAccumulator st);
          startTime := startTime (scrollAccumulator st); events := [] |};
     scrollDebounceTimer := None |}.

(** What can happen to the listener state: a wheel event with the two
    clock readings of its listener, the callback of the debounce timer up
    to its first [await], the end of [captureScrollSequence] after the
    completion of its slot, [stopEventListeners], and a change of
    [isRecording] or of the overlay window made elsewhere. *)
Inductive input : Type :=
  | Wheel (now_start now : Z) (e : wheel)
  | Timeout (now : Z) (screen_info : value)
  | SlotCompleted
  | Stop
  | Configure (recording : bool) (overlay : option rectangle).

Definition step (st : listeners) (i : input) : listeners :=
  match i with
  | Wheel now_start now e => on_wheel now_start now e st
  | Timeout now screen_info => (on_timeout now screen_info st).2
  | SlotCompleted => captureScrollSequence_end st
  | Stop => stopEventListeners st
  | Configure recording overlay =>
      {| isRecording := recording; overlayWindow := overlay;
         scrollAccumulator := scrollAccumulator st;
         scrollDebounceTimer := scrollDebounceTimer st |}
  end.

Definition history (inputs : list input) (st : listeners) : listeners :=
  foldl step st inputs.

(** The totals of a non-empty accumulator are those of the events it
    holds. *)
Definition coherent (acc : accumulator) : Prop :=
  match events acc with
  | [] => True
  | _ :: _ =>
      totalVertical acc = sum_rotation (events acc)
      ∧ ∃ s, final_sample (events acc) = Some s ∧ lastX acc = s_x s ∧ lastY acc = s_y s
  end.

(** The clock does not go back between the two readings of a wheel
    listener. *)
Definition steady (i : input) : Prop :=
  match i with
  | Wheel now_start now _ => now_start ≤ now
  | _ => True
  end.

(** The accumulator was opened no later than the time stamp of its first
    sample. *)
Definition opened_before (acc : accumulator) : Prop :=
  match events acc with
  | [] => True
  | first :: _ => startTime acc ≤ s_timestamp first
  end.

End ScrollHistory.

(** ** The keyboard: getKeyName, getKeyCombination and the key listeners *)

Module Keyboard.

Definition backslash : string := String (Ascii.ascii_of_nat 92) EmptyString.

(** The entries of the object literal [keycodeMap], in the order of the
    source. *)
Definition keycodeMap_entries : list (Z * string) :=
  [(16, "Q"); (17, "W"); (18, "E"); (19, "R"); (20, "T");
   (21, "Y"); (22, "U"); (23, "I"); (24, "O"); (25, "P");
   (30, "A"); (31, "S"); (32, "D"); (33, "F"); (34, "G");
   (35, "H"); (36, "J"); (37, "K"); (38, "L"); (44, "Z");
   (45, "X"); (46, "C"); (47, "V"); (48, "B"); (49, "N");
   (50, "M"); (11, "0"); (2, "1"); (3, "2"); (4, "3");
   (5, "4"); (6, "5"); (7, "6"); (8, "7"); (9, "8");
   (10, "9"); (59, "F1"); (60, "F2"); (61, "F3"); (62, "F4");
   (63, "F5"); (64, "F6"); (65, "F7"); (66, "F8"); (67, "F9");
   (68, "F10"); (87, "F11"); (88, "F12"); (42, "LEFT_SHIFT"); (54, "RIGHT_SHIFT");
   (29, "LEFT_CTRL"); (3613, "RIGHT_CTRL"); (56, "LEFT_ALT"); (3640, "RIGHT_ALT"); (3675, "LEFT_CMD");
   (3676, "RIGHT_CMD"); (1, "ESCAPE"); (28, "ENTER"); (57, "SPACE"); (14, "BACKSPACE");
   (15, "TAB"); (12, "-"); (13, "="); (26, "["); (27, "]");
   (43, backslash); (39, ";"); (40, "'"); (41, "`"); (51, ",");
   (52, "."); (53, "/"); (72, "UP"); (80, "DOWN"); (75, "LEFT");
   (77, "RIGHT"); (71, "HOME"); (79, "END"); (73, "PAGE_UP"); (81, "PAGE_DOWN");
   (82, "INSERT"); (83, "DELETE"); (82, "NUMPAD_0"); (79, "NUMPAD_1"); (80, "NUMPAD_2");
   (81, "NUMPAD_3"); (75, "NUMPAD_4"); (76, "NUMPAD_5"); (77, "NUMPAD_6"); (71, "NUMPAD_7");
   (72, "NUMPAD_8"); (73, "NUMPAD_9"); (83, "NUMPAD_DOT"); (78, "NUMPAD_PLUS"); (74, "NUMPAD_MINUS");
   (55, "NUMPAD_MULTIPLY"); (98, "NUMPAD_DIVIDE"); (28, "NUMPAD_ENTER"); (58, "CAPS_LOCK"); (69, "NUM_LOCK");
   (70, "SCROLL_LOCK")].

(** The object the literal evaluates to: a later entry for a key replaces
    an earlier one. *)
Definition object_of {K : Type} `{Countable K} (entries : list (K * string))
    : gmap K string :=
  foldl (λ m kv, <[kv.1 := kv.2]> m) ∅ entries.

Definition keycodeMap : gmap Z string := object_of keycodeMap_entries.

(** [keycodeMap[keycode] || `UNKNOWN_${keycode}`]; no name of the map is
    the empty string. *)
Definition getKeyName (keycode : Z) : string :=
  default ("UNKNOWN_" +:+ pretty keycode) (keycodeMap !! keycode).

(** [shiftPressed], [ctrlPressed], [altPressed], [cmdPressed] *)
Record keys : Type := mkKeys {
  shiftPressed : bool;
  ctrlPressed : bool;
  altPressed : bool;
  cmdPressed : bool
}.

Definition released : keys :=
  {| shiftPressed := false; ctrlPressed := false; altPressed := false;
     cmdPressed := false |}.

Definition combinationMap_entries : list (string * string) :=
  [("Ctrl+C", "Copy"); ("Cmd+C", "Copy"); ("Ctrl+V", "Paste");
   ("Cmd+V", "Paste"); ("Ctrl+X", "Cut"); ("Cmd+X", "Cut");
   ("Ctrl+Z", "Undo"); ("Cmd+Z", "Undo"); ("Ctrl+Y", "Redo");
   ("Cmd+Y", "Redo"); ("Ctrl+A", "Select All"); ("Cmd+A", "Select All");
   ("Ctrl+S", "Save"); ("Cmd+S", "Save"); ("Ctrl+N", "New");
   ("Cmd+N", "New"); ("Ctrl+O", "Open"); ("Cmd+O", "Open");
   ("Ctrl+F", "Find"); ("Cmd+F", "Find"); ("Ctrl+T", "New Tab");
   ("Cmd+T", "New Tab"); ("Ctrl+W", "Close Tab"); ("Cmd+W", "Close Tab");
   ("Ctrl+ENTER", "Ctrl+Enter"); ("Cmd+ENTER", "Cmd+Enter"); ("Alt+TAB", "App Switch");
   ("Cmd+TAB", "App Switch")].

Definition combinationMap : gmap string string := object_of combinationMap_entries.

(** [modifiers.join(sep)] *)
Fixpoint join (sep : string) (l : list string) : string :=
  match l with
  | [] => EmptyString
  | s :: rest =>
      match rest with
      | [] => s
      | _ :: _ => s +:+ sep +:+ join sep rest
      end
  end.

Record combination_t : Type := mkCombination {
  combination : string;
  name : string;
  modifiers : list string;
  key : string
}.

(** [getKeyCombination(keycode, keyName)]; [darwin] is
    [process.platform === 'darwin'], [None] is [null].  Every key looked up
    in [combinationMap] holds a [+], so none is a property an object
    inherits. *)
Definition getKeyCombination (darwin : bool) (st : keys) (keycode : Z)
    (keyName : string) : option combination_t :=
  if bool_decide (keycode ∈ [42; 54; 29; 3613; 56; 3640]) then None
  else
    let modifiers :=
      (if ctrlPressed st || cmdPressed st
       then [if darwin then "Cmd" else "Ctrl"] else [])
      ++ (if altPressed st then ["Alt"] else [])
      ++ (if shiftPressed st then ["Shift"] else []) in
    match modifiers with
    | [] => None
    | _ :: _ =>
        let combination := join "+" modifiers +:+ "+" +:+ keyName in
        Some {| combination := combination;
                name := default combination (combinationMap !! combination);
                modifiers := modifiers; key := keyName |}
    end.

(** [s.includes(sub)] *)
Fixpoint includes (sub s : string) : bool :=
  String.prefix sub s
  || match s with
     | EmptyString => false
     | String _ rest => includes sub rest
     end.

Definition importantKeys : list string :=
  ["Enter"; "Tab"; "Backspace"; "Delete"; "Space"; "Escape"; "Shift"; "Ctrl"; "Alt";
   "Cmd"].

(** The modifier keys are tracked first, whether recording or not. *)
Definition track_down (keycode : Z) (st : keys) : keys :=
  {| shiftPressed := bool_decide (keycode = 42 ∨ keycode = 54) || shiftPressed st;
     ctrlPressed := bool_decide (keycode = 29 ∨ keycode = 3613) || ctrlPressed st;
     altPressed := bool_decide (keycode = 56 ∨ keycode = 3640) || altPressed st;
     cmdPressed := bool_decide (keycode = 3675 ∨ keycode = 3676) || cmdPressed st |}.

(** The [keyup] listener. *)
Definition keyup (keycode : Z) (st : keys) : keys :=
  {| shiftPressed := negb (bool_decide (keycode = 42 ∨ keycode = 54)) && shiftPressed st;
     ctrlPressed := negb (bool_decide (keycode = 29 ∨ keycode = 3613)) && ctrlPressed st;
     altPressed := negb (bool_decide (keycode = 56 ∨ keycode = 3640)) && altPressed st;
     cmdPressed := negb (bool_decide (keycode = 3675 ∨ keycode = 3676)) && cmdPressed st |}.

(** What the [keydown] listener does before its first [await]: it calls
    [stopRecording], or [startRecording], or [createEventSlot] with a type
    and a [basicData], or nothing, or it throws. *)
Inductive outcome : Type :=
  | StopRecording
  | StartRecording
  | NoSlot
  | Throws
  | Slot (eventType : string) (basicData : gmap string value).

Definition modifier_keys : list Z := [42; 54; 29; 3613; 56; 3640; 3675; 3676].

(** What [UiohookKey[e.keycode]] evaluates to.  The object [UiohookKey]
    belongs to the input hook and is an argument; its properties are key
    codes under the names of the keys, so a look-up by a key code finds
    nothing, or, where the key code is itself the name of a key (a digit),
    the key code of that key.  [Named] is what a table from key codes to
    names would give. *)
Inductive hook_entry : Type :=
  | Missing
  | Code (code : Z)
  | Named (name : string).

(** The value of [key], a number or a string. *)
Inductive key_value : Type :=
  | KeyNumber (n : Z)
  | KeyName (s : string).

(** [UiohookKey[e.keycode] || `Key${e.keycode}`]: the number 0 and the
    empty string are falsy. *)
Definition key_of (UiohookKey : Z → hook_entry) (keycode : Z) : key_value :=
  match UiohookKey keycode with
  | Missing => KeyName ("Key" +:+ pretty keycode)
  | Code c => if decide (c = 0) then KeyName ("Key" +:+ pretty keycode) else KeyNumber c
  | Named k => if decide (k = EmptyString) then KeyName ("Key" +:+ pretty keycode)
               else KeyName k
  end.

(** [importantKeys.some(k => key.includes(k))]; a number has no
    [includes], and the call throws a TypeError ([None]). *)
Definition isImportant (key : key_value) : option bool :=
  match key with
  | KeyNumber _ => None
  | KeyName s => Some (existsb (λ k, includes k s) importantKeys)
  end.

Definition shouldCapture (keycode : Z) (isImportant : bool) : bool :=
  let isLetter :=
    bool_decide (keycode ∈ [16; 17; 18; 19; 20; 21; 22; 23; 24; 25;
                            30; 31; 32; 33; 34; 35; 36; 37; 38;
                            44; 45; 46; 47; 48; 49; 50]) in
  let isNumber := bool_decide (keycode ∈ [2; 3; 4; 5; 6; 7; 8; 9; 10; 11]) in
  let isSpecialChar :=
    bool_decide (keycode ∈ [57; 12; 13; 26; 27; 43; 39; 40; 41; 51; 52; 53]) in
  let isImportantKey := bool_decide (keycode ∈ [28; 15; 14; 1; 83]) in
  let isArrowKey := bool_decide (keycode ∈ [72; 80; 75; 77]) in
  let isFunctionKey :=
    bool_decide (keycode ∈ [59; 60; 61; 62; 63; 64; 65; 66; 67; 68; 87; 88]) in
  let isNavigationKey := bool_decide (keycode ∈ [71; 79; 73; 81; 82]) in
  let isLockKey := bool_decide (keycode ∈ [58; 69; 70]) in
  isLetter || isNumber || isSpecialChar || isImportantKey || isArrowKey
  || isFunctionKey || isNavigationKey || isLockKey || isImportant.

Definition keydown (darwin : bool) (UiohookKey : Z → hook_entry)
    (isRecording : bool) (keycode : Z) (st : keys) : keys * outcome :=
  let keyName := getKeyName keycode in
  let st := track_down keycode st in
  (st,
   if bool_decide (keycode = 67) && isRecording then StopRecording
   else if bool_decide (keycode = 1) && isRecording then StopRecording
   else if ctrlPressed st && shiftPressed st && bool_decide (keycode = 19)
           && negb isRecording then StartRecording
   else if negb isRecording then NoSlot
   else
     match isImportant (key_of UiohookKey keycode) with
     | None => Throws
     | Some isImportant =>
         let isShortcutKey :=
           bool_decide (keycode = 67) || bool_decide (keycode = 1)
           || (ctrlPressed st && shiftPressed st && bool_decide (keycode = 19)) in
         let isModifierOnly := bool_decide (keycode ∈ modifier_keys) in
         let shouldCaptureFallback := negb isModifierOnly && negb isShortcutKey in
         if (shouldCapture keycode isImportant || shouldCaptureFallback)
            && negb isShortcutKey
         then
           match getKeyCombination darwin st keycode keyName with
           | Some c =>
               Slot "key_combination"
                 {[ "keycode" := VInt keycode; "key" := VStr keyName;
                    "combination" := VStr (combination c);
                    "combinationName" := VStr (name c);
                    "modifiers" := VArr (VStr <$> modifiers c) ]}
           | None =>
               Slot "type" {[ "keycode" := VInt keycode; "key" := VStr keyName ]}
           end
         else NoSlot
     end).

(** The key codes with a name in [keycodeMap], each with its name. *)
Definition named : list (Z * string) := Eval vm_compute in map_to_list keycodeMap.

(** The names an earlier entry of [keycodeMap] gives to a key that a later
    entry names again. *)
Definition shadowed_names : list string :=
  ["ENTER"; "UP"; "DOWN"; "LEFT"; "RIGHT"; "HOME"; "END"; "PAGE_UP"; "PAGE_DOWN";
   "INSERT"; "DELETE"].

End Keyboard.

(** ** Frames of the recorded video: extractPreActionFrames *)

Module Frames.

(** An event of the session file as far as the extraction reads it:
    [e_timestamp] is [None] when [typeof e.timestamp] is not number,
    [e_id] is [None] when [e.id] is null or undefined. *)
Record session_event : Type := mkSessionEvent {
  e_id : option Z;
  e_timestamp : option Qc
}.

(** [.filter(e => typeof e.timestamp === 'number')] *)
Definition timed (events : list session_event) : list (option Z * Qc) :=
  omap (λ e, (λ t, (e_id e, t)) <$> e_timestamp e) events.

(** [.sort((a, b) => a.timestamp - b.timestamp)].  The sort of an array is
    stable: each element is put before the first element after it that is
    not earlier. *)
Fixpoint insert_by_time (e : option Z * Qc) (l : list (option Z * Qc))
    : list (option Z * Qc) :=
  match l with
  | [] => [e]
  | y :: rest =>
      if bool_decide (e.2 ≤ y.2)%Qc then e :: l else y :: insert_by_time e rest
  end.

Definition sort_by_time (l : list (option Z * Qc)) : list (option Z * Qc) :=
  foldr insert_by_time [] l.

Definition Math_min (a b : Qc) : Qc := if bool_decide (a ≤ b)%Qc then a else b.
Definition Math_max (a b : Qc) : Qc := if bool_decide (a ≤ b)%Qc then b else a.

Definition two : Qc := Qc_of_Z 2.
Definition eps : Qc := Q2Qc (1 # 1000).

(** The [id] of an element of [results]: none for the initial frame, the
    event's for an event frame, ['final'] for the last. *)
Inductive frame_id : Type :=
  | NoId
  | EventId (id : Z)
  | FinalId.

(** An element of [results]; [f_file] is the file name, joined to [outDir]
    in the source. *)
Record frame : Type := mkFrame {
  f_id : frame_id;
  f_t : Qc;
  f_file : string
}.

(** [Math.min(Math.max(0, t), Math.max(0, duration - eps))] *)
Definition clamp (duration t : Qc) : Qc :=
  Math_min (Math_max 0%Qc t) (Math_max 0%Qc (duration - eps)%Qc).

(** The body of the [for] loop from index [i] on; [events] are the elements
    from [i], so that [events[i + 1]] is the second of them. *)
Fixpoint event_frames (duration : Qc) (i : nat) (events : list (option Z * Qc))
    : list frame :=
  match events with
  | [] => []
  | cur :: rest =>
      let nextT := match rest with next :: _ => next.2 | [] => duration end in
      let t := ((cur.2 + nextT) / two)%Qc in
      let t := clamp duration t in
      let id := default (Z.of_nat i) cur.1 in
      {| f_id := EventId id; f_t := t; f_file := "event_" +:+ pretty id +:+ ".png" |}
      :: event_frames duration (S i) rest
  end.

(** The frames [extractPreActionFrames] asks [grabFrameAt] for, in order;
    [duration] is the answer of [getVideoDurationSec]. *)
Definition requests (includeFinal : bool) (duration : Qc)
    (session_events : list session_event) : list frame :=
  let events := sort_by_time (timed session_events) in
  let nextT := match events !! 1%nat with Some e => e.2 | None => duration end in
  [{| f_id := NoId; f_t := ((0 + nextT) / two)%Qc; f_file := "initial_screen.png" |}]
  ++ event_frames duration 0 events
  ++ (if includeFinal && bool_decide (0 < duration)%Qc
         && bool_decide (0 < length events)%nat
      then
        match events !! pred (length events) with
        | Some e =>
            [{| f_id := FinalId;
                f_t := Math_min ((e.2 + duration) / two)%Qc (duration - eps)%Qc;
                f_file := "final_mid.png" |}]
        | None => []
        end
      else []).

(** [extractPreActionFrames]: [grabFrameAt file t] tells whether the grab
    of that frame succeeds; the first that fails rejects the promise
    ([None]), otherwise the promise resolves to [results]. *)
Definition extractPreActionFrames (grabFrameAt : string → Qc → bool)
    (includeFinal : bool) (duration : Qc) (session_events : list session_event)
    : option (list frame) :=
  let results := requests includeFinal duration session_events in
  if forallb (λ f, grabFrameAt (f_file f) (f_t f)) results then Some results else None.

Definition is_event_frame (f : frame) : bool :=
  match f_id f with EventId _ => true | _ => false end.

(** A session of two events, at 1 s and 4 s, with a video of 10 s. *)
Definition two_events : list session_event :=
  [{| e_id := Some 0; e_timestamp := Some (Qc_of_Z 1) |};
   {| e_id := Some 1; e_timestamp := Some (Qc_of_Z 4) |}].

Definition by_time (a b : option Z * Qc) : Prop := (a.2 ≤ b.2)%Qc.

Definition not_later (f g : frame) : Prop := (f_t f ≤ f_t g)%Qc.

End Frames.

(** ** getApplicationWindowBoundsRaw *)

Module RawBounds.

(** What the callback of [exec] is given: whether there is an error, and
    the standard output of [osascript]. *)
Record exec_result : Type := mkExec {
  error : bool;
  stdout : string
}.

Definition comma : Ascii.ascii := Ascii.ascii_of_nat 44.

(** [output.split(',')] *)
Fixpoint split_comma (s : string) : list string :=
  match s with
  | EmptyString => [EmptyString]
  | String c rest =>
      if decide (c = comma) then EmptyString :: split_comma rest
      else match split_comma rest with
           | piece :: pieces => String c piece :: pieces
           | [] => [String c EmptyString]
           end
  end.

Section parse.

(** The numbers of JavaScript, [Number(part)] and
    [String.prototype.trim]; the function tests none of the numbers. *)
Variable number : Type.
Variable Number : string → number.
Variable trim : string → string.

(** The object [getApplicationWindowBoundsRaw] resolves to. *)
Record t : Type := mk {
  x : number;
  y : number;
  width : number;
  height : number;
  windowName : string;
  method : string
}.

(** [stdout ? stdout.trim() : ''] *)
Definition output (r : exec_result) : string :=
  if decide (stdout r = EmptyString) then EmptyString else trim (stdout r).

(** [error || output.startsWith('error') || output === 'no_browser' || !output] *)
Definition failed (r : exec_result) : bool :=
  error r
  || String.prefix "error" (output r)
  || bool_decide (output r = "no_browser")
  || bool_decide (output r = EmptyString).

(** [output.split(',').map(part => part.trim()).filter(part => part !== '')] *)
Definition pieces (r : exec_result) : list string :=
  filter (λ part, part ≠ EmptyString) (trim <$> split_comma (output r)).

(** [getApplicationWindowBoundsRaw(appWindow)] with the outcome [r] of the
    run of [osascript]; [darwin] is [process.platform === 'darwin'], [None]
    is [null]. *)
Definition getApplicationWindowBoundsRaw (darwin : bool) (appWindow : option Window.t)
    (r : exec_result) : option t :=
  match appWindow with
  | None => None
  | Some appWindow =>
      if darwin then
        if failed r then None
        else
          match Number <$> pieces r with
          | [x; y; width; height] =>
              Some {| x := x; y := y; width := width; height := height;
                      windowName := Window.name appWindow;
                      method := "applescript" |}
          | _ => None
          end
      else None
  end.

End parse.

End RawBounds.

(** ** The choice of the application window: getActiveApplicationWindow *)

Module Windows.

(** A source of [desktopCapturer.getSources]: its id, its name and the
    size of its thumbnail (every source has a thumbnail). *)
Record source : Type := mkSource {
  s_id : string;
  s_name : string;
  s_width : Z;
  s_height : Z
}.

Section selection.

(** [String.prototype.toLowerCase] *)
Variable toLowerCase : string → string.

Definition isSystemWindow (s : source) : bool :=
  let name := toLowerCase (s_name s) in
  Keyboard.includes "desktop" name
  || Keyboard.includes "wallpaper" name
  || Keyboard.includes "menubar" name
  || Keyboard.includes "dock" name
  || bool_decide (name = EmptyString)
  || (String.length name <? 2)%nat.

(** The first filter: no system window, and no thumbnail under 300 x 200. *)
Definition isAppWindow (s : source) : bool :=
  if isSystemWindow s then false
  else if (s_width s <? 300) || (s_height s <? 200) then false
  else true.

Definition area (s : source) : Z := s_width s * s_height s.

(** [appWindows.sort((a, b) => areaB - areaA)]: largest first; the sort is
    stable, so each element is put before the first element after it that
    is not larger. *)
Fixpoint insert_by_area (s : source) (l : list source) : list source :=
  match l with
  | [] => [s]
  | y :: rest =>
      if bool_decide (area y ≤ area s) then s :: l else y :: insert_by_area s rest
  end.

Definition sort_by_area (l : list source) : list source := foldr insert_by_area [] l.

(** [getActiveApplicationWindow] from the answer of [getSources] on;
    [None] is [null]. *)
Definition getActiveApplicationWindow (sources : list source) : option source :=
  let appWindows := filter (λ s, isAppWindow s = true) sources in
  match sort_by_area appWindows with
  | w :: _ => Some w
  | [] =>
      let fallbackWindows := filter (λ s, isSystemWindow s = false) sources in
      head fallbackWindows
  end.

Definition not_smaller (a b : source) : Prop := area b ≤ area a.

End selection.

(** Three windows as the sources give them, thumbnails of 150 x 150 at
    most. *)
Definition three_sources : list source :=
  [{| s_id := "window:1:0"; s_name := "Dock"; s_width := 150; s_height := 8 |};
   {| s_id := "window:2:0"; s_name := "Terminal"; s_width := 150; s_height := 90 |};
   {| s_id := "window:3:0"; s_name := "Editor"; s_width := 150; s_height := 100 |}].

(** Lower case of the names of [three_sources]. *)
Definition lower (s : string) : string :=
  if decide (s = "Dock") then "dock"
  else if decide (s = "Terminal") then "terminal"
  else if decide (s = "Editor") then "editor" else s.

End Windows.

(** ** The history of a stop *)

Module SupervisorHistory.
Import Supervisor.



End SupervisorHistory.

(** * Properties *)

(** ** The registry *)

Module RegistryFacts.
Import Registry.

Ltac loop_round_at st n ev Hlk Hp :=
  simpl;
  destruct (eventSlots st !! n) as [ev|] eqn:Hlk;
  [destruct (_pending ev) eqn:Hp|].

Lemma size_of_lookup (m : gmap Z slot) k sl :
  m !! k = Some sl → (0 < size m)%nat.
Proof.
  intros Hlk. destruct (size m) eqn:Hsz; [|lia].
  apply map_size_empty_iff in Hsz. by rewrite Hsz in Hlk.
Qed.

Lemma seqZ_split a b :
  -1 ≤ a ≤ b → seqZ 0 (b + 1) = seqZ 0 (a + 1) ++ seqZ (a + 1) (b - a).
Proof.
  intros Hab. change (a + 1) with (0 + (a + 1)) at 2.
  rewrite <- seqZ_app by lia. f_equal. lia.
Qed.

Lemma finalize_loop_counter fuel : ∀ n st,
  eventCounter (finalize_loop fuel n st) = eventCounter st.
Proof.
  induction fuel as [|fuel IH]; intros n st; [done|].
  loop_round_at st n ev Hlk Hp; try done. by rewrite IH.
Qed.

Lemma finalize_loop_mark fuel : ∀ n st,
  maxCompletedEventId st = n - 1 →
  n - 1 ≤ maxCompletedEventId (finalize_loop fuel n st).
Proof.
  induction fuel as [|fuel IH]; intros n st Hn; [simpl; lia|].
  loop_round_at st n ev Hlk Hp; try lia.
  etrans; [|apply IH]; simpl; lia.
Qed.

(** The ids between the cursor and the new mark were completed slots. *)
Lemma finalize_loop_flushed fuel : ∀ n st k,
  maxCompletedEventId st = n - 1 →
  n ≤ k ≤ maxCompletedEventId (finalize_loop fuel n st) →
  ∃ sl, eventSlots st !! k = Some sl ∧ _pending sl = false.
Proof.
  induction fuel as [|fuel IH]; intros n st k Hn; [simpl; lia|].
  loop_round_at st n ev Hlk Hp; try lia.
  intros Hk. destruct (decide (k = n)) as [->|Hne]; [eauto|].
  assert (n + 1 ≤ k) as Hk1 by lia.
  destruct (λ H, IH (n + 1) _ k H (conj Hk1 (proj2 Hk))) as (sl & Hsl & Hpsl);
    [simpl; lia|].
  simpl in Hsl. apply lookup_delete_Some in Hsl as [_ Hsl]. eauto.
Qed.

(** The loop removes exactly those ids from the map. *)
Lemma finalize_loop_slots fuel : ∀ n st k,
  maxCompletedEventId st = n - 1 →
  eventSlots (finalize_loop fuel n st) !! k =
    if bool_decide (n ≤ k ≤ maxCompletedEventId (finalize_loop fuel n st))
    then None else eventSlots st !! k.
Proof.
  induction fuel as [|fuel IH]; intros n st k Hn.
  { simpl. rewrite bool_decide_eq_false_2; [done|lia]. }
  loop_round_at st n ev Hlk Hp; try (rewrite bool_decide_eq_false_2; [done|lia]).
  rewrite IH by (simpl; lia).
  pose proof (finalize_loop_mark fuel (n + 1)
    {| eventCounter := eventCounter st;
       eventSlots := delete n (eventSlots st);
       maxCompletedEventId := n;
       events := events st ++ [slot_event ev] |}) as Hm.
  simpl in Hm. specialize (Hm ltac:(lia)).
  repeat case_bool_decide; try done; try lia; simpl.
  - assert (k = n) as -> by lia. apply lookup_delete_eq.
  - rewrite lookup_delete_ne; [done|lia].
Qed.

(** The log only grows, by the ids from the cursor to the new mark. *)
Lemma finalize_loop_log_ids fuel : ∀ n st,
  maxCompletedEventId st = n - 1 →
  (∀ k sl, eventSlots st !! k = Some sl → id (slot_event sl) = k) →
  log_ids (finalize_loop fuel n st) =
    log_ids st ++ seqZ n (maxCompletedEventId (finalize_loop fuel n st) + 1 - n).
Proof.
  induction fuel as [|fuel IH]; intros n st Hn Hkey.
  { simpl. rewrite seqZ_nil by lia. by rewrite app_nil_r. }
  loop_round_at st n ev Hlk Hp; try (rewrite seqZ_nil by lia; by rewrite app_nil_r).
  set (st1 := {| eventCounter := eventCounter st;
                 eventSlots := delete n (eventSlots st);
                 maxCompletedEventId := n;
                 events := events st ++ [slot_event ev] |}).
  pose proof (finalize_loop_mark fuel (n + 1) st1 ltac:(simpl; lia)) as Hm.
  rewrite IH; [|simpl; lia|].
  - unfold log_ids at 1. simpl. rewrite fmap_app. simpl.
    rewrite (Hkey _ _ Hlk). rewrite <- app_assoc. f_equal. simpl.
    rewrite (seqZ_cons n) by lia. do 2 f_equal; lia.
  - simpl. intros k sl [_ Hsl]%lookup_delete_Some. eauto.
Qed.

Lemma finalize_loop_prefix fuel : ∀ n st,
  events st `prefix_of` events (finalize_loop fuel n st).
Proof.
  induction fuel as [|fuel IH]; intros n st; [done|].
  loop_round_at st n ev Hlk Hp; try done.
  etrans; [|apply IH]. simpl. by apply prefix_app_r.
Qed.

(** Every logged event is an event that was already logged or the content
    of a completed slot of the map. *)
Lemma finalize_loop_content fuel : ∀ n st e,
  e ∈ events (finalize_loop fuel n st) →
  e ∈ events st ∨
  ∃ k sl, eventSlots st !! k = Some sl ∧ _pending sl = false ∧ slot_event sl = e.
Proof.
  induction fuel as [|fuel IH]; intros n st e; [by left|].
  loop_round_at st n ev Hlk Hp; try by left.
  intros [He|(k & sl & Hsl & Hpsl & <-)]%IH.
  - simpl in He. apply elem_of_app in He as [He|He]; [by left|].
    apply list_elem_of_singleton in He as ->. right. eauto.
  - simpl in Hsl. apply lookup_delete_Some in Hsl as [_ Hsl]. right. eauto.
Qed.

(** With fuel above the size of the map the loop ends at its own test: the
    slot above the mark is missing or pending. *)
Lemma finalize_loop_stops fuel : ∀ n st sl,
  (size (eventSlots st) < fuel)%nat →
  maxCompletedEventId st = n - 1 →
  eventSlots (finalize_loop fuel n st)
    !! (maxCompletedEventId (finalize_loop fuel n st) + 1) = Some sl →
  _pending sl = true.
Proof.
  induction fuel as [|fuel IH]; intros n st sl Hsz Hn; [lia|].
  loop_round_at st n ev Hlk Hp.
  - rewrite Hn. replace (n - 1 + 1) with n by lia. congruence.
  - apply IH; [|simpl; lia]. simpl.
    rewrite map_size_delete, Hlk.
    pose proof (size_of_lookup _ _ _ Hlk). lia.
  - rewrite Hn. replace (n - 1 + 1) with n by lia. congruence.
Qed.

(** More fuel changes nothing. *)
Lemma finalize_loop_fuel fuel : ∀ n st extra,
  (size (eventSlots st) < fuel)%nat →
  finalize_loop (fuel + extra) n st = finalize_loop fuel n st.
Proof.
  induction fuel as [|fuel IH]; intros n st extra Hsz; [lia|].
  loop_round_at st n ev Hlk Hp; try done.
  apply IH. simpl. rewrite map_size_delete, Hlk.
  pose proof (size_of_lookup _ _ _ Hlk). lia.
Qed.

(** *** What a resumed completion does to the registry *)

Lemma resume_counter c shots st :
  eventCounter (completeEvent_resume c shots st) = eventCounter st.
Proof. unfold completeEvent_resume, finalizeCompletedEvents. by rewrite finalize_loop_counter. Qed.

Lemma resume_mark c shots st :
  maxCompletedEventId st ≤ maxCompletedEventId (completeEvent_resume c shots st).
Proof.
  unfold completeEvent_resume, finalizeCompletedEvents.
  etrans; [|apply finalize_loop_mark]; simpl; lia.
Qed.

Lemma resume_flushed c shots st k :
  maxCompletedEventId st < k ≤ maxCompletedEventId (completeEvent_resume c shots st) →
  ∃ sl, written c shots st !! k = Some sl ∧ _pending sl = false.
Proof.
  unfold completeEvent_resume, finalizeCompletedEvents. intros Hk.
  eapply (finalize_loop_flushed _ _
            (mkRegistry (eventCounter st) (written c shots st)
                        (maxCompletedEventId st) (events st)) k);
    [|split; [|apply Hk]]; simpl; lia.
Qed.

Lemma resume_slots c shots st k :
  eventSlots (completeEvent_resume c shots st) !! k =
    if bool_decide (maxCompletedEventId st < k ≤
                    maxCompletedEventId (completeEvent_resume c shots st))
    then None else written c shots st !! k.
Proof.
  unfold completeEvent_resume, finalizeCompletedEvents.
  rewrite finalize_loop_slots by (simpl; lia). simpl.
  repeat case_bool_decide; try done; lia.
Qed.

Lemma resume_log_ids c shots st :
  (∀ k sl, written c shots st !! k = Some sl → id (slot_event sl) = k) →
  log_ids (completeEvent_resume c shots st) =
    log_ids st ++ seqZ (maxCompletedEventId st + 1)
      (maxCompletedEventId (completeEvent_resume c shots st) - maxCompletedEventId st).
Proof.
  intros Hkey. unfold completeEvent_resume, finalizeCompletedEvents.
  rewrite finalize_loop_log_ids; [|simpl; lia|done].
  unfold log_ids at 1. simpl. do 2 f_equal. lia.
Qed.

Lemma resume_prefix c shots st :
  events st `prefix_of` events (completeEvent_resume c shots st).
Proof. apply (finalize_loop_prefix _ _ (mkRegistry _ _ _ _)). Qed.

Lemma resume_stops c shots st sl :
  eventSlots (completeEvent_resume c shots st)
    !! (maxCompletedEventId (completeEvent_resume c shots st) + 1) = Some sl →
  _pending sl = true.
Proof.
  unfold completeEvent_resume, finalizeCompletedEvents.
  apply finalize_loop_stops; simpl; lia.
Qed.

(** *** The invariant *)

Lemma inv_start : inv ∅ start.
Proof.
  split; simpl; try done; try lia.
  { intros k Hk. by apply elem_of_nil in Hk. }
  intros k. split; [by intros ?%elem_of_empty|].
  intros [?|(sl & Hsl & _)]; [lia|]. by rewrite lookup_empty in Hsl.
Qed.

Lemma inv_create C s ty d tv ta :
  inv C s → inv C (step s (CreateSlot ty d tv ta)).
Proof.
  intros [Hc Hkey Hlog Hnext Hfl Hpend Hdone]. split; simpl.
  - lia.
  - intros k sl [[<- <-]|[Hne Hsl]]%lookup_insert_Some; simpl; [lia|].
    destruct (Hkey _ _ Hsl). lia.
  - done.
  - intros sl [[_ <-]|[_ Hsl]]%lookup_insert_Some; [done|eauto].
  - intros k Hk. destruct (Hfl _ Hk). lia.
  - intros k sl [[<- <-]|[_ Hsl]]%lookup_insert_Some; [lia|eauto].
  - intros k. rewrite Hdone. split.
    + intros [?|(sl & Hsl & Hp)]; [by left|right].
      exists sl. split; [|done]. rewrite lookup_insert_ne; [done|].
      destruct (Hkey _ _ Hsl). lia.
    + intros [?|(sl & [[_ <-]|[_ Hsl]]%lookup_insert_Some & Hp)]; [by left|done|eauto].
Qed.

Lemma inv_complete C s k d :
  inv C s → inv C (step s (Complete k d)).
Proof.
  intros Hinv. simpl. unfold completeEvent_begin.
  destruct (eventSlots (reg s) !! k) as [sl|] eqn:Hsl; [|done].
  destruct Hinv as [Hc Hkey Hlog Hnext Hfl Hpend Hdone]. split; simpl; try done.
  intros c [Hin|Hin]%elem_of_app; [eauto|].
  apply list_elem_of_singleton in Hin as ->. simpl. eauto.
Qed.

Lemma inv_resume C s n shots c :
  inflight s !! n = Some c →
  inv C s → inv (C ∪ {[c_eventId c]}) (step s (Resume n shots)).
Proof.
  intros Hn [Hc Hkey Hlog Hnext Hfl Hpend Hdone]. simpl. rewrite Hn.
  destruct (Hfl c) as [Hcid Hcrange]; [by eapply list_elem_of_lookup_2|].
  assert (Hkey1 : ∀ k sl, written c shots (reg s) !! k = Some sl →
                    id (slot_event sl) = k ∧ 0 ≤ k < eventCounter (reg s)).
  { intros k sl. unfold written.
    intros [[<- <-]|[_ Hsl]]%lookup_insert_Some; [done|eauto]. }
  pose proof (resume_mark c shots (reg s)) as Hmark.
  pose proof (resume_flushed c shots (reg s)) as Hflushed.
  pose proof (resume_slots c shots (reg s)) as Hslots.
  split; simpl.
  - rewrite resume_counter. split; [lia|].
    destruct (decide (maxCompletedEventId (completeEvent_resume c shots (reg s))
                      = maxCompletedEventId (reg s))) as [->|Hne]; [lia|].
    destruct (Hflushed (maxCompletedEventId (completeEvent_resume c shots (reg s))))
      as (sl & Hsl & _); [lia|].
    destruct (Hkey1 _ _ Hsl). lia.
  - intros k sl. rewrite Hslots, resume_counter.
    case_bool_decide; [done|eauto].
  - rewrite resume_log_ids by (intros k sl Hsl; by destruct (Hkey1 _ _ Hsl)).
    rewrite Hlog. symmetry. apply seqZ_split. lia.
  - apply resume_stops.
  - intros k Hk. rewrite resume_counter. apply Hfl.
    by eapply list_elem_of_delete_inv.
  - intros k sl. rewrite Hslots. case_bool_decide as Hr; [done|].
    unfold written. intros [[<- <-]|[_ Hsl]]%lookup_insert_Some; [done|].
    intros Hp. specialize (Hpend _ _ Hsl Hp). lia.
  - intros k. rewrite elem_of_union, elem_of_singleton, Hdone. split.
    + intros Hk.
      assert (∃ sl, written c shots (reg s) !! k = Some sl ∧ _pending sl = false
              ∨ 0 ≤ k ≤ maxCompletedEventId (reg s)) as (sl & Hw).
      { destruct Hk as [[?|(sl & Hsl & Hp)]| ->].
        - exists (completed_slot c shots). by right.
        - destruct (decide (k = c_eventId c)) as [->|Hne].
          + exists (completed_slot c shots). left.
            unfold written. by rewrite lookup_insert_eq.
          + exists sl. left. unfold written. by rewrite lookup_insert_ne.
        - exists (completed_slot c shots). left.
          unfold written. by rewrite lookup_insert_eq. }
      destruct Hw as [[Hsl Hp]|?]; [|left; lia].
      destruct (decide (k ≤ maxCompletedEventId (completeEvent_resume c shots (reg s))))
        as [Hle|Hgt].
      * left. destruct (Hkey1 _ _ Hsl). lia.
      * right. exists sl. rewrite Hslots.
        case_bool_decide; [lia|done].
    + intros [Hk|(sl & Hsl & Hp)].
      * destruct (decide (k ≤ maxCompletedEventId (reg s))) as [?|Hgt];
          [left; left; lia|].
        destruct (Hflushed k) as (sl & Hsl & Hp); [lia|].
        unfold written in Hsl.
        apply lookup_insert_Some in Hsl as [[<- <-]|[_ Hsl]];
          [by right|left; right; eauto].
      * rewrite Hslots in Hsl. case_bool_decide; [done|].
        unfold written in Hsl.
        apply lookup_insert_Some in Hsl as [[<- <-]|[_ Hsl]];
          [by right|left; right; eauto].
Qed.

Lemma inv_run cs : ∀ C s,
  inv C s → inv (C ∪ list_to_set (completed cs s)) (run cs s).
Proof.
  induction cs as [|c cs IH]; intros C s Hinv.
  { simpl. by rewrite (right_id_L ∅ (∪)). }
  change (run (c :: cs) s) with (run cs (step s c)).
  destruct c as [ty d tv ta|k d|n shots].
  - change (completed (CreateSlot ty d tv ta :: cs) s)
      with (completed cs (step s (CreateSlot ty d tv ta))).
    by apply IH, inv_create.
  - change (completed (Complete k d :: cs) s)
      with (completed cs (step s (Complete k d))).
    by apply IH, inv_complete.
  - cbn [completed]. destruct (inflight s !! n) as [c|] eqn:Hn.
    + cbn [app]. rewrite list_to_set_cons, (assoc_L (∪)).
      by apply IH, inv_resume.
    + cbn [app]. apply IH. simpl. by rewrite Hn.
Qed.

Lemma inv_reachable cs :
  inv (list_to_set (completed cs start)) (run cs start).
Proof.
  pose proof (inv_run cs ∅ start inv_start) as H.
  by rewrite (left_id_L ∅ (∪)) in H.
Qed.

Lemma step_mark s c :
  maxCompletedEventId (reg s) ≤ maxCompletedEventId (reg (step s c)).
Proof.
  destruct c as [ty d tv ta|k d|n shots]; simpl; [done| |].
  - by destruct (completeEvent_begin k d (reg s)).
  - destruct (inflight s !! n); [apply resume_mark|done].
Qed.

Lemma step_reachable cs c : step (run cs start) c = run (cs ++ [c]) start.
Proof. unfold run. by rewrite foldl_app. Qed.


(** A completion of an id that was completed before leaves the log and
    the mark where they are. *)
Lemma resume_again_keeps_log C s c shots :
  inv C s → c ∈ inflight s → c_eventId c ∈ C →
  maxCompletedEventId (completeEvent_resume c shots (reg s)) = maxCompletedEventId (reg s)
  ∧ events (completeEvent_resume c shots (reg s)) = events (reg s).
Proof.
  intros Hinv Hin HC.
  destruct (Hinv.(inv_inflight C s) c Hin) as [Hcid _].
  assert (Hm : maxCompletedEventId (completeEvent_resume c shots (reg s))
               = maxCompletedEventId (reg s)).
  { pose proof (resume_mark c shots (reg s)) as Hle.
    destruct (decide (maxCompletedEventId (completeEvent_resume c shots (reg s))
                      = maxCompletedEventId (reg s))) as [|Hne]; [done|].
    destruct (resume_flushed c shots (reg s) (maxCompletedEventId (reg s) + 1))
      as (sl & Hsl & Hp); [lia|].
    assert (∃ sl', eventSlots (reg s) !! (maxCompletedEventId (reg s) + 1) = Some sl'
                   ∧ _pending sl' = false) as (sl' & Hsl' & Hp').
    { unfold written in Hsl.
      apply lookup_insert_Some in Hsl as [[Heq _]|[_ Hsl]]; [|eauto].
      apply (inv_done C s Hinv) in HC as [?|HC]; [lia|]. by rewrite Heq in HC. }
    apply (inv_next C s Hinv) in Hsl'. congruence. }
  split; [done|]. symmetry.
  apply prefix_length_eq; [apply resume_prefix|].
  assert (Hlen : length (log_ids (completeEvent_resume c shots (reg s)))
                 = length (log_ids (reg s))).
  { rewrite resume_log_ids.
    - rewrite Hm, seqZ_nil by lia. by rewrite app_nil_r.
    - unfold written. intros k sl [[<- <-]|[_ Hsl]]%lookup_insert_Some; [done|].
      by destruct (inv_key C s Hinv _ _ Hsl). }
  unfold log_ids in Hlen. rewrite !length_fmap in Hlen. lia.
Qed.

(** C1.  Whatever the calls of [createEventSlot] and [completeEvent] and the
    order in which the suspended completions resume, the ids of the log are
    0, 1, ..., [maxCompletedEventId]; an id is in the log exactly when it and
    all smaller ids were completed; after each call the slot just above the
    mark is missing or still pending; a call extends the log only by the
    ids that follow the mark, one after the other; and every event a
    resumed completion adds is the content of a completed slot of the map. *)
Theorem flushed_log_is_contiguous_completed_run (cs : list call) :
  let s := run cs start in
  let hwm := maxCompletedEventId (reg s) in
  log_ids (reg s) = seqZ 0 (hwm + 1)
  ∧ (∀ k, k ∈ log_ids (reg s) ↔ 0 ≤ k ∧ ∀ j, 0 ≤ j ≤ k → j ∈ completed cs start)
  ∧ (∀ sl, eventSlots (reg s) !! (hwm + 1) = Some sl → _pending sl = true)
  ∧ (∀ c, hwm ≤ maxCompletedEventId (reg (step s c))
          ∧ log_ids (reg (step s c)) =
              log_ids (reg s) ++ seqZ (hwm + 1) (maxCompletedEventId (reg (step s c)) - hwm))
  ∧ (∀ n shots k e, inflight s !! n = Some k →
       e ∈ events (reg (step s (Resume n shots))) →
       e ∈ events (reg s) ∨
       ∃ sl, written k shots (reg s) !! id e = Some sl
             ∧ _pending sl = false ∧ slot_event sl = e).
Proof.
  intros s hwm. pose proof (inv_reachable cs) as Hinv. fold s in Hinv.
  destruct Hinv as [Hc Hkey Hlog Hnext Hfl Hpend Hdone]. fold hwm in Hlog, Hnext, Hc.
  split; [done|]. split; [|split; [done|split]].
  - intros k. rewrite Hlog, elem_of_seqZ. split.
    + intros Hk. split; [lia|]. intros j Hj.
      apply (elem_of_list_to_set (C:=gset Z)), Hdone. left. fold hwm. lia.
    + intros [Hk Hall]. destruct (decide (k ≤ hwm)) as [|Hgt]; [lia|].
      assert (hwm + 1 ∈ completed cs start) as Hin by (apply Hall; lia).
      apply (elem_of_list_to_set (C:=gset Z)), Hdone in Hin as [Hin|(sl & Hsl & Hp)];
        [fold hwm in Hin; lia|].
      apply Hnext in Hsl. congruence.
  - intros c. pose proof (step_mark s c) as Hle. split; [done|].
    pose proof (inv_reachable (cs ++ [c])) as Hinv'.
    rewrite <- step_reachable in Hinv'. fold s in Hinv'.
    rewrite (inv_log _ _ Hinv'), Hlog. apply seqZ_split. fold hwm in Hle. lia.
  - intros n shots k e Hn. simpl. rewrite Hn. simpl.
    unfold completeEvent_resume, finalizeCompletedEvents.
    intros [He|(k' & sl & Hsl & Hp & <-)]%finalize_loop_content; [by left|].
    right. exists sl. simpl in Hsl. split; [|done].
    assert (id (slot_event sl) = k') as ->; [|done].
    unfold written in Hsl.
    apply lookup_insert_Some in Hsl as [[<- <-]|[_ Hsl]].
    + simpl. apply (Hfl k). by eapply list_elem_of_lookup_2.
    + by destruct (Hkey _ _ Hsl).
Qed.

(** C2.  Three slots are created, each followed by its call of
    [completeEvent]; the completions resume in the order 2, 0, 1.  The log
    is empty until 0 resumes, then holds event 0 alone, and the one flush
    run by the completion of 1 adds events 1 and 2 in that order.  Each
    logged event has the id, type and times of its creation, and its
    [basicData] is still there when the completion data uses other keys. *)
Theorem out_of_order_completions_flush_in_id_order
    (ty0 ty1 ty2 : string) (p0 p1 p2 d0 d1 d2 : gmap string value)
    (tv0 tv1 tv2 : Qc) (ta0 ta1 ta2 : Z) (sh0 sh1 sh2 : option capture) :
  d0 ##ₘ p0 → d1 ##ₘ p1 → d2 ##ₘ p2 →
  let created :=
    run [CreateSlot ty0 p0 tv0 ta0; Complete 0 d0;
         CreateSlot ty1 p1 tv1 ta1; Complete 1 d1;
         CreateSlot ty2 p2 tv2 ta2; Complete 2 d2] start in
  let after2 := step created (Resume 2 sh2) in
  let after0 := step after2 (Resume 0 sh0) in
  let after1 := step after0 (Resume 0 sh1) in
  let e0 := logged 0 ty0 p0 tv0 ta0 d0 sh0 in
  let e1 := logged 1 ty1 p1 tv1 ta1 d1 sh1 in
  let e2 := logged 2 ty2 p2 tv2 ta2 d2 sh2 in
  c_eventId <$> inflight created = [0; 1; 2]
  ∧ events (reg created) = []
  ∧ events (reg after2) = []
  ∧ events (reg after0) = [e0]
  ∧ events (reg after1) = [e0; e1; e2]
  ∧ eventSlots (reg after1) = ∅
  ∧ p0 ⊆ fields e0 ∧ p1 ⊆ fields e1 ∧ p2 ⊆ fields e2.
Proof.
  intros H0 H1 H2. cbv zeta.
  repeat split; try (vm_compute; reflexivity);
    simpl; by apply map_union_subseteq_r.
Qed.

Lemma out_of_order_completions_witness :
  (Scenario.click_additionalData 10 10 ##ₘ Scenario.click_basicData 10 10 1
   ∧ (∅ : gmap string value) ##ₘ Scenario.key_basicData 30 "A"
   ∧ Scenario.click_additionalData 20 20 ##ₘ Scenario.click_basicData 20 20 1)
  ∧ events (reg
      (step (step (step
        (run [CreateSlot "click" (Scenario.click_basicData 10 10 1) (Qc_of_Z 1) 1000;
              Complete 0 (Scenario.click_additionalData 10 10);
              CreateSlot "type" (Scenario.key_basicData 30 "A") (Qc_of_Z 2) 2000;
              Complete 1 ∅;
              CreateSlot "click" (Scenario.click_basicData 20 20 1) (Qc_of_Z 3) 3000;
              Complete 2 (Scenario.click_additionalData 20 20)] start)
        (Resume 2 None)) (Resume 0 None)) (Resume 0 None)))
    = [logged 0 "click" (Scenario.click_basicData 10 10 1) (Qc_of_Z 1) 1000
         (Scenario.click_additionalData 10 10) None;
       logged 1 "type" (Scenario.key_basicData 30 "A") (Qc_of_Z 2) 2000 ∅ None;
       logged 2 "click" (Scenario.click_basicData 20 20 1) (Qc_of_Z 3) 3000
         (Scenario.click_additionalData 20 20) None].
Proof.
  assert (H0 : Scenario.click_additionalData 10 10 ##ₘ Scenario.click_basicData 10 10 1).
  { apply map_disjoint_singleton_l_2. reflexivity. }
  assert (H1 : (∅ : gmap string value) ##ₘ Scenario.key_basicData 30 "A").
  { apply map_disjoint_empty_l. }
  assert (H2 : Scenario.click_additionalData 20 20 ##ₘ Scenario.click_basicData 20 20 1).
  { apply map_disjoint_singleton_l_2. reflexivity. }
  split; [done|].
  exact (proj1 (proj2 (proj2 (proj2 (proj2
    (out_of_order_completions_flush_in_id_order
       "click" "type" "click"
       (Scenario.click_basicData 10 10 1) (Scenario.key_basicData 30 "A")
       (Scenario.click_basicData 20 20 1)
       (Scenario.click_additionalData 10 10) ∅ (Scenario.click_additionalData 20 20)
       (Qc_of_Z 1) (Qc_of_Z 2) (Qc_of_Z 3) 1000 2000 3000 None None None
       H0 H1 H2)))))).
Defined.

(** C3.  Once an id has been completed, a further [completeEvent] on it
    never reaches the log: the ids of the log have no repetition; when the
    slot has left the map the call takes the "not found" branch and nothing
    changes; and whenever a suspended completion of that id resumes, the
    log and the mark stay as they are. *)
Theorem second_completion_never_flushes_again (cs : list call) (k : Z) :
  k ∈ completed cs start →
  let s := run cs start in
  NoDup (log_ids (reg s))
  ∧ (eventSlots (reg s) !! k = None →
     ∀ d, completeEvent_begin k d (reg s) = None ∧ step s (Complete k d) = s)
  ∧ (∀ c shots, c ∈ inflight s → c_eventId c = k →
       events (completeEvent_resume c shots (reg s)) = events (reg s)
       ∧ maxCompletedEventId (completeEvent_resume c shots (reg s))
         = maxCompletedEventId (reg s)).
Proof.
  intros Hk s. pose proof (inv_reachable cs) as Hinv. fold s in Hinv.
  split; [|split].
  - rewrite (inv_log _ _ Hinv). apply NoDup_seqZ.
  - intros Hnone d. simpl. unfold completeEvent_begin. by rewrite Hnone.
  - intros c shots Hin Hc.
    destruct (resume_again_keeps_log _ s c shots Hinv Hin) as [Hm He]; [|done].
    rewrite Hc. by apply (elem_of_list_to_set (C:=gset Z)).
Qed.

Lemma second_completion_witness :
  0 ∈ completed Scenario.double_completion start
  ∧ NoDup (log_ids (reg (run Scenario.double_completion start)))
  ∧ (∀ c shots, c ∈ inflight (run Scenario.double_completion start) →
       c_eventId c = 0 →
       events (completeEvent_resume c shots (reg (run Scenario.double_completion start)))
       = events (reg (run Scenario.double_completion start))
       ∧ maxCompletedEventId
           (completeEvent_resume c shots (reg (run Scenario.double_completion start)))
         = maxCompletedEventId (reg (run Scenario.double_completion start))).
Proof.
  assert (H : 0 ∈ completed Scenario.double_completion start).
  { vm_compute. apply list_elem_of_here. }
  split; [exact H|].
  split.
  - exact (proj1 (second_completion_never_flushes_again Scenario.double_completion 0 H)).
  - exact (proj2 (proj2
      (second_completion_never_flushes_again Scenario.double_completion 0 H))).
Defined.


(** A completion that resumes on a registry that has just been cleared. *)
Lemma resume_after_clear (c : completion) (shots : option capture) (st : registry) :
  let st' := completeEvent_resume c shots (clearEventSlots st) in
  (c_eventId c = 0 →
     events st' = events st ++ [slot_event (completed_slot c shots)])
  ∧ (c_eventId c ≠ 0 →
       events st' = events st
       ∧ eventSlots st' !! c_eventId c = Some (completed_slot c shots)).
Proof.
  cbv zeta. unfold completeEvent_resume, finalizeCompletedEvents, written, clearEventSlots.
  cbn [eventSlots maxCompletedEventId events eventCounter].
  rewrite insert_empty, map_size_singleton. change (-1 + 1) with 0. split.
  - intros ->. cbn [finalize_loop eventSlots]. rewrite lookup_singleton_eq.
    cbn [completed_slot _pending eventSlots events]. rewrite delete_singleton_eq.
    by rewrite lookup_empty.
  - intros Hne. cbn [finalize_loop eventSlots].
    rewrite lookup_singleton_ne by done. cbn [events eventSlots].
    by rewrite lookup_singleton_eq.
Qed.





End RegistryFacts.

(** ** The bounds cache *)

Module BoundsCacheFacts.
Import BoundsCache.

Lemma single_flight_idle c : boundsUpdateInProgress c = false → single_flight (idle c).
Proof. intros Hc. by right. Qed.

Lemma single_flight_tasks s t n :
  single_flight s → tasks s !! n = Some t →
  boundsUpdateInProgress (cache_of s) = true ∧ tasks s = [t] ∧ n = 0%nat.
Proof.
  intros [[Hflag Hlen]|[_ Hnil]] Hn; [|by rewrite Hnil in Hn].
  destruct (tasks s) as [|t' [|? ?]]; try done.
  destruct n; [|done]. simpl in Hn. by simplify_eq.
Qed.

Lemma single_flight_step s e : single_flight s → single_flight (step s e).
Proof.
  intros Hs. destruct e as [caller now now'|caller now|n r|n r]; simpl.
  - unfold getCachedAppBounds_begin, updateCachedAppBounds_begin.
    destruct (fresh now (cache_of s)); [done|].
    destruct Hs as [[Hflag Hlen]|[Hflag Hnil]]; rewrite Hflag; [by left|].
    destruct (fresh now' (cache_of s)); [by right|].
    left. unfold proceed. simpl. by rewrite Hnil.
  - unfold updateCachedAppBounds_begin.
    destruct Hs as [[Hflag Hlen]|[Hflag Hnil]]; rewrite Hflag; [by left|].
    destruct (fresh now (cache_of s)); [by right|].
    left. unfold proceed. simpl. by rewrite Hnil.
  - destruct (tasks s !! n) as [[caller now [w|]]|] eqn:Hn; try done.
    destruct (single_flight_tasks _ _ _ Hs Hn) as (Hflag & Htasks & ->).
    rewrite Htasks. unfold updateCachedAppBounds_window.
    destruct r as [[w|]|]; try by right.
    destruct (same_window now w (cache_of s)); [by right|by left].
  - destruct (tasks s !! n) as [[caller now [w|]]|] eqn:Hn; try done.
    destruct (single_flight_tasks _ _ _ Hs Hn) as (Hflag & Htasks & ->).
    rewrite Htasks. destruct r as [[b|]|]; by right.
Qed.

Lemma single_flight_run es : ∀ s, single_flight s → single_flight (run es s).
Proof.
  induction es as [|e es IH]; intros s Hs; [done|].
  apply (IH (step s e)), single_flight_step, Hs.
Qed.

(** While a call is suspended, a caller is answered at once with what the
    cache holds. *)
Lemma busy_call_is_answered_at_once s caller now now' :
  single_flight s → tasks s ≠ [] →
  step s (GetBounds caller now now') = answered s caller (cachedAppBounds (cache_of s)).
Proof.
  intros [[Hflag _]|[_ Hnil]] Hne; [|done]. simpl.
  unfold getCachedAppBounds_begin, updateCachedAppBounds_begin.
  destruct (fresh now (cache_of s)); [done|]. by rewrite Hflag.
Qed.

Lemma busy_calls_are_answered_at_once calls : ∀ s,
  single_flight s → tasks s ≠ [] →
  let s' := run (concurrent_calls calls) s in
  cache_of s' = cache_of s ∧ tasks s' = tasks s
  ∧ windowQueries s' = windowQueries s ∧ boundsQueries s' = boundsQueries s
  ∧ answers s' = answers s ++ ((λ c, (c.1.1, cachedAppBounds (cache_of s))) <$> calls).
Proof.
  induction calls as [|[[caller now] now'] calls IH]; intros s Hs Hne.
  { simpl. by rewrite app_nil_r. }
  change (run (concurrent_calls ((caller, now, now') :: calls)) s)
    with (run (concurrent_calls calls) (step s (GetBounds caller now now'))).
  rewrite busy_call_is_answered_at_once by done.
  destruct (IH (answered s caller (cachedAppBounds (cache_of s))))
    as (Hc & Ht & Hw & Hb & Ha).
  - rewrite <- (busy_call_is_answered_at_once s caller now now') by done.
    by apply single_flight_step.
  - done.
  - cbv zeta. rewrite Hc, Ht, Hw, Hb, Ha. simpl.
    by rewrite <- app_assoc.
Qed.

(** C4, as the code has it.  From a cache at rest and whatever happens
    afterwards: never more than one call of [updateCachedAppBounds] is
    suspended; while one is, a further caller starts no query and is
    answered at once with the bounds the cache holds at that moment (null
    when it holds none), without waiting for the pending result; and when
    nothing is cached and nothing is pending, callers arriving together
    start one query of the active window, for the first of them, and every
    other one is answered null. *)
Theorem single_flight_answers_concurrent_callers_from_cache
    (c0 : cache) (es : list event) :
  boundsUpdateInProgress c0 = false →
  let s := run es (idle c0) in
  (length (tasks s) ≤ 1)%nat
  ∧ (tasks s ≠ [] → ∀ caller now now',
       step s (GetBounds caller now now')
       = answered s caller (cachedAppBounds (cache_of s)))
  ∧ (tasks s = [] → cachedAppBounds (cache_of s) = None →
     ∀ first calls,
       let s' := run (concurrent_calls (first :: calls)) s in
       windowQueries s' = S (windowQueries s)
       ∧ boundsQueries s' = boundsQueries s
       ∧ tasks s' = [{| t_caller := first.1.1; t_now := first.2; t_window := None |}]
       ∧ answers s' = answers s ++ ((λ c, (c.1.1, None)) <$> calls)).
Proof.
  intros Hc0 s.
  assert (Hs : single_flight s) by by apply single_flight_run, single_flight_idle.
  split; [|split].
  - destruct Hs as [[_ ->]|[_ ->]]; simpl; lia.
  - intros Hne caller now now'. by apply busy_call_is_answered_at_once.
  - intros Hnil Hnone [[caller now] now'] calls s'.
    assert (Hflag : boundsUpdateInProgress (cache_of s) = false).
    { destruct Hs as [[_ Hlen]|[? _]]; [by rewrite Hnil in Hlen|done]. }
    set (s1 := step s (GetBounds caller now now')).
    assert (Hs1 : s1 =
      {| cache_of := {| cachedAppBounds := None;
                        cachedAppWindow := cachedAppWindow (cache_of s);
                        lastBoundsUpdate := lastBoundsUpdate (cache_of s);
                        boundsUpdateInProgress := true |};
         tasks := [{| t_caller := caller; t_now := now'; t_window := None |}];
         answers := answers s;
         windowQueries := S (windowQueries s);
         boundsQueries := boundsQueries s |}).
    { unfold s1. simpl.
      unfold getCachedAppBounds_begin, updateCachedAppBounds_begin, fresh.
      rewrite Hnone, Hflag. unfold proceed. simpl. by rewrite Hnil. }
    destruct (busy_calls_are_answered_at_once calls s1) as (Hc & Ht & Hw & Hb & Ha).
    + by apply single_flight_step.
    + by rewrite Hs1.
    + change s' with (run (concurrent_calls calls) s1).
      rewrite Hw, Hb, Ht, Ha, Hs1. done.
Qed.

Lemma single_flight_witness :
  boundsUpdateInProgress empty = false
  ∧ (length (tasks (run [GetBounds 1 0 0] (idle empty))) ≤ 1)%nat
  ∧ (∀ caller now now',
       step (run [GetBounds 1 0 0] (idle empty)) (GetBounds caller now now')
       = answered (run [GetBounds 1 0 0] (idle empty)) caller None).
Proof.
  assert (H : boundsUpdateInProgress empty = false) by reflexivity.
  split; [exact H|]. split.
  - exact (proj1
      (single_flight_answers_concurrent_callers_from_cache empty [GetBounds 1 0 0] H)).
  - apply (proj1 (proj2
      (single_flight_answers_concurrent_callers_from_cache empty [GetBounds 1 0 0] H))).
    discriminate.
Defined.

(** C5.  While bounds are cached and less than 2000 ms old,
    [getCachedAppBounds] returns them at once: the cache is not touched,
    no call is suspended and no query of the window or of its bounds is
    made. *)
Theorem fresh_cache_is_served_without_query
    (s : system) (caller : nat) (now now' : Z) (b : Bounds.t) :
  cachedAppBounds (cache_of s) = Some b →
  now - lastBoundsUpdate (cache_of s) < 2000 →
  getCachedAppBounds_begin now now' (cache_of s) = (Returned (Some b), cache_of s)
  ∧ step s (GetBounds caller now now') = answered s caller (Some b)
  ∧ windowQueries (step s (GetBounds caller now now')) = windowQueries s
  ∧ boundsQueries (step s (GetBounds caller now now')) = boundsQueries s.
Proof.
  intros Hb Hage.
  assert (Hg : getCachedAppBounds_begin now now' (cache_of s)
               = (Returned (Some b), cache_of s)).
  { unfold getCachedAppBounds_begin, fresh. rewrite Hb.
    rewrite bool_decide_eq_true_2; [done|]. unfold BOUNDS_CACHE_DURATION. lia. }
  split; [done|]. simpl. by rewrite Hg.
Qed.

Lemma fresh_cache_witness :
  (cachedAppBounds (cache_of (idle stale_cache)) = Some demo_bounds
   ∧ 1500 - lastBoundsUpdate (cache_of (idle stale_cache)) < 2000)
  ∧ step (idle stale_cache) (GetBounds 7 1500 1500)
    = answered (idle stale_cache) 7 (Some demo_bounds).
Proof.
  assert (Hb : cachedAppBounds (cache_of (idle stale_cache)) = Some demo_bounds)
    by reflexivity.
  assert (Hage : 1500 - lastBoundsUpdate (cache_of (idle stale_cache)) < 2000)
    by (simpl; lia).
  split; [done|].
  exact (proj1 (proj2
    (fresh_cache_is_served_without_query (idle stale_cache) 7 1500 1500 demo_bounds
       Hb Hage))).
Defined.

(** What the last piece of [updateCachedAppBounds] does with the answer of
    the bounds query. *)
Lemma bounds_query_outcomes now w c :
  (∀ b, updateCachedAppBounds_bounds now w (Resolved (Some b)) c =
          (Some b, {| cachedAppBounds := Some b; cachedAppWindow := Some w;
                      lastBoundsUpdate := now; boundsUpdateInProgress := false |}))
  ∧ updateCachedAppBounds_bounds now w (Resolved None) c = (None, finish c)
  ∧ updateCachedAppBounds_bounds now w Rejected c = (cachedAppBounds c, finish c).
Proof. done. Qed.

(** C6, at the failing input.  The cache holds an entry that is 5000 ms
    old; the active window has changed and the query of its bounds answers
    null.  The entry is kept, but the caller is given null although an
    entry exists.  When the same query throws instead, the [catch] gives
    the caller the stale bounds. *)
Theorem failed_bounds_query_answers_null_despite_stale_entry :
  answers (run [GetBounds 1 5000 5000;
                WindowSettled 0 (Resolved (Some other_window));
                BoundsSettled 0 (Resolved None)] (idle stale_cache))
    = [(1%nat, None)]
  ∧ cache_of (run [GetBounds 1 5000 5000;
                   WindowSettled 0 (Resolved (Some other_window));
                   BoundsSettled 0 (Resolved None)] (idle stale_cache))
    = stale_cache
  ∧ answers (run [GetBounds 1 5000 5000;
                  WindowSettled 0 (Resolved (Some other_window));
                  BoundsSettled 0 Rejected] (idle stale_cache))
    = [(1%nat, Some demo_bounds)].
Proof. repeat split; vm_compute; reflexivity. Qed.

(** C4 as stated fails: two callers ask while nothing is cached; the second
    is answered null at once, and the query started for the first then
    yields bounds that the second never receives. *)
Lemma concurrent_caller_is_not_given_the_inflight_result :
  answers (run [GetBounds 1 0 0; GetBounds 2 1 1;
                WindowSettled 0 (Resolved (Some demo_window));
                BoundsSettled 0 (Resolved (Some demo_bounds))] (idle empty))
    = [(2%nat, None); (1%nat, Some demo_bounds)]
  ∧ ¬ (∀ r, (2%nat, r) ∈ answers (run [GetBounds 1 0 0; GetBounds 2 1 1;
                WindowSettled 0 (Resolved (Some demo_window));
                BoundsSettled 0 (Resolved (Some demo_bounds))] (idle empty))
            → r = Some demo_bounds).
Proof.
  assert (He : answers (run [GetBounds 1 0 0; GetBounds 2 1 1;
                WindowSettled 0 (Resolved (Some demo_window));
                BoundsSettled 0 (Resolved (Some demo_bounds))] (idle empty))
    = [(2%nat, None); (1%nat, Some demo_bounds)]) by (vm_compute; reflexivity).
  split; [done|]. rewrite He. intros Hall.
  specialize (Hall None (list_elem_of_here _ _)). discriminate.
Qed.

End BoundsCacheFacts.

(** ** The coordinate translation *)

Module CoordinatesFacts.
Import Coordinates.

(** C10.  With bounds, the result holds the desktop point moved by the
    origin of the window, and [isInsideApp] is true exactly when both
    relative coordinates lie between 0 and the width, respectively the
    height, ends included; without bounds the result is null. *)
Theorem relative_coordinates_and_inside_flag (desktopX desktopY : Z) (b : Bounds.t) :
  (∃ r, getApplicationRelativeCoordinates desktopX desktopY (Some b) = Some r
        ∧ x r = desktopX - Bounds.x b
        ∧ y r = desktopY - Bounds.y b
        ∧ (isInsideApp r = true ↔
             (0 ≤ x r ≤ Bounds.width b) ∧ (0 ≤ y r ≤ Bounds.height b)))
  ∧ getApplicationRelativeCoordinates desktopX desktopY None = None.
Proof.
  split; [|done]. eexists. split; [done|]. simpl. split; [done|split; [done|]].
  rewrite !andb_true_iff, !Z.leb_le. lia.
Qed.

End CoordinatesFacts.

(** ** The scroll aggregator *)

Module ScrollFacts.
Import ScrollAggregator.

Lemma Math_round_integer (n : Z) : Math_round (Qc_of_Z n) = n.
Proof.
  unfold Math_round, Qfloor, Qplus, inject_Z. simpl.
  change (Z.pos (1 * 2)) with 2. symmetry. apply (Z.div_unique _ 2 n 1); lia.
Qed.

(** Rounding to one decimal leaves a whole number as it is. *)
Lemma round_to_1_decimal_integer (a : Z) :
  round_to_1_decimal (Qc_of_Z a) = Qc_of_Z a.
Proof.
  unfold round_to_1_decimal.
  rewrite <- Z2Qc_inj_mul, Math_round_integer, Z2Qc_inj_mul.
  field. intros H. by apply (f_equal this) in H.
Qed.

(** A whole amount is under the threshold only when it is 0. *)
Lemma below_threshold (a : Z) :
  0 ≤ a → (Qc_of_Z a < Q2Qc (1 # 2))%Qc ↔ a = 0.
Proof.
  intros Ha. split.
  - intros Hlt. destruct (decide (a = 0)) as [|Hne]; [done|].
    assert (1 ≤ a) as H1 by lia. apply Z2Qc_inj_le in H1.
    exfalso. apply (Qclt_not_le _ _ Hlt). etrans; [|apply H1]. by vm_compute.
  - intros ->. by vm_compute.
Qed.

Lemma on_wheel_skipped now_start now e e' st :
  skipped e' (on_wheel now_start now e st) = skipped e' st.
Proof. unfold on_wheel. by destruct (skipped e st). Qed.

Lemma burst_skipped samples : ∀ st e, skipped e (burst samples st) = skipped e st.
Proof.
  induction samples as [|s samples IH]; intros st e; [done|].
  simpl. by rewrite (IH (on_wheel s.1 s.1 s.2 st)), on_wheel_skipped.
Qed.

Lemma burst_snoc pre s st :
  burst (pre ++ [s]) st = on_wheel s.1 s.1 s.2 (burst pre st).
Proof. unfold burst. by rewrite foldl_app. Qed.

Lemma total_rotation_snoc pre s :
  total_rotation (pre ++ [s]) = total_rotation pre + rotation s.2.
Proof.
  induction pre as [|a pre IH]; simpl; [lia|].
  unfold total_rotation in *. simpl. rewrite IH. lia.
Qed.

Lemma last_time_snoc pre s : last_time (pre ++ [s]) = s.1.
Proof. unfold last_time. by rewrite foldl_app. Qed.

(** The accumulator after a burst that started on an empty one. *)
Lemma burst_accumulates samples st :
  events (scrollAccumulator st) = [] →
  (∀ s, s ∈ samples → skipped s.2 st = false) →
  samples ≠ [] →
  length (events (scrollAccumulator (burst samples st))) = length samples
  ∧ totalVertical (scrollAccumulator (burst samples st)) = total_rotation samples
  ∧ scrollDebounceTimer (burst samples st) = Some (last_time samples + 300).
Proof.
  intros Hempty. induction samples as [|s pre IH] using rev_ind; [done|].
  intros Hskip _. rewrite burst_snoc, total_rotation_snoc, last_time_snoc, length_app.
  unfold on_wheel. rewrite burst_skipped, Hskip by (apply elem_of_app; right; apply list_elem_of_here).
  simpl. destruct pre as [|p pre'].
  - simpl. rewrite Hempty. simpl. done.
  - destruct IH as (Hlen & Htot & _); [|done|].
    { intros s' Hs'. apply Hskip, elem_of_app. by left. }
    destruct (events (scrollAccumulator (burst (p :: pre') st))) as [|e evs] eqn:Hev.
    { simpl in Hlen. lia. }
    rewrite Hev, Htot, length_app, Hlen. done.
Qed.

Lemma within_debounce_next pre : ∀ s post,
  within_debounce (pre ++ s :: post) → pre ≠ [] → s.1 < last_time pre + 300.
Proof.
  induction pre as [|a pre IH]; intros s post Hw Hne; [done|].
  destruct pre as [|b pre'].
  - simpl in Hw. unfold last_time. simpl. lia.
  - destruct Hw as [_ Hw]. specialize (IH s post Hw ltac:(done)).
    unfold last_time in *. simpl in *. done.
Qed.

(** A burst that starts on an empty accumulator, made of wheel events
    the listener does not skip, each less than 300 ms after the one
    before.  Inside the burst the pending timer always fires later than
    the next event, so the callback runs once, 300 ms after the last
    event.  When the absolute sum of the rotations is under 0.5 the
    callback creates no slot and empties the accumulator.  Otherwise it
    creates one slot, of type scroll_sequence, whose [totalAmount] is the
    absolute sum and whose [individualScrolls] is the number of events. *)
Lemma burst_on_empty_accumulator_yields_one_slot
    (st : listeners) (samples : list (Z * wheel)) (now : Z) (screen_info : value) :
  events (scrollAccumulator st) = [] →
  samples ≠ [] →
  (∀ s, s ∈ samples → skipped s.2 st = false) →
  within_debounce samples →
  let st' := burst samples st in
  let total := total_rotation samples in
  (∀ pre s post, samples = pre ++ s :: post → pre ≠ [] →
     ∃ d, scrollDebounceTimer (burst pre st) = Some d ∧ s.1 < d)
  ∧ scrollDebounceTimer st' = Some (last_time samples + 300)
  ∧ ((Qc_of_Z (Z.abs total) < Q2Qc (1 # 2))%Qc →
       ∃ st'', on_timeout now screen_info st' = (Finished, st'')
               ∧ events (scrollAccumulator st'') = [])
  ∧ (¬ (Qc_of_Z (Z.abs total) < Q2Qc (1 # 2))%Qc →
       ∃ m st'', on_timeout now screen_info st' = (AwaitBounds m, st'')
         ∧ ∀ appBounds now_video now_abs reg,
             ∃ sl c,
               captureScrollSequence_slot m appBounds now_video now_abs st'' reg
               = ({| Registry.eventCounter := Registry.eventCounter reg + 1;
                     Registry.eventSlots :=
                       <[Registry.eventCounter reg := sl]> (Registry.eventSlots reg);
                     Registry.maxCompletedEventId := Registry.maxCompletedEventId reg;
                     Registry.events := Registry.events reg |}, c)
               ∧ Registry._pending sl = true
               ∧ Registry.type (Registry.slot_event sl) = "scroll_sequence"
               ∧ Registry.fields (Registry.slot_event sl) !! "totalAmount"
                 = Some (VNum (Qc_of_Z (Z.abs total)))
               ∧ Registry.fields (Registry.slot_event sl) !! "individualScrolls"
                 = Some (VInt (Z.of_nat (length samples)))).
Proof.
  intros Hempty Hne Hskip Hw st' total.
  destruct (burst_accumulates samples st Hempty Hskip Hne) as (Hlen & Htot & Htimer).
  fold st' in Hlen, Htot, Htimer. fold total in Htot.
  assert (∃ e evs, events (scrollAccumulator st') = e :: evs) as (e & evs & Hev).
  { destruct (events (scrollAccumulator st')) as [|e evs]; [|eauto].
    destruct samples; [done|]. simpl in Hlen. lia. }
  split; [|split; [done|split]].
  - intros pre s post -> Hpre.
    destruct (burst_accumulates pre st Hempty) as (_ & _ & Ht); [|done|].
    { intros s' Hs'. apply Hskip, elem_of_app. by left. }
    eexists. split; [exact Ht|]. by eapply within_debounce_next.
  - intros Hlow. eexists. unfold on_timeout, captureScrollSequence_begin. simpl.
    rewrite Hev, Htot, bool_decide_eq_true_2 by done. done.
  - intros Hhigh. eexists _, _. unfold on_timeout, captureScrollSequence_begin. simpl.
    rewrite Hev, Htot, bool_decide_eq_false_2 by done. split; [done|].
    intros appBounds now_video now_abs reg. eexists _, _.
    unfold captureScrollSequence_slot, Registry.createEventSlot. simpl.
    split; [reflexivity|]. simpl. split; [done|split; [done|]].
    unfold scroll_basicData. simpl. split.
    + do 3 (rewrite lookup_insert_ne by done).
      by rewrite lookup_insert_eq, round_to_1_decimal_integer.
    + do 5 (rewrite lookup_insert_ne by done).
      by rewrite lookup_insert_eq, Hev, <- Hlen, Hev.
Qed.

Lemma burst_of_twenty_example :
  (events (scrollAccumulator at_rest) = []
   ∧ Scenario.twenty_wheel_events ≠ []
   ∧ within_debounce Scenario.twenty_wheel_events)
  ∧ scrollDebounceTimer (burst Scenario.twenty_wheel_events at_rest) = Some 3200
  ∧ ∃ m st'',
      on_timeout 3200 VNull (burst Scenario.twenty_wheel_events at_rest)
      = (AwaitBounds m, st'')
      ∧ ∀ appBounds now_video now_abs reg,
          ∃ sl c,
            captureScrollSequence_slot m appBounds now_video now_abs st'' reg
            = ({| Registry.eventCounter := Registry.eventCounter reg + 1;
                  Registry.eventSlots :=
                    <[Registry.eventCounter reg := sl]> (Registry.eventSlots reg);
                  Registry.maxCompletedEventId := Registry.maxCompletedEventId reg;
                  Registry.events := Registry.events reg |}, c)
            ∧ Registry._pending sl = true
            ∧ Registry.type (Registry.slot_event sl) = "scroll_sequence"
            ∧ Registry.fields (Registry.slot_event sl) !! "totalAmount"
              = Some (VNum (Qc_of_Z 20))
            ∧ Registry.fields (Registry.slot_event sl) !! "individualScrolls"
              = Some (VInt 20).
Proof.
  assert (H1 : events (scrollAccumulator at_rest) = []) by reflexivity.
  assert (H2 : Scenario.twenty_wheel_events ≠ []) by discriminate.
  assert (H3 : ∀ s, s ∈ Scenario.twenty_wheel_events → skipped s.2 at_rest = false)
    by (intros s _; reflexivity).
  assert (H4 : within_debounce Scenario.twenty_wheel_events)
    by (vm_compute; repeat split; discriminate).
  split; [done|].
  pose proof (burst_on_empty_accumulator_yields_one_slot at_rest
                Scenario.twenty_wheel_events 3200 VNull H1 H2 H3 H4) as H.
  split; [exact (proj1 (proj2 H))|].
  apply (proj2 (proj2 (proj2 H))).
  intros Hlow. vm_compute in Hlow. discriminate.
Defined.

(** C7, at the failing input.  The accumulator is reset only after the
    completion of the slot, which takes at least 800 ms.  A first burst of
    three one-step events ends at 200 ms and its callback runs at 500 ms; a
    second burst of two events comes at 600 and 700 ms, while that completion
    is suspended, and its callback runs at 1000 ms.  The second burst has two
    events of total rotation 2, but the accumulator still holds the first
    burst: the callback measures 5, and the slot it creates has
    [totalAmount] 5 and [individualScrolls] 5. *)
Theorem second_burst_is_measured_with_the_first :
  (on_timeout 500 VNull (burst Scenario.first_burst at_rest)).1
  = AwaitBounds {| direction := "up"; amount := 3; duration := 500; screenInfo := VNull |}
  ∧ length Scenario.second_burst = 2%nat
  ∧ total_rotation Scenario.second_burst = 2
  ∧ within_debounce Scenario.second_burst
  ∧ (on_timeout 1000 VNull
       (burst Scenario.second_burst
          (on_timeout 500 VNull (burst Scenario.first_burst at_rest)).2)).1
    = AwaitBounds {| direction := "up"; amount := 5; duration := 1000; screenInfo := VNull |}
  ∧ ∀ appBounds now_video now_abs reg,
      ∃ sl,
        Registry.eventSlots
          (captureScrollSequence_slot
             {| direction := "up"; amount := 5; duration := 1000; screenInfo := VNull |}
             appBounds now_video now_abs
             (on_timeout 1000 VNull
                (burst Scenario.second_burst
                   (on_timeout 500 VNull (burst Scenario.first_burst at_rest)).2)).2
             reg).1
        !! Registry.eventCounter reg = Some sl
        ∧ Registry.type (Registry.slot_event sl) = "scroll_sequence"
        ∧ Registry.fields (Registry.slot_event sl) !! "totalAmount"
          = Some (VNum (Qc_of_Z 5))
        ∧ Registry.fields (Registry.slot_event sl) !! "individualScrolls"
          = Some (VInt 5).
Proof.
  split; [by vm_compute|]. split; [done|]. split; [done|].
  split; [vm_compute; repeat split; discriminate|].
  split; [by vm_compute|].
  intros appBounds now_video now_abs reg. eexists.
  unfold captureScrollSequence_slot, Registry.createEventSlot.
  cbn [fst snd Registry.eventSlots]. rewrite lookup_insert_eq.
  split; [reflexivity|]. cbn [Registry.slot_event Registry.type Registry.fields].
  split; [done|]. unfold scroll_basicData. cbn [amount]. split.
  - do 3 (rewrite lookup_insert_ne by done).
    by rewrite lookup_insert_eq, round_to_1_decimal_integer.
  - do 5 (rewrite lookup_insert_ne by done).
    rewrite lookup_insert_eq. reflexivity.
Qed.

End ScrollFacts.

(** ** The supervision of the recording processes *)

Module SupervisorFacts.
Import Supervisor.

Ltac timers t :=
  repeat match goal with
    | |- context [?d <=? t] => destruct (Z.leb_spec d t); simpl
    end.

Ltac not_among :=
  rewrite ?not_elem_of_cons; repeat split; try discriminate; apply not_elem_of_nil.

(** The state right after the stop has been asked for; the process has not
    reacted to the graceful request. *)
Lemma stop_begin_unheeded (k : recorder) (stdin_ok : bool) (p : behaviour) :
  quits_on_q p = false → ends_on p SIGINT = false →
  stop_begin k 0 (spawn p stdin_ok)
  = {| kind := k;
       proc :=
         {| program := p; stdin_writable := stdin_ok;
            killed := match k with Native => true | FFmpeg => negb stdin_ok end;
            exited := false;
            received := match k with
                        | Native => [SIGINT]
                        | FFmpeg => if stdin_ok then [] else [SIGINT]
                        end |};
       forceKillTimeout := Some (graceful_timeout k); finalTimeout := None;
       exitSeen := false; extracting := false; resolved := false |}.
Proof.
  intros Hq Hi. unfold stop_begin, notice_exit, kill, write_q, spawn.
  destruct k, stdin_ok; simpl; rewrite ?Hq, ?Hi; reflexivity.
Qed.

(** A process that ends on SIGTERM is stopped by the first timer; the
    promise of the FFmpeg stop is resolved then, that of the native stop
    when the frame extraction has settled. *)
Lemma sigterm_ends_the_stop (k : recorder) (b : bool) (t : Z) :
  graceful_timeout k ≤ t →
  let st := advance t (stop_begin k 0 (spawn heeds_sigterm b)) in
  SIGTERM ∈ received (proc st) ∧ exited (proc st) = true
  ∧ resolved st = match k with Native => false | FFmpeg => true end
  ∧ resolved (extraction_settled st) = true.
Proof.
  intros Ht. cbv zeta. rewrite stop_begin_unheeded by done.
  unfold advance. cbn [forceKillTimeout].
  destruct (Z.leb_spec (graceful_timeout k) t) as [_|?]; [|lia].
  destruct k, b; cbn; timers t; (split; [|done]); rewrite ?elem_of_cons; auto.
Qed.

(** C8, at the failing input.  The recorded process ends on no request it
    can refuse.  Whatever the time, SIGKILL is not among the signals sent,
    the process has not ended and the promise of the stop is not
    resolved.  SIGTERM is sent once the first timeout has passed; once the
    second has passed too, no timer is pending: the guard of the last
    callback reads [killed], which is already true. *)
Theorem unresponsive_process_is_never_sent_sigkill
    (k : recorder) (stdin_ok : bool) (t : Z) :
  let st := advance t (stop_begin k 0 (spawn stubborn stdin_ok)) in
  (SIGKILL ∉ received (proc st))
  ∧ exited (proc st) = false
  ∧ resolved st = false
  ∧ (graceful_timeout k ≤ t → SIGTERM ∈ received (proc st) ∧ killed (proc st) = true)
  ∧ (graceful_timeout k + final_timeout ≤ t →
       forceKillTimeout st = None ∧ finalTimeout st = None).
Proof.
  cbv zeta. rewrite stop_begin_unheeded by done.
  unfold advance. cbn [forceKillTimeout].
  destruct (Z.leb_spec (graceful_timeout k) t) as [Hone|Hone].
  - destruct k, stdin_ok; unfold graceful_timeout, final_timeout in *; cbn in *;
      timers t;
      (split; [not_among|]); (split; [done|]); (split; [done|]);
      (split; [intros _; split; [|done]; rewrite ?elem_of_cons; auto|]);
      first [done | intros ?; unfold final_timeout in *; lia].
  - destruct k, stdin_ok; unfold graceful_timeout, final_timeout in *; cbn in *;
      (split; [not_among|]); (split; [done|]); (split; [done|]);
      split; intros ?; lia.
Qed.

(** The native recorder, 8000 ms after the stop. *)
Lemma native_stop_after_both_timeouts :
  advance 8000 (stop_begin Native 0 (spawn stubborn true))
  = {| kind := Native;
       proc := {| program := stubborn; stdin_writable := true; killed := true;
                  exited := false; received := [SIGINT; SIGTERM] |};
       forceKillTimeout := None; finalTimeout := None;
       exitSeen := false; extracting := false; resolved := false |}.
Proof. reflexivity. Qed.

End SupervisorFacts.

(** ** Sessions: ids, creation data and the order of the log *)

Module SessionFacts.
Import Registry Sessions RegistryFacts.

Lemma created_as_more L x e : created_as L e → created_as (L ++ [x]) e.
Proof.
  intros [Hid (d & Hd & Hdom)]. split; [done|]. exists d. split; [|done].
  by apply lookup_app_l_Some.
Qed.

Lemma created_as_completed L c shots :
  created_as L (slot_event (c_eventSlot c)) →
  created_as L (slot_event (completed_slot c shots)).
Proof.
  intros [Hid (d & Hd & Hdom)]. split; [done|]. exists d. split; [done|].
  simpl. rewrite dom_union. set_solver.
Qed.

Lemma creations_snoc cs c :
  creations (cs ++ [c]) =
  creations cs ++ match c with
                  | CreateSlot ty d tv ta => [(ty, d, tv, ta)]
                  | _ => []
                  end.
Proof. unfold creations. rewrite omap_app. by destruct c. Qed.

Lemma tracked_start : tracked [] start.
Proof.
  split; simpl; try done.
  - intros e He. by apply elem_of_nil in He.
  - intros e He. by apply elem_of_nil in He.
  - lia.
Qed.

Lemma tracked_step L s c :
  tracked L s →
  tracked (L ++ match c with
                | CreateSlot ty d tv ta => [(ty, d, tv, ta)]
                | _ => []
                end) (step s c).
Proof.
  intros [Hcnt Hslots Hfl Hlog Hkept].
  destruct c as [ty d tv ta|k d|n shots].
  - split; simpl.
    + rewrite Hcnt, length_app. simpl. lia.
    + intros k sl [[<- <-]|[_ Hsl]]%lookup_insert_Some.
      * split; simpl; [lia|]. exists d. split; [|done].
        rewrite Hcnt, Nat2Z.id. by rewrite lookup_app_r, Nat.sub_diag.
      * by eapply created_as_more, Hslots.
    + intros c Hc. by apply created_as_more, Hfl.
    + intros e He. by apply created_as_more, Hlog.
    + intros k Hk. destruct (decide (k = eventCounter (reg s))) as [->|Hne].
      * right. rewrite lookup_insert_eq. eauto.
      * rewrite lookup_insert_ne by done. apply Hkept. lia.
  - rewrite app_nil_r. simpl. unfold completeEvent_begin.
    destruct (eventSlots (reg s) !! k) as [sl|] eqn:Hsl; [|done].
    split; simpl; try done.
    intros c [Hin|Hin]%elem_of_app; [eauto|].
    apply list_elem_of_singleton in Hin as ->. simpl. eauto.
  - rewrite app_nil_r. simpl.
    destruct (inflight s !! n) as [c|] eqn:Hn; [|done].
    assert (Hc : created_as L (slot_event (c_eventSlot c)))
      by (eapply Hfl, list_elem_of_lookup_2, Hn).
    assert (Hw : ∀ k sl, written c shots (reg s) !! k = Some sl →
                   created_as L (slot_event sl)).
    { intros k sl. unfold written.
      intros [[_ <-]|[_ Hsl]]%lookup_insert_Some; [|eauto].
      by apply created_as_completed. }
    split; simpl.
    + by rewrite resume_counter.
    + intros k sl. rewrite resume_slots. case_bool_decide; [done|eauto].
    + intros c' Hc'. by eapply Hfl, list_elem_of_delete_inv.
    + intros e He. unfold completeEvent_resume, finalizeCompletedEvents in He.
      apply finalize_loop_content in He as [He|(k & sl & Hsl & _ & <-)]; eauto.
    + intros k Hk. rewrite resume_counter in Hk. rewrite resume_slots.
      pose proof (resume_mark c shots (reg s)).
      case_bool_decide; [left; lia|].
      destruct (Hkept k Hk) as [?|[sl Hsl]]; [left; lia|].
      destruct (decide (k ≤ maxCompletedEventId (completeEvent_resume c shots (reg s))));
        [by left|right].
      unfold written. destruct (decide (c_eventId c = k)) as [->|Hne].
      * rewrite lookup_insert_eq. eauto.
      * rewrite lookup_insert_ne by done. eauto.
Qed.

Lemma tracked_run cs : ∀ L s, tracked L s → tracked (L ++ creations cs) (run cs s).
Proof.
  induction cs as [|c cs IH]; intros L s Htr.
  { simpl. by rewrite app_nil_r. }
  change (run (c :: cs) s) with (run cs (step s c)).
  replace (L ++ creations (c :: cs))
    with ((L ++ match c with
                | CreateSlot ty d tv ta => [(ty, d, tv, ta)]
                | _ => []
                end) ++ creations cs).
  - by apply IH, tracked_step.
  - rewrite <- app_assoc. f_equal. by destruct c.
Qed.

Lemma tracked_reachable cs : tracked (creations cs) (run cs start).
Proof. apply (tracked_run cs [] start tracked_start). Qed.

(** The counter counts the creations, whatever else is called. *)
Lemma run_counter cs : ∀ s,
  eventCounter (reg (run cs s))
  = eventCounter (reg s) + Z.of_nat (length (creations cs)).
Proof.
  induction cs as [|c cs IH]; intros s; [simpl; lia|].
  change (run (c :: cs) s) with (run cs (step s c)). rewrite IH.
  destruct c as [ty d tv ta|k d|n shots]; simpl.
  - lia.
  - by destruct (completeEvent_begin k d (reg s)).
  - destruct (inflight s !! n); [|done]. cbn [reg]. by rewrite resume_counter.
Qed.

Lemma creations_without_stale m cs : creations (without_stale m <$> cs) = creations cs.
Proof.
  unfold creations. induction cs as [|c cs IH]; [done|].
  destruct c; simpl; [f_equal| |]; exact IH.
Qed.

(** A session beside stale completions that stay suspended is the session
    without them: the registry is the same after every call, the stale
    completions stay at the head of the suspended ones, and the same
    completions run to their end. *)
Lemma beside_stale stale cs : ∀ r own,
  leaves_suspended (length stale) cs →
  reg (run cs {| reg := r; inflight := stale ++ own |})
  = reg (run (without_stale (length stale) <$> cs) {| reg := r; inflight := own |})
  ∧ inflight (run cs {| reg := r; inflight := stale ++ own |})
    = stale ++ inflight (run (without_stale (length stale) <$> cs)
                           {| reg := r; inflight := own |})
  ∧ completed cs {| reg := r; inflight := stale ++ own |}
    = completed (without_stale (length stale) <$> cs) {| reg := r; inflight := own |}.
Proof.
  induction cs as [|c cs IH]; intros r own Hcs; [done|].
  apply Forall_cons in Hcs as [Hc Hcs].
  rewrite fmap_cons.
  change (run (c :: cs) ?s) with (run cs (step s c)).
  change (run (?c' :: ?cs') ?s) with (run cs' (step s c')).
  destruct c as [ty d tv ta|k d|n shots].
  - apply (IH _ own Hcs).
  - cbn [without_stale completed step reg inflight].
    destruct (completeEvent_begin k d r) as [c|]; [|apply (IH _ own Hcs)].
    rewrite <- (assoc_L (++)). apply (IH _ (own ++ [c]) Hcs).
  - cbn [without_stale completed step reg inflight].
    rewrite (lookup_app_r stale own n) by done.
    destruct (own !! (n - length stale)%nat) as [c|] eqn:Hn; [|apply (IH _ own Hcs)].
    replace (delete n (stale ++ own)) with (stale ++ delete (n - length stale)%nat own).
    + destruct (IH (completeEvent_resume c shots r)
                  (delete (n - length stale)%nat own) Hcs) as (-> & -> & ->). done.
    + revert n Hc Hn. clear. induction stale as [|x stale IH]; intros n Hc Hn.
      * simpl. by rewrite Nat.sub_0_r.
      * destruct n as [|n]; simpl in *; [lia|]. f_equal. apply IH; [lia|done].
Qed.

Lemma beside_stale_start stale cs :
  leaves_suspended (length stale) cs →
  reg (run cs (start_with stale))
  = reg (run (without_stale (length stale) <$> cs) start)
  ∧ completed cs (start_with stale)
    = completed (without_stale (length stale) <$> cs) start.
Proof.
  intros Hcs. destruct (beside_stale stale cs initial [] Hcs) as (H1 & _ & H2).
  rewrite (right_id_L [] (++)) in H1, H2. done.
Qed.

(** X1.  A session may start while completions of an earlier session are
    still suspended.  The id handed out by [createEventSlot] is the number
    of slots the session has created before, and it is the value of the
    counter.  As long as none of the stale completions has resumed, the id
    is not a key of the map and it is not an id of the log. *)
Theorem ids_follow_creation_order
    (stale : list completion) (cs : list call)
    (ty : string) (d : gmap string value) (tv : Qc) (ta : Z) :
  let s := run cs (start_with stale) in
  let h := (createEventSlot ty d tv ta (reg s)).1 in
  h_eventId h = Z.of_nat (length (creations cs))
  ∧ eventCounter (reg s) = Z.of_nat (length (creations cs))
  ∧ (leaves_suspended (length stale) cs →
       eventSlots (reg s) !! h_eventId h = None ∧ h_eventId h ∉ log_ids (reg s)).
Proof.
  intros s h.
  assert (Hcnt : eventCounter (reg s) = Z.of_nat (length (creations cs)))
    by (unfold s; by rewrite run_counter).
  split; [done|]. split; [done|]. intros Hcs.
  destruct (beside_stale_start stale cs Hcs) as [Hreg _].
  change (h_eventId h) with (eventCounter (reg s)). unfold s. rewrite Hreg.
  pose proof (inv_reachable (without_stale (length stale) <$> cs)) as Hinv.
  split.
  - destruct (eventSlots _ !! _) as [sl|] eqn:Hsl; [|done].
    destruct (inv_key _ _ Hinv _ _ Hsl) as [_ ?]. lia.
  - rewrite (inv_log _ _ Hinv), elem_of_seqZ.
    pose proof (inv_counter _ _ Hinv). lia.
Qed.

Lemma ids_follow_creation_order_witness :
  leaves_suspended (length [stale_completion]) Scenario.key_beside_a_suspended_completion
  ∧ h_eventId (createEventSlot "type" (Scenario.key_basicData 48 "B") (Qc_of_Z 2) 2000
                 (reg (run Scenario.key_beside_a_suspended_completion
                         (start_with [stale_completion])))).1 = 1
  ∧ 1 ∉ log_ids (reg (run Scenario.key_beside_a_suspended_completion
                        (start_with [stale_completion]))).
Proof.
  assert (H0 : leaves_suspended (length [stale_completion])
                 Scenario.key_beside_a_suspended_completion)
    by (repeat constructor).
  split; [exact H0|]. split; [vm_compute; reflexivity|].
  exact (proj2 (proj2 (proj2 (ids_follow_creation_order [stale_completion]
                  Scenario.key_beside_a_suspended_completion
                  "type" (Scenario.key_basicData 48 "B") (Qc_of_Z 2) 2000)) H0)).
Defined.

(** X2.  No slot is lost during a session: every id below the counter is an
    id of the log or a key of the map. *)
Theorem no_created_slot_is_lost (cs : list call) (k : Z) :
  0 ≤ k < eventCounter (reg (run cs start)) →
  k ∈ log_ids (reg (run cs start)) ∨ is_Some (eventSlots (reg (run cs start)) !! k).
Proof.
  intros Hk. pose proof (inv_reachable cs) as Hinv.
  destruct (tr_kept _ _ (tracked_reachable cs) k Hk) as [?|?]; [left|by right].
  rewrite (inv_log _ _ Hinv), elem_of_seqZ. lia.
Qed.

Lemma no_created_slot_is_lost_witness :
  0 ≤ 0 < eventCounter (reg (run Scenario.one_suspended_key start))
  ∧ (0 ∈ log_ids (reg (run Scenario.one_suspended_key start))
     ∨ is_Some (eventSlots (reg (run Scenario.one_suspended_key start)) !! 0)).
Proof.
  assert (H : 0 ≤ 0 < eventCounter (reg (run Scenario.one_suspended_key start)))
    by (split; [done|]; vm_compute; reflexivity).
  split; [exact H|]. exact (no_created_slot_is_lost Scenario.one_suspended_key 0 H).
Defined.

Lemma all_logged (cs : list call) :
  (∀ j, 0 ≤ j < eventCounter (reg (run cs start)) → j ∈ completed cs start) →
  log_ids (reg (run cs start)) = seqZ 0 (eventCounter (reg (run cs start)))
  ∧ length (events (reg (run cs start))) = length (creations cs).
Proof.
  intros Hall. pose proof (inv_reachable cs) as Hinv.
  pose proof (inv_counter _ _ Hinv) as Hc.
  assert (Hm : maxCompletedEventId (reg (run cs start)) + 1
               = eventCounter (reg (run cs start))).
  { destruct (decide (maxCompletedEventId (reg (run cs start)) + 1
                      = eventCounter (reg (run cs start)))) as [|Hne]; [done|].
    assert (maxCompletedEventId (reg (run cs start)) + 1 ∈ completed cs start) as Hin
      by (apply Hall; lia).
    apply (elem_of_list_to_set (C:=gset Z)), (inv_done _ _ Hinv) in Hin
      as [Hin|(sl & Hsl & Hp)]; [lia|].
    apply (inv_next _ _ Hinv) in Hsl. congruence. }
  assert (Hl : log_ids (reg (run cs start)) = seqZ 0 (eventCounter (reg (run cs start))))
    by (by rewrite (inv_log _ _ Hinv), Hm).
  split; [done|].
  apply (f_equal length) in Hl. unfold log_ids in Hl.
  rewrite length_fmap, length_seqZ, (tr_counter _ _ (tracked_reachable cs)) in Hl. lia.
Qed.

(** X3.  In a session that may have started while completions of an earlier
    session were suspended, and in which none of these has resumed: when
    every slot created so far has been completed, the log holds them all,
    its ids are 0, ..., counter - 1. *)
Theorem all_completed_means_all_logged (stale : list completion) (cs : list call) :
  leaves_suspended (length stale) cs →
  (∀ j, 0 ≤ j < eventCounter (reg (run cs (start_with stale))) →
        j ∈ completed cs (start_with stale)) →
  log_ids (reg (run cs (start_with stale)))
  = seqZ 0 (eventCounter (reg (run cs (start_with stale))))
  ∧ length (events (reg (run cs (start_with stale)))) = length (creations cs).
Proof.
  intros Hcs. destruct (beside_stale_start stale cs Hcs) as [-> ->].
  rewrite <- (creations_without_stale (length stale) cs). apply all_logged.
Qed.

Lemma all_completed_witness :
  leaves_suspended (length [stale_completion]) Scenario.key_beside_a_suspended_completion
  ∧ (∀ j, 0 ≤ j < eventCounter
                    (reg (run Scenario.key_beside_a_suspended_completion
                            (start_with [stale_completion]))) →
          j ∈ completed Scenario.key_beside_a_suspended_completion
                (start_with [stale_completion]))
  ∧ log_ids (reg (run Scenario.key_beside_a_suspended_completion
                    (start_with [stale_completion]))) = [0].
Proof.
  assert (H0 : leaves_suspended (length [stale_completion])
                 Scenario.key_beside_a_suspended_completion)
    by (repeat constructor).
  assert (H : ∀ j, 0 ≤ j < eventCounter
                    (reg (run Scenario.key_beside_a_suspended_completion
                            (start_with [stale_completion]))) →
                j ∈ completed Scenario.key_beside_a_suspended_completion
                      (start_with [stale_completion])).
  { intros j Hj.
    assert (eventCounter (reg (run Scenario.key_beside_a_suspended_completion
                                 (start_with [stale_completion]))) = 1) as Hc
      by (vm_compute; reflexivity).
    assert (j = 0) as -> by lia.
    vm_compute. apply list_elem_of_here. }
  split; [exact H0|]. split; [exact H|].
  exact (proj1 (all_completed_means_all_logged [stale_completion]
                  Scenario.key_beside_a_suspended_completion H0 H)).
Defined.

Lemma log_entry_id (cs : list call) (i : nat) (e : event) :
  events (reg (run cs start)) !! i = Some e → id e = Z.of_nat i.
Proof.
  intros He. pose proof (inv_reachable cs) as Hinv.
  assert (log_ids (reg (run cs start)) !! i = Some (id e)) as Hl
    by (unfold log_ids; by rewrite list_lookup_fmap, He).
  rewrite (inv_log _ _ Hinv) in Hl. apply lookup_seqZ in Hl. lia.
Qed.

Lemma log_entry_creation (cs : list call) (i : nat) (e : event) :
  events (reg (run cs start)) !! i = Some e →
  ∃ d, creations cs !! i = Some (type e, d, timestamp e, absoluteTimestamp e)
       ∧ dom d ⊆ dom (fields e).
Proof.
  intros He. pose proof (log_entry_id cs i e He) as Hid.
  destruct (tr_log _ _ (tracked_reachable cs) e) as [_ (d & Hd & Hdom)];
    [by eapply list_elem_of_lookup_2|].
  rewrite Hid, Nat2Z.id in Hd. eauto.
Qed.

(** X4.  In a session that may have started while completions of an earlier
    session were suspended, and in which none of these has resumed: the
    entry at position [i] of the log is the slot created by the call number
    [i].  It has the id [i], the type and the two time stamps that call
    gave, and every key of its [basicData]. *)
Theorem log_entry_is_the_creation_of_its_position
    (stale : list completion) (cs : list call) (i : nat) (e : event) :
  leaves_suspended (length stale) cs →
  events (reg (run cs (start_with stale))) !! i = Some e →
  id e = Z.of_nat i
  ∧ ∃ d, creations cs !! i = Some (type e, d, timestamp e, absoluteTimestamp e)
         ∧ dom d ⊆ dom (fields e).
Proof.
  intros Hcs. destruct (beside_stale_start stale cs Hcs) as [-> _].
  rewrite <- (creations_without_stale (length stale) cs).
  intros He. split; [by eapply log_entry_id|]. by apply log_entry_creation.
Qed.

Lemma log_entry_witness :
  leaves_suspended (length [stale_completion]) Scenario.key_beside_a_suspended_completion
  ∧ events (reg (run Scenario.key_beside_a_suspended_completion
                   (start_with [stale_completion]))) !! 0%nat
    = Some (logged 0 "type" (Scenario.key_basicData 30 "A") (Qc_of_Z 1) 1000 ∅ None)
  ∧ id (logged 0 "type" (Scenario.key_basicData 30 "A") (Qc_of_Z 1) 1000 ∅ None)
    = Z.of_nat 0.
Proof.
  assert (H0 : leaves_suspended (length [stale_completion])
                 Scenario.key_beside_a_suspended_completion)
    by (repeat constructor).
  assert (H : events (reg (run Scenario.key_beside_a_suspended_completion
                             (start_with [stale_completion]))) !! 0%nat
              = Some (logged 0 "type" (Scenario.key_basicData 30 "A") (Qc_of_Z 1) 1000 ∅ None))
    by (vm_compute; reflexivity).
  split; [exact H0|]. split; [exact H|].
  exact (proj1 (log_entry_is_the_creation_of_its_position _ _ _ _ H0 H)).
Defined.



(** X6.  In a session that may have started while completions of an earlier
    session were suspended, and in which none of these has resumed:
    [completeEvent] on an id that the session has not created is refused on
    the "not found" branch and changes nothing. *)
Theorem complete_of_unknown_id_is_refused
    (stale : list completion) (cs : list call) (k : Z) (d : gmap string value) :
  leaves_suspended (length stale) cs →
  k < 0 ∨ eventCounter (reg (run cs (start_with stale))) ≤ k →
  completeEvent_begin k d (reg (run cs (start_with stale))) = None
  ∧ step (run cs (start_with stale)) (Complete k d) = run cs (start_with stale).
Proof.
  intros Hcs. destruct (beside_stale_start stale cs Hcs) as [Hreg _].
  intros Hk. rewrite Hreg in Hk.
  pose proof (inv_reachable (without_stale (length stale) <$> cs)) as Hinv.
  assert (completeEvent_begin k d (reg (run cs (start_with stale))) = None) as Hnone.
  { rewrite Hreg. unfold completeEvent_begin.
    destruct (eventSlots _ !! k) as [sl|] eqn:Hsl; [|done].
    destruct (inv_key _ _ Hinv _ _ Hsl). lia. }
  split; [done|]. simpl. by rewrite Hnone.
Qed.

Lemma complete_of_unknown_id_witness :
  leaves_suspended (length [stale_completion]) Scenario.key_beside_a_suspended_completion
  ∧ (5 < 0 ∨ eventCounter (reg (run Scenario.key_beside_a_suspended_completion
                                  (start_with [stale_completion]))) ≤ 5)
  ∧ step (run Scenario.key_beside_a_suspended_completion (start_with [stale_completion]))
         (Complete 5 ∅)
    = run Scenario.key_beside_a_suspended_completion (start_with [stale_completion]).
Proof.
  assert (H0 : leaves_suspended (length [stale_completion])
                 Scenario.key_beside_a_suspended_completion)
    by (repeat constructor).
  assert (H : 5 < 0 ∨ eventCounter (reg (run Scenario.key_beside_a_suspended_completion
                                           (start_with [stale_completion]))) ≤ 5)
    by (right; vm_compute; discriminate).
  split; [exact H0|]. split; [exact H|].
  exact (proj2 (complete_of_unknown_id_is_refused [stale_completion]
                  Scenario.key_beside_a_suspended_completion 5 ∅ H0 H)).
Defined.

(** X7.  [completeEvent] does not know the session it was called in.  A
    completion of slot 0 that is still suspended when the next session
    starts resumes on the new registry: it overwrites the new slot 0, and
    its event, made in the session before, becomes the first entry of the
    new log.  The completion of the new slot 0 then changes nothing: the
    first event of the new session never reaches its log. *)
Theorem stale_completion_enters_the_next_session
    (c : completion) (shots shots' : option capture)
    (ty : string) (d dnew : gmap string value) (tv : Qc) (ta : Z) :
  c_eventId c = 0 →
  let fresh := (createEventSlot ty d tv ta initial).2 in
  events (completeEvent_resume c shots fresh) = [slot_event (completed_slot c shots)]
  ∧ ∀ cnew, completeEvent_begin 0 dnew fresh = Some cnew →
      events (completeEvent_resume cnew shots' (completeEvent_resume c shots fresh))
      = [slot_event (completed_slot c shots)].
Proof.
  intros Hc. destruct c as [k sl dc]. simpl in Hc. subst k. cbv zeta.
  split; [vm_compute; reflexivity|].
  intros cnew Hnew. vm_compute in Hnew. injection Hnew as <-.
  vm_compute. reflexivity.
Qed.

Lemma stale_completion_witness :
  c_eventId stale_completion = 0
  ∧ events (completeEvent_resume stale_completion None
              (createEventSlot "type" (Scenario.key_basicData 30 "A") (Qc_of_Z 1) 1000
                 initial).2)
    = [slot_event (completed_slot stale_completion None)].
Proof.
  assert (H : c_eventId stale_completion = 0) by reflexivity.
  split; [exact H|].
  exact (proj1 (stale_completion_enters_the_next_session stale_completion None None
                  "type" (Scenario.key_basicData 30 "A") ∅ (Qc_of_Z 1) 1000 H)).
Defined.

End SessionFacts.

(** ** The bounds cache over time *)

Module CacheHistoryFacts.
Import BoundsCache CacheHistory BoundsCacheFacts.

Lemma fresh_finish now c : fresh now (finish c) = fresh now c.
Proof. done. Qed.

Lemma settled_inv_idle c :
  boundsUpdateInProgress c = false → consistent c → settled_inv (idle c).
Proof.
  intros Hf Hc. split; simpl; [by right|done| |done].
  intros t Ht. by apply elem_of_nil in Ht.
Qed.

Lemma settled_inv_begin s caller now :
  settled_inv s →
  settled_inv (proceed caller (tasks s) s (updateCachedAppBounds_begin now (cache_of s))).
Proof.
  intros Hs. pose proof (single_flight_step s (Update caller now) (si_flight _ Hs)) as Hsf.
  simpl in Hsf. destruct Hs as [Hfl Hcons Hstale Hq].
  unfold updateCachedAppBounds_begin in *.
  destruct (boundsUpdateInProgress (cache_of s)) eqn:Hflag; [by split|].
  destruct (fresh now (cache_of s)) eqn:Hfresh; [by split|].
  destruct Hfl as [[Hflag' _]|[_ Hnil]]; [congruence|].
  split; [done|done| |].
  - simpl. rewrite Hnil. intros t Ht.
    apply list_elem_of_singleton in Ht as ->. done.
  - unfold awaiting_window in *. simpl. rewrite Hnil in *. simpl in *. lia.
Qed.

Lemma settled_inv_step s e : settled_inv s → settled_inv (step s e).
Proof.
  intros Hs. pose proof (single_flight_step s e (si_flight _ Hs)) as Hsf.
  destruct e as [caller now now'|caller now|n r|n r].
  - simpl. unfold getCachedAppBounds_begin.
    destruct (fresh now (cache_of s)); [by destruct Hs|].
    by apply settled_inv_begin.
  - by apply settled_inv_begin.
  - simpl in *. destruct (tasks s !! n) as [[caller now [w|]]|] eqn:Hn; try done.
    destruct (single_flight_tasks _ _ _ (si_flight _ Hs) Hn) as (Hflag & Htasks & ->).
    destruct Hs as [Hfl Hcons Hstale Hq].
    assert (Hnow : fresh now (cache_of s) = false).
    { apply (Hstale (mkTask caller now None)). rewrite Htasks. apply list_elem_of_here. }
    unfold awaiting_window in Hq. rewrite Htasks in Hq, Hsf |- *. simpl in Hq.
    unfold updateCachedAppBounds_window in *.
    destruct r as [[w|]|]; simpl in *.
    + destruct (same_window now w (cache_of s)); simpl in *.
      * split; simpl; [done|done| |unfold awaiting_window; simpl; lia].
        intros t Ht. by apply elem_of_nil in Ht.
      * split; simpl; [done|done| |unfold awaiting_window; simpl; lia].
        intros t Ht. by apply list_elem_of_singleton in Ht as ->.
    + split; simpl; [done|done| |unfold awaiting_window; simpl; lia].
      intros t Ht. by apply elem_of_nil in Ht.
    + split; simpl; [done|done| |unfold awaiting_window; simpl; lia].
      intros t Ht. by apply elem_of_nil in Ht.
  - simpl in *. destruct (tasks s !! n) as [[caller now [w|]]|] eqn:Hn; try done.
    destruct (single_flight_tasks _ _ _ (si_flight _ Hs) Hn) as (Hflag & Htasks & ->).
    destruct Hs as [Hfl Hcons Hstale Hq].
    unfold awaiting_window in Hq. rewrite Htasks in Hq, Hsf |- *. simpl in Hq.
    destruct r as [[b|]|]; simpl in *;
      (split; simpl; [done| | |unfold awaiting_window; simpl; lia]);
      try done; try (intros t Ht; by apply elem_of_nil in Ht).
Qed.

Lemma settled_inv_run es : ∀ s, settled_inv s → settled_inv (run es s).
Proof.
  induction es as [|e es IH]; intros s Hs; [done|].
  apply (IH (step s e)), settled_inv_step, Hs.
Qed.

(** X8.  The "same app window" shortcut of [updateCachedAppBounds] is never
    taken.  A call only gets as far as asking for the active window when the
    cache is not fresh at its clock reading, and the shortcut asks for the
    same freshness again: whichever window is found, its test is false, so
    every window that is found leads to a query of its bounds. *)
Theorem same_window_shortcut_is_never_taken
    (c0 : cache) (es : list event) (n : nat) (t : task) (w : Window.t) :
  boundsUpdateInProgress c0 = false →
  consistent c0 →
  tasks (run es (idle c0)) !! n = Some t →
  same_window (t_now t) w (cache_of (run es (idle c0))) = false
  ∧ (t_window t = None →
     boundsQueries (step (run es (idle c0)) (WindowSettled n (Resolved (Some w))))
     = S (boundsQueries (run es (idle c0)))).
Proof.
  intros Hf Hc Hn.
  pose proof (settled_inv_run es _ (settled_inv_idle c0 Hf Hc)) as Hs.
  assert (Hsw : same_window (t_now t) w (cache_of (run es (idle c0))) = false).
  { pose proof (si_stale _ Hs t (list_elem_of_lookup_2 _ _ _ Hn)) as Hst.
    pose proof (si_consistent _ Hs) as Hcons.
    unfold same_window, fresh, consistent in *.
    destruct (cachedAppWindow (cache_of (run es (idle c0)))) as [cw|]; [|done].
    destruct (cachedAppBounds (cache_of (run es (idle c0)))) as [cb|].
    - rewrite Hst. apply andb_false_r.
    - destruct Hcons as [_ Hcons]. by destruct Hcons. }
  split; [done|]. intros Hwin. simpl. rewrite Hn.
  destruct t as [caller now tw]. simpl in *. subst tw.
  unfold updateCachedAppBounds_window. by rewrite Hsw.
Qed.

Lemma same_window_shortcut_witness :
  (boundsUpdateInProgress stale_cache = false ∧ consistent stale_cache
   ∧ tasks (run [GetBounds 1 5000 5000] (idle stale_cache)) !! 0%nat
     = Some {| t_caller := 1; t_now := 5000; t_window := None |})
  ∧ same_window 5000 demo_window
      (cache_of (run [GetBounds 1 5000 5000] (idle stale_cache))) = false.
Proof.
  assert (H1 : boundsUpdateInProgress stale_cache = false) by reflexivity.
  assert (H2 : consistent stale_cache) by (split; intros _; simpl; eauto).
  assert (H3 : tasks (run [GetBounds 1 5000 5000] (idle stale_cache)) !! 0%nat
               = Some {| t_caller := 1; t_now := 5000; t_window := None |})
    by reflexivity.
  split; [done|].
  exact (proj1 (same_window_shortcut_is_never_taken stale_cache
                  [GetBounds 1 5000 5000] 0 _ demo_window H1 H2 H3)).
Defined.

(** X9.  The calls of [getCachedAppBounds] and [updateCachedAppBounds]
    replace the cache entry at most once per cache duration and never drop
    it (only [stopRecording] clears it).  Whatever the call or the answer
    that settles, either the entry (bounds, window, time stamp) stays as it
    is, or all three are replaced together and the new time stamp is at
    least 2000 ms after the one it replaces, unless there was no entry
    before. *)
Theorem cache_entry_is_replaced_at_most_once_per_duration
    (c0 : cache) (es : list event) (e : event) :
  boundsUpdateInProgress c0 = false →
  consistent c0 →
  let s := run es (idle c0) in
  let s' := step s e in
  entry (cache_of s') = entry (cache_of s)
  ∨ (is_Some (cachedAppBounds (cache_of s'))
     ∧ is_Some (cachedAppWindow (cache_of s'))
     ∧ (cachedAppBounds (cache_of s) = None
        ∨ 2000 ≤ lastBoundsUpdate (cache_of s') - lastBoundsUpdate (cache_of s))).
Proof.
  intros Hf Hc s s'.
  pose proof (settled_inv_run es _ (settled_inv_idle c0 Hf Hc)) as Hs. fold s in Hs.
  unfold s'. destruct e as [caller now now'|caller now|n r|n r]; simpl.
  - left. unfold getCachedAppBounds_begin, updateCachedAppBounds_begin.
    destruct (fresh now (cache_of s)); [done|].
    destruct (boundsUpdateInProgress (cache_of s)); [done|].
    by destruct (fresh now' (cache_of s)).
  - left. unfold updateCachedAppBounds_begin.
    destruct (boundsUpdateInProgress (cache_of s)); [done|].
    by destruct (fresh now (cache_of s)).
  - left. destruct (tasks s !! n) as [[caller now [w|]]|]; try done.
    unfold updateCachedAppBounds_window.
    destruct r as [[w|]|]; try done.
    by destruct (same_window now w (cache_of s)).
  - destruct (tasks s !! n) as [[caller now [w|]]|] eqn:Hn; try by left.
    destruct r as [[b|]|]; try by left.
    right. simpl. split; [eauto|]. split; [eauto|].
    pose proof (si_stale _ Hs _ (list_elem_of_lookup_2 _ _ _ Hn)) as Hst.
    unfold fresh in Hst. simpl in Hst.
    destruct (cachedAppBounds (cache_of s)); [|by left].
    right. apply bool_decide_eq_false in Hst. unfold BOUNDS_CACHE_DURATION in Hst. lia.
Qed.

Lemma cache_entry_witness :
  (boundsUpdateInProgress stale_cache = false ∧ consistent stale_cache)
  ∧ lastBoundsUpdate (cache_of
      (run [GetBounds 1 5000 5000; WindowSettled 0 (Resolved (Some other_window));
            BoundsSettled 0 (Resolved (Some demo_bounds))] (idle stale_cache)))
    = 5000.
Proof.
  assert (H1 : boundsUpdateInProgress stale_cache = false) by reflexivity.
  assert (H2 : consistent stale_cache) by (split; intros _; simpl; eauto).
  split; [done|].
  destruct (cache_entry_is_replaced_at_most_once_per_duration stale_cache
              [GetBounds 1 5000 5000; WindowSettled 0 (Resolved (Some other_window))]
              (BoundsSettled 0 (Resolved (Some demo_bounds))) H1 H2) as [_|_];
    reflexivity.
Defined.

Lemma counts_step s e :
  single_flight s →
  (boundsQueries s + awaiting_window s ≤ windowQueries s)%nat →
  (length (answers (step s e)) + length (tasks (step s e))
   = length (answers s) + length (tasks s) + (if is_call e then 1 else 0))%nat
  ∧ (windowQueries (step s e) ≤ windowQueries s + (if is_call e then 1 else 0))%nat
  ∧ (boundsQueries (step s e) + awaiting_window (step s e) ≤ windowQueries (step s e))%nat.
Proof.
  intros Hs Hq. unfold awaiting_window in *.
  destruct e as [caller now now'|caller now|n r|n r]; simpl.
  - unfold getCachedAppBounds_begin, updateCachedAppBounds_begin.
    destruct (fresh now (cache_of s)); simpl; [rewrite length_app; simpl; lia|].
    destruct (boundsUpdateInProgress (cache_of s)) eqn:Hflag; simpl;
      [rewrite length_app; simpl; lia|].
    destruct (fresh now' (cache_of s)); simpl; [rewrite length_app; simpl; lia|].
    destruct Hs as [[? _]|[_ Hnil]]; [congruence|]. rewrite Hnil in *. simpl in *. lia.
  - unfold updateCachedAppBounds_begin.
    destruct (boundsUpdateInProgress (cache_of s)) eqn:Hflag; simpl;
      [rewrite length_app; simpl; lia|].
    destruct (fresh now (cache_of s)); simpl; [rewrite length_app; simpl; lia|].
    destruct Hs as [[? _]|[_ Hnil]]; [congruence|]. rewrite Hnil in *. simpl in *. lia.
  - destruct (tasks s !! n) as [[caller now [w|]]|] eqn:Hn; try (simpl; lia).
    destruct (single_flight_tasks _ _ _ Hs Hn) as (Hflag & Htasks & ->).
    rewrite Htasks in *. simpl in Hq. unfold updateCachedAppBounds_window.
    destruct r as [[w|]|]; simpl; rewrite ?length_app; simpl; try lia.
    destruct (same_window now w (cache_of s)); simpl; rewrite ?length_app; simpl; lia.
  - destruct (tasks s !! n) as [[caller now [w|]]|] eqn:Hn; try (simpl; lia).
    destruct (single_flight_tasks _ _ _ Hs Hn) as (Hflag & Htasks & ->).
    rewrite Htasks in *. simpl in Hq.
    destruct r as [[b|]|]; simpl; rewrite ?length_app; simpl; lia.
Qed.

Lemma counts_run es : ∀ s,
  single_flight s →
  (boundsQueries s + awaiting_window s ≤ windowQueries s)%nat →
  (length (answers (run es s)) + length (tasks (run es s))
   = length (answers s) + length (tasks s) + calls_in es)%nat
  ∧ (windowQueries (run es s) ≤ windowQueries s + calls_in es)%nat
  ∧ (boundsQueries (run es s) + awaiting_window (run es s) ≤ windowQueries (run es s))%nat.
Proof.
  induction es as [|e es IH]; intros s Hs Hq.
  { unfold calls_in. simpl. lia. }
  destruct (counts_step s e Hs Hq) as (Ha & Hw & Hq').
  destruct (IH (step s e) (single_flight_step _ _ Hs) Hq') as (Ha' & Hw' & Hq'').
  change (run (e :: es) s) with (run es (step s e)).
  assert (calls_in (e :: es) = ((if is_call e then 1 else 0) + calls_in es)%nat) as ->.
  { unfold calls_in. rewrite filter_cons.
    destruct (is_call e); destruct (decide _); done. }
  lia.
Qed.

(** X10.  Every call is accounted for: from a cache at rest, the callers
    that have been answered and the calls that are suspended add up to the
    calls made; and no more queries of the active window are made than calls,
    nor more queries of bounds than queries of the window. *)
Theorem every_call_is_answered_or_suspended (c0 : cache) (es : list event) :
  boundsUpdateInProgress c0 = false →
  let s := run es (idle c0) in
  (length (answers s) + length (tasks s) = calls_in es)%nat
  ∧ (boundsQueries s ≤ windowQueries s)%nat
  ∧ (windowQueries s ≤ calls_in es)%nat.
Proof.
  intros Hf s.
  destruct (counts_run es (idle c0) (single_flight_idle c0 Hf)) as (Ha & Hw & Hq).
  { unfold awaiting_window. simpl. lia. }
  fold s in Ha, Hw, Hq. simpl in Ha, Hw. lia.
Qed.

Lemma every_call_witness :
  boundsUpdateInProgress empty = false
  ∧ (length (answers (run [GetBounds 1 0 0; GetBounds 2 1 1] (idle empty)))
     + length (tasks (run [GetBounds 1 0 0; GetBounds 2 1 1] (idle empty))) = 2)%nat.
Proof.
  assert (H : boundsUpdateInProgress empty = false) by reflexivity.
  split; [exact H|].
  exact (proj1 (every_call_is_answered_or_suspended empty
                  [GetBounds 1 0 0; GetBounds 2 1 1] H)).
Defined.

End CacheHistoryFacts.

(** ** The stop of a recorder process, for every program *)

Module SupervisorHistoryFacts.
Import Supervisor SupervisorHistory SupervisorFacts.



















End SupervisorHistoryFacts.

(** ** The scroll accumulator along any history *)

Module ScrollHistoryFacts.
Import ScrollAggregator ScrollHistory.

Lemma sum_rotation_snoc evs s :
  sum_rotation (evs ++ [s]) = sum_rotation evs + s_rotation s.
Proof.
  unfold sum_rotation. induction evs as [|a evs IH]; simpl; [lia|]. rewrite IH. lia.
Qed.

Lemma final_sample_snoc evs s : final_sample (evs ++ [s]) = Some s.
Proof. unfold final_sample. by rewrite foldl_app. Qed.

Lemma below_threshold_abs (n : Z) :
  (Qc_of_Z (Z.abs n) < Q2Qc (1 # 2))%Qc ↔ Z.abs n = 0.
Proof. apply ScrollFacts.below_threshold. lia. Qed.

Lemma coherent_step st i :
  coherent (scrollAccumulator st) → coherent (scrollAccumulator (step st i)).
Proof.
  intros Hc. destruct i as [now_start now e|now info| | |recording overlay]; simpl;
    try done.
  - unfold on_wheel. destruct (skipped e st); [done|].
    unfold coherent in *. simpl.
    destruct (events (scrollAccumulator st)) as [|first evs] eqn:Hev; simpl in *.
    + split; [unfold sum_rotation; simpl; lia|]. eauto.
    + destruct Hc as (Htot & _). rewrite Hev. simpl. split.
      * rewrite Htot. change (first :: evs ++ [?s]) with ((first :: evs) ++ [s]).
        rewrite sum_rotation_snoc. unfold sum_rotation. simpl. lia.
      * eexists. change (first :: evs ++ [?s]) with ((first :: evs) ++ [s]).
        rewrite final_sample_snoc. done.
  - unfold on_timeout, captureScrollSequence_begin. simpl.
    destruct (events (scrollAccumulator st)) as [|first evs] eqn:Hev; simpl.
    + unfold coherent. simpl. by rewrite Hev.
    + case_bool_decide; simpl; [done|]. unfold coherent in *. simpl.
      by rewrite Hev in *.
Qed.

Lemma coherent_history inputs : ∀ st,
  coherent (scrollAccumulator st) → coherent (scrollAccumulator (history inputs st)).
Proof.
  induction inputs as [|i inputs IH]; intros st Hc; [done|].
  apply IH, coherent_step, Hc.
Qed.

Lemma opened_before_step st i :
  steady i → opened_before (scrollAccumulator st) →
  opened_before (scrollAccumulator (step st i)).
Proof.
  intros Hi Ho. destruct i as [now_start now e|now info| | |recording overlay]; simpl;
    try done.
  - unfold on_wheel. destruct (skipped e st); [done|].
    unfold opened_before in *. simpl in *.
    destruct (events (scrollAccumulator st)) as [|first evs] eqn:Hev; simpl in *.
    + done.
    + by rewrite Hev.
  - unfold on_timeout, captureScrollSequence_begin. simpl.
    destruct (events (scrollAccumulator st)) as [|first evs] eqn:Hev; simpl.
    + unfold opened_before. simpl. by rewrite Hev.
    + case_bool_decide; simpl; [done|]. unfold opened_before in *. simpl.
      by rewrite Hev in *.
Qed.

Lemma opened_before_history inputs : ∀ st,
  Forall steady inputs → opened_before (scrollAccumulator st) →
  opened_before (scrollAccumulator (history inputs st)).
Proof.
  induction inputs as [|i inputs IH]; intros st Hs Ho; [done|].
  apply Forall_cons in Hs as [Hi Hs]. by apply IH, opened_before_step.
Qed.

(** X13.  After any history of wheel events, timer callbacks, completed
    slots, stops and changes of the overlay, what the callback of the
    debounce timer measures is computed from the events the accumulator
    holds at that time: the amount is the absolute value of the sum of their
    rotations and is at least 1, the direction is up exactly when the sum
    is positive, and the accumulator is left as it is.  The duration runs
    from [startTime], which the wheel listener reads from the clock before
    it reads the time stamp of the first event: when the clock never goes
    back between the two readings, the duration is at least the time since
    that time stamp.  The callback ends without a measure only when the
    accumulator is empty or the rotations sum to 0, and then the accumulator
    is empty afterwards. *)
Theorem scroll_measure_is_of_the_events_held
    (inputs : list input) (now : Z) (screen_info : value) :
  let st := history inputs at_rest in
  let held := events (scrollAccumulator st) in
  match on_timeout now screen_info st with
  | (AwaitBounds m, st') =>
      amount m = Z.abs (sum_rotation held)
      ∧ 1 ≤ amount m
      ∧ (direction m = "up" ↔ 0 < sum_rotation held)
      ∧ duration m = now - startTime (scrollAccumulator st)
      ∧ (Forall steady inputs →
         ∃ first, head held = Some first ∧ now - s_timestamp first ≤ duration m)
      ∧ scrollAccumulator st' = scrollAccumulator st
      ∧ scrollDebounceTimer st' = None
  | (Finished, st') =>
      sum_rotation held = 0 ∧ events (scrollAccumulator st') = []
  end.
Proof.
  intros st held.
  assert (Hc : coherent (scrollAccumulator st)) by (by apply coherent_history).
  assert (Ho : Forall steady inputs → opened_before (scrollAccumulator st))
    by (intros Hs; by apply opened_before_history).
  unfold on_timeout, captureScrollSequence_begin. simpl. fold held.
  unfold coherent in Hc. unfold opened_before in Ho. fold held in Hc, Ho.
  destruct held as [|first evs] eqn:Hheld; [done|].
  destruct Hc as (Htot & _). rewrite Htot.
  pose proof (below_threshold_abs (sum_rotation (first :: evs))) as Hthr.
  case_bool_decide as Hlow; simpl;
    change (s_rotation first + sum_rotation evs) with (sum_rotation (first :: evs)).
  - split; [|done]. apply Hthr in Hlow. lia.
  - split; [done|]. split; [rewrite Hthr in Hlow; lia|].
    split; [|split; [done|split; [|done]]].
    + destruct (Z.ltb_spec 0 (sum_rotation (first :: evs))); split; try done; lia.
    + intros Hs. exists first. split; [done|]. specialize (Ho Hs). lia.
Qed.

End ScrollHistoryFacts.

(** ** What an event stores of the window *)

Module CoordinatesDataFacts.
Import Coordinates.

(** X14.  The [additionalData] of a click or of a scroll holds at most the
    key [appRelative]; it holds that key exactly when bounds were found by
    a method other than fallback, and the value is then the relative
    position for those bounds.  The desktop position can be recovered from
    it: the relative position plus the origin of the window stored beside
    it. *)
Theorem relative_coordinates_are_stored_only_for_accurate_bounds
    (desktopX desktopY : Z) (appBounds : option Bounds.t) :
  let appRelative := getApplicationRelativeCoordinates desktopX desktopY appBounds in
  let data := additionalData appRelative appBounds in
  (∀ k v, data !! k = Some v →
     k = "appRelative"
     ∧ ∃ b r, appBounds = Some b ∧ Bounds.method b ≠ "fallback"
              ∧ appRelative = Some r ∧ v = to_value r
              ∧ x r + aw_x (applicationWindow r) = desktopX
              ∧ y r + aw_y (applicationWindow r) = desktopY)
  ∧ (∀ b, appBounds = Some b → Bounds.method b ≠ "fallback" →
       is_Some (data !! "appRelative"))
  ∧ (∀ b, appBounds = Some b → Bounds.method b = "fallback" → data = ∅)
  ∧ (appBounds = None → data = ∅).
Proof.
  cbv zeta. destruct appBounds as [b|]; simpl.
  - destruct (decide (Bounds.method b = "fallback")) as [Hm|Hm].
    + split; [intros k v Hk; by rewrite lookup_empty in Hk|].
      split; [intros ? [= <-] ?; done|]. done.
    + split.
      * intros k v [<- <-]%lookup_singleton_Some. split; [done|].
        eexists b, _. split; [done|]. split; [done|]. split; [done|].
        split; [done|]. simpl. lia.
      * split; [intros ? _ _; rewrite lookup_singleton_eq; eauto|].
        split; [intros ? [= <-] ?; done|done].
  - split; [intros k v Hk; by rewrite lookup_empty in Hk|]. done.
Qed.

End CoordinatesDataFacts.

(** ** The keyboard *)

Module KeyboardFacts.
Import Keyboard.

Lemma keycodeMap_named k v : keycodeMap !! k = Some v → (k, v) ∈ named.
Proof.
  intros H. apply elem_of_map_to_list in H.
  assert (map_to_list keycodeMap = named) as <- by (vm_compute; reflexivity). done.
Qed.

Lemma named_distinct :
  Forall (λ p1, Forall (λ p2 : Z * string, p1.2 = p2.2 → p1.1 = p2.1) named) named.
Proof. compute_done. Qed.

Lemma named_not_unknown :
  Forall (λ p : Z * string, String.prefix "UNKNOWN_" p.2 = false) named.
Proof. compute_done. Qed.

Lemma named_not_shadowed :
  Forall (λ p : Z * string, p.2 ∉ "Enter" :: shadowed_names) named.
Proof. compute_done. Qed.

Lemma prefix_unknown s : String.prefix "UNKNOWN_" ("UNKNOWN_" +:+ s) = true.
Proof. simpl. by destruct s. Qed.

(** X15.  The name [getKeyName] gives to a key code identifies it: two key
    codes with the same name are the same, whether the name comes from
    [keycodeMap] or is made of the code. *)
Theorem key_name_identifies_the_key (k1 k2 : Z) :
  getKeyName k1 = getKeyName k2 → k1 = k2.
Proof.
  unfold getKeyName.
  destruct (keycodeMap !! k1) as [v1|] eqn:H1, (keycodeMap !! k2) as [v2|] eqn:H2; simpl.
  - intros ->. apply keycodeMap_named in H1, H2.
    pose proof named_distinct as Hd. rewrite Forall_forall in Hd.
    specialize (Hd _ H1). rewrite Forall_forall in Hd. by apply (Hd _ H2).
  - intros ->. apply keycodeMap_named in H1.
    pose proof named_not_unknown as Hd. rewrite Forall_forall in Hd.
    specialize (Hd _ H1). simpl in Hd. by destruct (pretty k2).
  - intros <-. apply keycodeMap_named in H2.
    pose proof named_not_unknown as Hd. rewrite Forall_forall in Hd.
    specialize (Hd _ H2). simpl in Hd. by destruct (pretty k1).
  - intros H. simpl in H. by simplify_eq.
Qed.

Ltac slot_lookup :=
  repeat first
    [ rewrite lookup_insert_eq | rewrite lookup_insert_ne by done
    | rewrite lookup_singleton_eq | rewrite lookup_singleton_ne by done ].

Ltac flag_iff :=
  let H := fresh in
  split; intros H;
  [ first [ by auto
          | exfalso; repeat (apply elem_of_cons in H as [H|H]; [discriminate|]);
            by apply elem_of_nil in H ]
  | first [ compute_done | by destruct H | done ] ].

(** What [getKeyCombination] answers. *)
Lemma getKeyCombination_spec (darwin : bool) (st : keys) (keycode : Z) (keyName : string) :
  let m := if darwin then "Cmd" else "Ctrl" in
  match getKeyCombination darwin st keycode keyName with
  | None =>
      keycode ∈ [42; 54; 29; 3613; 56; 3640]
      ∨ (shiftPressed st = false ∧ ctrlPressed st = false
         ∧ altPressed st = false ∧ cmdPressed st = false)
  | Some c =>
(keycode ∉ [42; 54; 29; 3613; 56; 3640])
      ∧ key c = keyName
      ∧ modifiers c ≠ []
      ∧ modifiers c `sublist_of` [m; "Alt"; "Shift"]
      ∧ (m ∈ modifiers c ↔ ctrlPressed st = true ∨ cmdPressed st = true)
      ∧ ("Alt" ∈ modifiers c ↔ altPressed st = true)
      ∧ ("Shift" ∈ modifiers c ↔ shiftPressed st = true)
      ∧ combination c = join "+" (modifiers c ++ [keyName])
      ∧ name c = default (combination c) (combinationMap !! combination c)
  end.
Proof.
  unfold getKeyCombination. case_bool_decide as Hk; [by left|].
  destruct st as [sh ct al cm].
  destruct darwin, sh, ct, al, cm; cbn -[combinationMap join]; try (right; done);
    (split; [done|]); (split; [done|]); (split; [done|]);
    (split; [repeat first [apply sublist_nil | apply sublist_skip | apply sublist_cons]|]);
    (split; [flag_iff|]); (split; [flag_iff|]); (split; [flag_iff|]); done.
Qed.

Lemma key_name_not_shadowed (keycode : Z) : getKeyName keycode ∉ "Enter" :: shadowed_names.
Proof.
  unfold getKeyName. destruct (keycodeMap !! keycode) as [v|] eqn:H; simpl.
  - apply keycodeMap_named in H.
    pose proof named_not_shadowed as Hd. rewrite Forall_forall in Hd.
    apply (Hd _ H).
  - unfold shadowed_names. rewrite !not_elem_of_cons.
    repeat split; try discriminate. apply not_elem_of_nil.
Qed.

Lemma combinationMap_enter :
  map_Forall (λ k v, v ∈ ["Ctrl+Enter"; "Cmd+Enter"] → k ∈ ["Ctrl+ENTER"; "Cmd+ENTER"])
    combinationMap.
Proof. compute_done. Qed.

Lemma enter_combination (mods : list string) (n : string) :
  n ∉ "Enter" :: shadowed_names →
  mods ∈ [["Cmd"]; ["Cmd"; "Alt"]; ["Cmd"; "Shift"]; ["Cmd"; "Alt"; "Shift"];
          ["Ctrl"]; ["Ctrl"; "Alt"]; ["Ctrl"; "Shift"]; ["Ctrl"; "Alt"; "Shift"];
          ["Alt"]; ["Shift"]; ["Alt"; "Shift"]] →
  join "+" mods +:+ "+" +:+ n ∉ ["Ctrl+ENTER"; "Cmd+ENTER"; "Ctrl+Enter"; "Cmd+Enter"].
Proof.
  intros Hn Hp Hin. apply Hn. clear Hn.
  rewrite !elem_of_cons, elem_of_nil in Hp.
  rewrite !elem_of_cons, elem_of_nil in Hin.
  destruct Hp as [->|[->|[->|[->|[->|[->|[->|[->|[->|[->|[->|[]]]]]]]]]]]];
    destruct Hin as [H|[H|[H|[H|[]]]]]; vm_compute in H; simplify_eq; compute_done.
Qed.

(** X16.  Where [keycodeMap] names a key code twice, the later name
    replaces the earlier: no key is ever reported as ENTER, UP, DOWN, LEFT,
    RIGHT, HOME, END, PAGE_UP, PAGE_DOWN, INSERT or DELETE.  So no
    combination is ever given the names that [combinationMap] holds for
    Ctrl+ENTER and Cmd+ENTER. *)
Theorem shadowed_key_names_are_never_reported (keycode : Z) :
(getKeyName keycode ∉ shadowed_names)
  ∧ ∀ darwin st c,
      getKeyCombination darwin st keycode (getKeyName keycode) = Some c →
      name c ∉ ["Ctrl+Enter"; "Cmd+Enter"].
Proof.
  pose proof (key_name_not_shadowed keycode) as Hn.
  split; [by apply not_elem_of_cons in Hn as [_ ?]|].
  intros darwin st c Hc.
  assert (combination c ∉ ["Ctrl+ENTER"; "Cmd+ENTER"; "Ctrl+Enter"; "Cmd+Enter"]) as Hcomb.
  { revert Hc Hn. generalize (getKeyName keycode). intros n Hc Hn.
    unfold getKeyCombination in Hc. case_bool_decide; [done|].
    destruct st as [sh ct al cm].
    destruct darwin, sh, ct, al, cm; cbn -[combinationMap join] in Hc; try done;
      apply (inj Some) in Hc as <-; cbn [combination];
      (apply (enter_combination _ n Hn); compute_done). }
  pose proof (getKeyCombination_spec darwin st keycode (getKeyName keycode)) as Hs.
  rewrite Hc in Hs. destruct Hs as (_ & _ & _ & _ & _ & _ & _ & _ & ->).
  destruct (combinationMap !! combination c) as [v|] eqn:Hv.
  - intros Hbad. change (v ∈ ["Ctrl+Enter"; "Cmd+Enter"]) in Hbad.
    apply Hcomb. pose proof (combinationMap_enter _ _ Hv Hbad) as Hk.
    revert Hk. rewrite !elem_of_cons. tauto.
  - intros Hbad. change (combination c ∈ ["Ctrl+Enter"; "Cmd+Enter"]) in Hbad.
    apply Hcomb. revert Hbad. rewrite !elem_of_cons. tauto.
Qed.

Lemma shouldCapture_modifier k imp :
  k ∈ modifier_keys → shouldCapture k imp = imp.
Proof.
  unfold shouldCapture. intros Hk.
  unfold modifier_keys in Hk. rewrite !elem_of_cons in Hk.
  destruct Hk as [->|[->|[->|[->|[->|[->|[->|[->|Hk]]]]]]]]; try done.
  by apply elem_of_nil in Hk.
Qed.

Lemma key_is_a_number U k :
  isImportant (key_of U k) = None ↔ ∃ c, U k = Code c ∧ c ≠ 0.
Proof.
  unfold key_of. destruct (U k) as [|c|n]; simpl.
  - split; [done|]. by intros (c & ? & _).
  - destruct (decide (c = 0)) as [->|Hc]; simpl.
    + split; [done|]. intros (c & [= <-] & ?). done.
    + split; [eauto|done].
  - destruct (decide (n = EmptyString)); simpl; (split; [done|]); by intros (c & ? & _).
Qed.

(** X17.  While a recording is on and the key is neither F9 nor Escape,
    the [keydown] listener throws, before it creates any slot, exactly when
    [UiohookKey] gives a number other than 0 for the key code (as a table
    from key names to key codes does where the key code is itself a digit
    name).  It creates a slot exactly when a recording is on, the key is
    neither F9 nor Escape nor the R of Ctrl+Shift+R, [UiohookKey] gives no
    such number, and, if the key is one of the eight modifier keys, the
    name found for it holds one of the words of [importantKeys].  Apart
    from that every key is recorded, whatever the key lists of the
    listener hold. *)
Theorem keydown_creates_a_slot_iff
    (darwin : bool) (UiohookKey : Z → hook_entry) (isRecording : bool)
    (keycode : Z) (st : keys) :
  let st' := track_down keycode st in
  let out := (keydown darwin UiohookKey isRecording keycode st).2 in
  ((∃ ty d, out = Slot ty d)
   ↔ isRecording = true
     ∧ keycode ≠ 67 ∧ keycode ≠ 1
     ∧ ¬ (ctrlPressed st' = true ∧ shiftPressed st' = true ∧ keycode = 19)
     ∧ ∃ imp, isImportant (key_of UiohookKey keycode) = Some imp
              ∧ (keycode ∈ modifier_keys → imp = true))
  ∧ (out = Throws
     ↔ isRecording = true ∧ keycode ≠ 67 ∧ keycode ≠ 1
       ∧ ∃ c, UiohookKey keycode = Code c ∧ c ≠ 0).
Proof.
  intros st' out. unfold out, keydown. cbn [snd]. fold st'. clearbody st'.
  rewrite <- key_is_a_number.
  destruct isRecording; simpl.
  2: { split; (split; [|by intros [? _]]).
       - intros (ty & d & H). by repeat case_match.
       - intros H. by repeat case_match. }
  rewrite !andb_true_r.
  destruct (decide (keycode = 67)) as [->|H67].
  { simpl. split; (split; [|by intros (_ & ? & _)]); [by intros (? & ? & ?)|done]. }
  rewrite (bool_decide_eq_false_2 (keycode = 67)) by done.
  destruct (decide (keycode = 1)) as [->|H1].
  { simpl. split; (split; [|by intros (_ & _ & ? & _)]); [by intros (? & ? & ?)|done]. }
  rewrite (bool_decide_eq_false_2 (keycode = 1)) by done. simpl.
  rewrite andb_false_r.
  destruct (isImportant (key_of UiohookKey keycode)) as [imp|] eqn:Himp.
  2: { split; [|done].
       split; [by intros (? & ? & ?)|]. by intros (_ & _ & _ & _ & ? & ? & _). }
  split; [|split; [intros H; by repeat case_match|by intros (_ & _ & _ & ?)]].
  destruct (ctrlPressed st' && shiftPressed st' && bool_decide (keycode = 19)) eqn:Hsc.
  { simpl. rewrite andb_false_r.
    apply andb_true_iff in Hsc as [[? ?]%andb_true_iff ?%bool_decide_eq_true].
    split; [by intros (? & ? & ?)|]. intros (_ & _ & _ & Hn & _). by destruct Hn. }
  simpl. rewrite !andb_true_r.
  assert (¬ (ctrlPressed st' = true ∧ shiftPressed st' = true ∧ keycode = 19)) as Hno.
  { intros (Hc & Hs & ->). by rewrite Hc, Hs in Hsc. }
  destruct (decide (keycode ∈ modifier_keys)) as [Hm|Hm].
  - rewrite (bool_decide_eq_true_2 _ Hm), (shouldCapture_modifier _ _ Hm). simpl.
    rewrite orb_false_r. destruct imp.
    + split; [|intros _; destruct (getKeyCombination _ _ _ _); eauto].
      intros _. split; [done|]. split; [done|]. split; [done|]. split; [done|]. eauto.
    + split; [by intros (? & ? & ?)|].
      intros (_ & _ & _ & _ & imp & [= <-] & H). by specialize (H Hm).
  - rewrite (bool_decide_eq_false_2 _ Hm). simpl. rewrite orb_true_r.
    split; [|intros _; destruct (getKeyCombination _ _ _ _); eauto].
    intros _. split; [done|]. split; [done|]. split; [done|]. split; [done|].
    exists imp. split; [done|]. by intros ?.
Qed.

(** X18.  The slot of a key press holds the key code and its name.  It is
    of type key_combination exactly when the key is none of the Shift, Ctrl
    and Alt keys and a modifier is down; its modifiers are then, in this
    order and once each, Cmd (on macOS, Ctrl elsewhere) for Ctrl or Cmd,
    Alt, Shift, and its combination is these and the key name joined by
    [+].  Otherwise it is of type type and holds no combination. *)
Theorem key_slot_reports_the_modifiers_down
    (darwin : bool) (UiohookKey : Z → hook_entry) (isRecording : bool)
    (keycode : Z) (st : keys) (ty : string) (d : gmap string value) :
  (keydown darwin UiohookKey isRecording keycode st).2 = Slot ty d →
  let st' := track_down keycode st in
  let m := if darwin then "Cmd" else "Ctrl" in
  d !! "keycode" = Some (VInt keycode)
  ∧ d !! "key" = Some (VStr (getKeyName keycode))
  ∧ ((ty = "type"
      ∧ d !! "combination" = None
      ∧ (keycode ∈ [42; 54; 29; 3613; 56; 3640]
         ∨ (shiftPressed st' = false ∧ ctrlPressed st' = false
            ∧ altPressed st' = false ∧ cmdPressed st' = false)))
     ∨ (ty = "key_combination"
        ∧ (keycode ∉ [42; 54; 29; 3613; 56; 3640])
        ∧ ∃ mods,
            mods ≠ []
            ∧ mods `sublist_of` [m; "Alt"; "Shift"]
            ∧ (m ∈ mods ↔ ctrlPressed st' = true ∨ cmdPressed st' = true)
            ∧ ("Alt" ∈ mods ↔ altPressed st' = true)
            ∧ ("Shift" ∈ mods ↔ shiftPressed st' = true)
            ∧ d !! "modifiers" = Some (VArr (VStr <$> mods))
            ∧ d !! "combination"
              = Some (VStr (join "+" (mods ++ [getKeyName keycode]))))).
Proof.
  intros H st' m. unfold keydown in H. cbn [snd] in H. fold st' in H. clearbody st'.
  repeat match type of H with
         | (if ?b then _ else _) = _ => destruct b; try discriminate
         | match isImportant ?k with Some _ => _ | None => _ end = _ =>
             destruct (isImportant k); try discriminate
         end.
  pose proof (getKeyCombination_spec darwin st' keycode (getKeyName keycode)) as Hc.
  cbv zeta in Hc. fold m in Hc.
  destruct (getKeyCombination darwin st' keycode (getKeyName keycode)) as [c|];
    injection H as <- <-.
  - split; [by slot_lookup|]. split; [by slot_lookup|]. right.
    destruct Hc as (Hk & _ & Hne & Hsub & Hm & Ha & Hs & Hcomb & _).
    split; [done|]. split; [done|]. exists (modifiers c).
    split; [done|]. split; [done|]. split; [done|]. split; [done|]. split; [done|].
    split; [by slot_lookup|]. slot_lookup. by rewrite Hcomb.
  - split; [by slot_lookup|]. split; [by slot_lookup|]. left.
    split; [done|]. split; [by slot_lookup|]. done.
Qed.

Lemma key_slot_witness :
  (keydown false (λ _, Missing) true 46 (track_down 29 released)).2
  = Slot "key_combination"
      {[ "keycode" := VInt 46; "key" := VStr "C"; "combination" := VStr "Ctrl+C";
         "combinationName" := VStr "Copy"; "modifiers" := VArr [VStr "Ctrl"] ]}
  ∧ ({[ "keycode" := VInt 46; "key" := VStr "C"; "combination" := VStr "Ctrl+C";
        "combinationName" := VStr "Copy"; "modifiers" := VArr [VStr "Ctrl"] ]}
     : gmap string value) !! "key" = Some (VStr (getKeyName 46)).
Proof.
  assert (H : (keydown false (λ _, Missing) true 46 (track_down 29 released)).2
              = Slot "key_combination"
                  {[ "keycode" := VInt 46; "key" := VStr "C";
                     "combination" := VStr "Ctrl+C";
                     "combinationName" := VStr "Copy";
                     "modifiers" := VArr [VStr "Ctrl"] ]})
    by (vm_compute; reflexivity).
  split; [exact H|].
  exact (proj1 (proj2 (key_slot_reports_the_modifiers_down _ _ _ _ _ _ _ H))).
Defined.

Lemma key_name_witness : getKeyName 30 = getKeyName 30 ∧ 30 = 30.
Proof.
  split; [reflexivity|]. exact (key_name_identifies_the_key 30 30 eq_refl).
Defined.

End KeyboardFacts.

(** ** The frames taken from the video *)

Module FramesFacts.
Import Frames.

Lemma inv_two : (/ two)%Qc = Q2Qc (1 # 2).
Proof. apply Qc_is_canon. reflexivity. Qed.

Ltac qc_order :=
  repeat match goal with
         | H : ¬ (_ ≤ _)%Qc |- _ => apply Qcnot_le_lt in H
         end;
  unfold Qcdiv in *; rewrite ?inv_two in *;
  repeat (progress (unfold Qcminus, Qcle, Qclt, Qcmult, Qcplus, Qcopp, Q2Qc, eps in *;
                    cbn [this] in * ));
  repeat (rewrite !Qred_correct in * );
  lra.

Lemma clamp_range duration t :
  (0 ≤ clamp duration t)%Qc ∧ (clamp duration t ≤ Math_max 0%Qc (duration - eps))%Qc.
Proof.
  unfold clamp, Math_min, Math_max. repeat case_bool_decide; split; qc_order.
Qed.

Lemma clamp_mid_mono duration a b c :
  (a ≤ b)%Qc → (b ≤ c)%Qc →
  (clamp duration ((a + b) / two) ≤ clamp duration ((b + c) / two))%Qc.
Proof.
  intros. unfold clamp, Math_min, Math_max. repeat case_bool_decide; qc_order.
Qed.

Lemma clamp_mid_last duration a b :
  (a ≤ b)%Qc →
  (clamp duration ((a + b) / two) ≤ clamp duration ((b + duration) / two))%Qc.
Proof.
  intros. unfold clamp, Math_min, Math_max. repeat case_bool_decide; qc_order.
Qed.


Lemma insert_by_time_sorted e l :
  Sorted by_time l → Sorted by_time (insert_by_time e l).
Proof.
  induction l as [|y rest IH]; intros Hs; simpl.
  { repeat constructor. }
  case_bool_decide as Hle.
  - constructor; [done|]. by constructor.
  - apply Sorted_inv in Hs as [Hs Hhd]. constructor; [by apply IH|].
    apply Qcnot_le_lt, Qclt_le_weak in Hle.
    destruct rest as [|z rest]; simpl.
    + by constructor.
    + case_bool_decide; constructor; [done|]. by apply HdRel_inv in Hhd.
Qed.

Lemma sort_by_time_sorted l : Sorted by_time (sort_by_time l).
Proof.
  induction l as [|e l IH]; simpl; [constructor|]. by apply insert_by_time_sorted.
Qed.

Lemma insert_by_time_perm e l : insert_by_time e l ≡ₚ e :: l.
Proof.
  induction l as [|y rest IH]; simpl; [done|].
  case_bool_decide; [done|]. rewrite IH. apply Permutation_swap.
Qed.

Lemma sort_by_time_perm l : sort_by_time l ≡ₚ l.
Proof.
  induction l as [|e l IH]; simpl; [done|]. by rewrite insert_by_time_perm, IH.
Qed.

Lemma event_frames_length duration events : ∀ i,
  length (event_frames duration i events) = length events.
Proof. induction events as [|cur rest IH]; intros i; simpl; [done|]. by rewrite IH. Qed.

Lemma event_frames_all duration events : ∀ i,
  Forall (λ f, is_event_frame f = true
               ∧ (0 ≤ f_t f)%Qc
               ∧ (f_t f ≤ Math_max 0%Qc (duration - eps))%Qc)
    (event_frames duration i events).
Proof.
  induction events as [|cur rest IH]; intros i; simpl; constructor; [|apply IH].
  split; [done|]. apply clamp_range.
Qed.

Lemma event_frames_sorted duration events : ∀ i,
  Sorted by_time events → Sorted not_later (event_frames duration i events).
Proof.
  induction events as [|cur rest IH]; intros i Hs; simpl; [constructor|].
  apply Sorted_inv in Hs as [Hs Hhd]. constructor; [by apply IH|].
  destruct rest as [|next rest]; simpl; [constructor|].
  constructor. unfold not_later. simpl.
  apply HdRel_inv in Hhd. apply Sorted_inv in Hs as [_ Hhd'].
  destruct rest as [|next' rest].
  - by apply clamp_mid_last.
  - apply HdRel_inv in Hhd'. by apply clamp_mid_mono.
Qed.

Lemma event_frames_named duration events : ∀ i e k,
  e ∈ events → e.1 = Some k →
  ∃ f, f ∈ event_frames duration i events
       ∧ f_id f = EventId k ∧ f_file f = "event_" +:+ pretty k +:+ ".png".
Proof.
  induction events as [|cur rest IH]; intros i e k Hin Hk.
  { by apply elem_of_nil in Hin. }
  apply elem_of_cons in Hin as [->|Hin]; simpl.
  - eexists. split; [apply list_elem_of_here|]. by rewrite Hk.
  - destruct (IH (S i) e k Hin Hk) as (f & Hf & ?). exists f.
    split; [by apply elem_of_cons; right|done].
Qed.

Lemma requests_event_frames includeFinal duration session_events :
  filter (λ f, is_event_frame f = true) (requests includeFinal duration session_events)
  = event_frames duration 0 (sort_by_time (timed session_events)).
Proof.
  unfold requests. cbv zeta. rewrite !filter_app.
  rewrite filter_cons_False by done. rewrite filter_nil. simpl.
  set (events := sort_by_time (timed session_events)).
  assert (filter (λ f, is_event_frame f = true) (event_frames duration 0 events)
          = event_frames duration 0 events) as ->.
  { pose proof (event_frames_all duration events 0%nat) as Hall.
    induction Hall as [|f fs [Hf _] _ IH]; [done|].
    rewrite filter_cons_True by done. by rewrite IH. }
  destruct (includeFinal && _ && _); [|by rewrite filter_nil, app_nil_r].
  destruct (events !! pred (length events)); [|by rewrite filter_nil, app_nil_r].
  rewrite filter_cons_False by done. by rewrite filter_nil, app_nil_r.
Qed.

(** X19.  When [extractPreActionFrames] resolves, every grab has
    succeeded, and the result holds the initial frame first, then one frame
    for each event of the session file whose time stamp is a number, then
    the final frame if it is asked for, the video is not empty and there is
    such an event.  An event with an [id] has its frame under that [id], in
    the file named after it. *)
Theorem one_frame_for_each_timed_event
    (grabFrameAt : string → Qc → bool) (includeFinal : bool) (duration : Qc)
    (session_events : list session_event) (results : list frame) :
  extractPreActionFrames grabFrameAt includeFinal duration session_events
  = Some results →
  let n := length (timed session_events) in
  Forall (λ f, grabFrameAt (f_file f) (f_t f) = true) results
  ∧ length results
    = (1 + n + (if includeFinal && bool_decide (0 < duration)%Qc
                   && bool_decide (0 < n)%nat then 1 else 0))%nat
  ∧ (∃ t, results !! 0%nat = Some {| f_id := NoId; f_t := t;
                                     f_file := "initial_screen.png" |})
  ∧ length (filter (λ f, is_event_frame f = true) results) = n
  ∧ ∀ k t, {| e_id := Some k; e_timestamp := Some t |} ∈ session_events →
      ∃ f, f ∈ results ∧ f_id f = EventId k
           ∧ f_file f = "event_" +:+ pretty k +:+ ".png".
Proof.
  unfold extractPreActionFrames. cbv zeta.
  destruct (forallb _ _) eqn:Hall; [|done]. intros [= <-].
  pose proof (sort_by_time_perm (timed session_events)) as Hperm.
  pose proof (Permutation_length Hperm) as Hlen.
  split; [|split; [|split; [|split]]].
  - apply Forall_forall. intros f Hf. rewrite forallb_forall in Hall.
    apply Hall. by apply list_elem_of_In.
  - unfold requests. cbv zeta. rewrite !length_app, event_frames_length, Hlen. simpl.
    destruct (includeFinal && _ && bool_decide (0 < length (timed session_events))%nat)
      eqn:Hfin; [|simpl; lia].
    apply andb_true_iff in Hfin as [_ Hpos%bool_decide_eq_true].
    destruct (sort_by_time (timed session_events) !! _) eqn:Hlast; [simpl; lia|].
    apply lookup_ge_None in Hlast. lia.
  - eexists. reflexivity.
  - by rewrite requests_event_frames, event_frames_length.
  - intros k t Hin.
    assert ((Some k, t) ∈ sort_by_time (timed session_events)) as Hs.
    { rewrite Hperm. unfold timed. apply list_elem_of_omap. eexists. split; [exact Hin|done]. }
    destruct (event_frames_named duration _ 0%nat _ k Hs eq_refl) as (f & Hf & ? & ?).
    exists f. split; [|done]. unfold requests. cbv zeta.
    apply elem_of_app. right. apply elem_of_app. by left.
Qed.

Lemma one_frame_witness :
  extractPreActionFrames (λ _ _, true) true (Qc_of_Z 10) two_events
  = Some (requests true (Qc_of_Z 10) two_events)
  ∧ length (requests true (Qc_of_Z 10) two_events) = 4%nat.
Proof.
  assert (H : extractPreActionFrames (λ _ _, true) true (Qc_of_Z 10) two_events
              = Some (requests true (Qc_of_Z 10) two_events))
    by (vm_compute; reflexivity).
  split; [exact H|].
  exact (proj1 (proj2 (one_frame_for_each_timed_event _ _ _ _ _ H))).
Defined.

(** X20.  The frames of the events are taken inside the video and in the
    order of the events' times: each time lies between 0 and the duration
    less a millisecond (0 when the video is shorter), and none is earlier
    than the one before it in the result. *)
Theorem event_frames_are_inside_the_video_and_in_time_order
    (grabFrameAt : string → Qc → bool) (includeFinal : bool) (duration : Qc)
    (session_events : list session_event) (results : list frame) :
  extractPreActionFrames grabFrameAt includeFinal duration session_events
  = Some results →
  let frames := filter (λ f, is_event_frame f = true) results in
  Forall (λ f, (0 ≤ f_t f)%Qc ∧ (f_t f ≤ Math_max 0%Qc (duration - eps))%Qc) frames
  ∧ StronglySorted not_later frames.
Proof.
  unfold extractPreActionFrames. cbv zeta.
  destruct (forallb _ _); [|done]. intros [= <-].
  rewrite requests_event_frames. split.
  - eapply Forall_impl; [apply event_frames_all|]. by intros f (_ & ? & ?).
  - apply Sorted_StronglySorted.
    + intros f g h Hfg Hgh. unfold not_later in *. by etrans.
    + apply event_frames_sorted, sort_by_time_sorted.
Qed.

Lemma event_frames_witness :
  extractPreActionFrames (λ _ _, true) true (Qc_of_Z 10) two_events
  = Some (requests true (Qc_of_Z 10) two_events)
  ∧ StronglySorted not_later
      (filter (λ f, is_event_frame f = true) (requests true (Qc_of_Z 10) two_events)).
Proof.
  assert (H : extractPreActionFrames (λ _ _, true) true (Qc_of_Z 10) two_events
              = Some (requests true (Qc_of_Z 10) two_events))
    by (vm_compute; reflexivity).
  split; [exact H|].
  exact (proj2 (event_frames_are_inside_the_video_and_in_time_order _ _ _ _ _ H)).
Defined.

End FramesFacts.

(** ** Where the bounds of an event come from *)

Module BoundsOriginFacts.
Import BoundsCache CacheHistory RawBounds.

Lemma run_snoc es e s : run (es ++ [e]) s = step (run es s) e.
Proof. unfold run. by rewrite foldl_app. Qed.

(** X21.  The bounds cache invents nothing: bounds that a caller is
    answered with, and bounds that the cache holds, are bounds the cache
    held at the start or the result of a query of the bounds that has
    settled before. *)
Theorem answered_bounds_are_query_results (c0 : cache) (es : list event) :
  let s := run es (idle c0) in
  let queried b :=
    cachedAppBounds c0 = Some b ∨ ∃ n, BoundsSettled n (Resolved (Some b)) ∈ es in
  (∀ b, cachedAppBounds (cache_of s) = Some b → queried b)
  ∧ (∀ caller b, (caller, Some b) ∈ answers s → queried b).
Proof.
  cbv zeta. induction es as [|e es IH] using rev_ind.
  { simpl. split; [by left|]. intros caller b Hin. by apply elem_of_nil in Hin. }
  rewrite run_snoc. set (s := run es (idle c0)) in *. destruct IH as [IHc IHa].
  assert (Hold : ∀ b, (cachedAppBounds c0 = Some b
                       ∨ ∃ n, BoundsSettled n (Resolved (Some b)) ∈ es) →
                      cachedAppBounds c0 = Some b
                      ∨ ∃ n, BoundsSettled n (Resolved (Some b)) ∈ es ++ [e]).
  { intros b [?|[n Hn]]; [by left|right]. exists n. apply elem_of_app. by left. }
  assert (Hans : ∀ caller r caller' b,
            (caller', Some b) ∈ answers s ++ [(caller, r)] →
            (caller', Some b) ∈ answers s ∨ r = Some b).
  { intros caller r caller' b [?|Hin]%elem_of_app; [by left|right].
    apply list_elem_of_singleton in Hin. by simplify_eq. }
  destruct e as [caller now now'|caller now|n r|n r]; simpl.
  - unfold getCachedAppBounds_begin, updateCachedAppBounds_begin.
    destruct (fresh now (cache_of s)); [|destruct (boundsUpdateInProgress (cache_of s));
      [|destruct (fresh now' (cache_of s))]]; simpl;
      (split; [intros b Hb; by apply Hold, IHc|]);
      intros caller' b Hin;
      first [ apply Hans in Hin as [Hin|Hin]; [by eapply Hold, IHa|by apply Hold, IHc]
            | by eapply Hold, IHa ].
  - unfold updateCachedAppBounds_begin.
    destruct (boundsUpdateInProgress (cache_of s));
      [|destruct (fresh now (cache_of s))]; simpl;
      (split; [intros b Hb; by apply Hold, IHc|]);
      intros caller' b Hin;
      first [ apply Hans in Hin as [Hin|Hin]; [by eapply Hold, IHa|by apply Hold, IHc]
            | by eapply Hold, IHa ].
  - destruct (tasks s !! n) as [[caller now [w|]]|];
      try (split; [intros b Hb; by apply Hold, IHc|intros ? b Hin; by eapply Hold, IHa]).
    unfold updateCachedAppBounds_window.
    destruct r as [[w|]|]; [destruct (same_window now w (cache_of s))| |]; simpl;
      (split; [intros b Hb; by apply Hold, IHc|]);
      intros caller' b Hin;
      first [ apply Hans in Hin as [Hin|Hin];
              [by eapply Hold, IHa|first [done|by apply Hold, IHc]]
            | by eapply Hold, IHa ].
  - destruct (tasks s !! n) as [[caller now [w|]]|];
      try (split; [intros b Hb; by apply Hold, IHc|intros ? b Hin; by eapply Hold, IHa]).
    destruct r as [[b0|]|]; simpl.
    + split.
      * intros b [= <-]. right. exists n. apply elem_of_app. right. apply list_elem_of_here.
      * intros caller' b Hin. apply Hans in Hin as [Hin|[= <-]]; [by eapply Hold, IHa|].
        right. exists n. apply elem_of_app. right. apply list_elem_of_here.
    + split; [intros b Hb; by apply Hold, IHc|].
      intros caller' b Hin. apply Hans in Hin as [Hin|Hin]; [by eapply Hold, IHa|done].
    + split; [intros b Hb; by apply Hold, IHc|].
      intros caller' b Hin. apply Hans in Hin as [Hin|Hin];
        [by eapply Hold, IHa|by apply Hold, IHc].
Qed.

Lemma split_comma_pieces s : split_comma s ≠ [].
Proof. destruct s as [|c rest]; simpl; [done|]. by repeat case_match. Qed.

(** Joining the pieces with commas gives the string back. *)
Lemma split_comma_join s : Keyboard.join "," (split_comma s) = s.
Proof.
  induction s as [|c rest IH]; [done|]. simpl.
  pose proof (split_comma_pieces rest) as Hne.
  destruct (decide (c = comma)) as [->|Hc].
  - simpl. destruct (split_comma rest) as [|p ps]; [done|]. by rewrite IH.
  - destruct (split_comma rest) as [|p ps]; [done|]. simpl in *.
    destruct ps; simpl in *; by rewrite <- IH.
Qed.

Section parse.
Variable number : Type.
Variable Number : string → number.
Variable trim : string → string.

(** X22.  [getApplicationWindowBoundsRaw] gives bounds exactly on macOS,
    for a window, when [exec] reports no error, the trimmed output is not
    empty, is not [no_browser], does not start with [error], and has
    exactly four pieces between commas that are not blank.  The bounds are
    then [Number] of those four pieces, whatever they are (no piece is
    tested for being a number), under the name of the window and with the
    method applescript: the method is never fallback. *)
Theorem raw_bounds_are_found_by_applescript
    (darwin : bool) (appWindow : option Window.t) (r : exec_result) :
  let bounds := getApplicationWindowBoundsRaw number Number trim darwin appWindow r in
  (is_Some bounds
   ↔ darwin = true ∧ is_Some appWindow
     ∧ error r = false
     ∧ String.prefix "error" (output trim r) = false
     ∧ output trim r ≠ "no_browser"
     ∧ output trim r ≠ EmptyString
     ∧ length (pieces trim r) = 4%nat)
  ∧ ∀ b, bounds = Some b →
      method number b = "applescript"
      ∧ method number b ≠ "fallback"
      ∧ (∃ w, appWindow = Some w ∧ windowName number b = Window.name w)
      ∧ Number <$> pieces trim r
        = [x number b; y number b; width number b; height number b].
Proof.
  cbv zeta. unfold getApplicationWindowBoundsRaw.
  destruct appWindow as [w|]; [|split; [split; [by intros []|by intros (_ & [] & _)]|done]].
  destruct darwin; [|split; [split; [by intros []|by intros (? & _)]|done]].
  unfold failed.
  destruct (error r); simpl.
  { split; [split; [by intros []|by intros (_ & _ & ? & _)]|done]. }
  destruct (String.prefix "error" (output trim r)); simpl.
  { split; [split; [by intros []|by intros (_ & _ & _ & ? & _)]|done]. }
  case_bool_decide as Hnb; simpl.
  { split; [split; [by intros []|by intros (_ & _ & _ & _ & ? & _)]|done]. }
  case_bool_decide as Hempty; simpl.
  { split; [split; [by intros []|by intros (_ & _ & _ & _ & _ & ? & _)]|done]. }
  destruct (pieces trim r) as [|p1 [|p2 [|p3 [|p4 [|p5 ps]]]]]; simpl;
    try (split; [split; [by intros []|by intros (_ & _ & _ & _ & _ & _ & ?)]|done]).
  split; [split; [intros _; repeat split; eauto|eauto]|].
  intros b [= <-]. simpl. repeat split; eauto.
Qed.

End parse.

End BoundsOriginFacts.

(** ** The window that is chosen *)

Module WindowsFacts.
Import Windows.

Section selection.
Variable toLowerCase : string → string.

Lemma insert_by_area_perm s l : insert_by_area s l ≡ₚ s :: l.
Proof.
  induction l as [|y rest IH]; simpl; [done|].
  case_bool_decide; [done|]. rewrite IH. apply Permutation_swap.
Qed.

Lemma sort_by_area_perm l : sort_by_area l ≡ₚ l.
Proof.
  induction l as [|s l IH]; simpl; [done|]. by rewrite insert_by_area_perm, IH.
Qed.

Lemma insert_by_area_sorted s l :
  Sorted not_smaller l → Sorted not_smaller (insert_by_area s l).
Proof.
  induction l as [|y rest IH]; intros Hs; simpl.
  { repeat constructor. }
  case_bool_decide as Hle.
  - constructor; [done|]. by constructor.
  - apply Sorted_inv in Hs as [Hs Hhd]. constructor; [by apply IH|].
    destruct rest as [|z rest]; simpl.
    + constructor. unfold not_smaller. lia.
    + case_bool_decide; constructor; [unfold not_smaller; lia|].
      by apply HdRel_inv in Hhd.
Qed.

Lemma sort_by_area_sorted l : Sorted not_smaller (sort_by_area l).
Proof.
  induction l as [|s l IH]; simpl; [constructor|]. by apply insert_by_area_sorted.
Qed.

Lemma sort_by_area_head l w rest :
  sort_by_area l = w :: rest → w ∈ l ∧ ∀ s, s ∈ l → area s ≤ area w.
Proof.
  intros Hsort. pose proof (sort_by_area_perm l) as Hperm. rewrite Hsort in Hperm.
  split; [rewrite <- Hperm; apply list_elem_of_here|].
  pose proof (sort_by_area_sorted l) as Hs. rewrite Hsort in Hs.
  apply Sorted_StronglySorted in Hs;
    [|intros a b c; unfold not_smaller; lia].
  apply StronglySorted_inv in Hs as [_ Hall]. rewrite Forall_forall in Hall.
  intros s. rewrite <- Hperm. intros [->|Hin]%elem_of_cons; [lia|]. by apply Hall.
Qed.

Lemma filter_none {A} (P : A → Prop) `{∀ x, Decision (P x)} (l : list A) :
  filter P l = [] ↔ ∀ x, x ∈ l → ¬ P x.
Proof.
  split.
  - intros Hnil x Hx HP. by apply (filter_nil_not_elem_of P l x).
  - intros Hall. destruct (filter P l) as [|x rest] eqn:Hf; [done|].
    assert (x ∈ filter P l) as [HP Hin]%list_elem_of_filter
      by (rewrite Hf; apply list_elem_of_here).
    by destruct (Hall x Hin).
Qed.

(** X23.  [getActiveApplicationWindow] answers null exactly when every
    source is a system window.  The window it answers with is one of the
    sources and is no system window; and if some source that is no system
    window has a thumbnail of 300 x 200 at least, the answer is such a
    source, with a thumbnail of the largest area among them. *)
Theorem chosen_window_is_an_application_window (sources : list source) :
  (getActiveApplicationWindow toLowerCase sources = None
   ↔ ∀ s, s ∈ sources → isSystemWindow toLowerCase s = true)
  ∧ ∀ w, getActiveApplicationWindow toLowerCase sources = Some w →
      w ∈ sources
      ∧ isSystemWindow toLowerCase w = false
      ∧ ((∃ s, s ∈ sources ∧ isAppWindow toLowerCase s = true) →
         isAppWindow toLowerCase w = true
         ∧ ∀ s, s ∈ sources → isAppWindow toLowerCase s = true → area s ≤ area w).
Proof.
  unfold getActiveApplicationWindow. cbv zeta.
  destruct (sort_by_area (filter _ sources)) as [|w rest] eqn:Hsort.
  - assert (filter (λ s, isAppWindow toLowerCase s = true) sources = []) as Hnone.
    { apply Permutation_nil_r. by rewrite <- Hsort, sort_by_area_perm. }
    rewrite filter_none in Hnone.
    split.
    + rewrite head_None, filter_none. split.
      * intros Hall s Hs. specialize (Hall s Hs).
        by destruct (isSystemWindow toLowerCase s).
      * intros Hall s Hs. rewrite (Hall s Hs). done.
    + intros w [rest Hw]%head_Some.
      assert (w ∈ filter (λ s, isSystemWindow toLowerCase s = false) sources)
        as [Hsys Hin]%list_elem_of_filter by (rewrite Hw; apply list_elem_of_here).
      split; [done|]. split; [done|].
      intros (s & Hs & Happ). by destruct (Hnone s Hs).
  - apply sort_by_area_head in Hsort as [[Happ Hin]%list_elem_of_filter Hmax].
    split.
    + split; [done|]. intros Hall. specialize (Hall w Hin).
      unfold isAppWindow in Happ. by rewrite Hall in Happ.
    + intros ? [= <-]. split; [done|]. split.
      { unfold isAppWindow in Happ. by destruct (isSystemWindow toLowerCase w). }
      intros _. split; [done|]. intros s Hs Hsapp. apply Hmax.
      by apply list_elem_of_filter.
Qed.

(** X24.  The thumbnails are asked for at 150 x 150, and a thumbnail that
    is not larger than that is under 300 x 200: the first filter rejects
    every source, the sort by area is never reached, and the answer is the
    first source, in the order of the sources, that is no system window. *)
Theorem small_thumbnails_choose_the_first_window (sources : list source) :
  (∀ s, s ∈ sources → s_width s ≤ 150 ∧ s_height s ≤ 150) →
  getActiveApplicationWindow toLowerCase sources
  = head (filter (λ s, isSystemWindow toLowerCase s = false) sources).
Proof.
  intros Hsmall. unfold getActiveApplicationWindow. cbv zeta.
  assert (filter (λ s, isAppWindow toLowerCase s = true) sources = []) as ->; [|done].
  apply filter_none. intros s Hs. destruct (Hsmall s Hs) as [Hw Hh].
  unfold isAppWindow. destruct (isSystemWindow toLowerCase s); [done|].
  destruct (Z.ltb_spec (s_width s) 300); [done|lia].
Qed.

End selection.

Lemma small_thumbnails_witness :
  (∀ s, s ∈ three_sources → s_width s ≤ 150 ∧ s_height s ≤ 150)
  ∧ getActiveApplicationWindow lower three_sources
    = Some {| s_id := "window:2:0"; s_name := "Terminal"; s_width := 150;
              s_height := 90 |}.
Proof.
  assert (H : ∀ s, s ∈ three_sources → s_width s ≤ 150 ∧ s_height s ≤ 150).
  { intros s Hs. unfold three_sources in Hs. rewrite !elem_of_cons, elem_of_nil in Hs.
    destruct Hs as [->|[->|[->|[]]]]; simpl; lia. }
  split; [exact H|].
  rewrite (small_thumbnails_choose_the_first_window lower three_sources H).
  vm_compute. reflexivity.
Defined.

End WindowsFacts.
